(** * go-structdiff: a shallow embedding of the diff engine

    The development follows the Go sources of the package [structdiff]:
    - [tomap.go]      : [ToMap], [toMapValue], [parseName]
    - [diffmaps.go]   : [DiffMaps], [valuesEqual], [mapsEqual], [slicesEqual],
                        [isMap], [isSlice], [isStruct]
    - [diff.go]       : [Diff], [safeEqual]
    - [diffstruct.go] : [DiffStructs], [diffStructValues],
                        [diffSameTypeStructs], [getFieldByName],
                        [directValuesEqual]

    Go values of static type [any] are modelled by the inductive [value];
    [reflect.Value] by the record [rvalue].  A run-time panic is an explicit
    outcome, and the mutually recursive engine is indexed by the nesting
    depth it is allowed to explore. *)

From stdpp Require Import gmap strings list fin_maps.
From Stdlib Require Import ZArith Lia Ascii.

#[local] Set Warnings "-register-all,-clear-no-such-hyp".
#[local] Open Scope Z_scope.
#[local] Open Scope string_scope.
#[local] Open Scope list_scope.

(** ** Types and values *)

(** The Go types that the engine can tell apart through [reflect]. Maps are
    string-keyed, as everywhere in the package's own use. *)
Inductive type : Type :=
| TBool
| TInt
| TString
| TTime                       (* time.Time *)
| TAny                        (* interface{} *)
| TPtr (elem : type)
| TSlice (elem : type)
| TMap (elem : type)          (* map[string]elem *)
| TStruct (name : string).

#[global] Instance type_eq_dec : EqDecision type.
Proof. solve_decision. Defined.

(** [reflect.StructField], reduced to what the engine reads: the declared
    identifier, [IsExported()], [Tag.Get("json")] and the declared type. *)
Record StructField : Type := mkField {
  FName : string;
  IsExported : bool;
  JsonTag : string;
  FType : type
}.

(** A dynamic Go value. [VNil] is the nil interface; it only occurs where the
    static type is [any].  Pointers carry an address, which is what [==]
    compares.  A nil map or slice is [None]. *)
Inductive value : Type :=
| VNil
| VBool (b : bool)
| VInt (n : Z)
| VString (s : string)
| VTime (instant : Z) (zone : Z)
| VPtr (elem : type) (p : option (N * value))
| VSlice (elem : type) (s : option (list value))
| VMap (elem : type) (m : option (gmap string value))
| VStruct (name : string) (fields : list (StructField * value)).

(** map[string]any, nil or not. *)
Abbreviation gomap := (option (gmap string value)).

Definition entries (m : gomap) : gmap string value := default ∅ m.
Definition len (m : gomap) : nat := size (entries m).

(** The Go [error] interface. *)
Inductive error : Type :=
| ErrNil
| Err (msg : string).

Definition typeOf (v : value) : option type :=
  match v with
  | VNil => None
  | VBool _ => Some TBool
  | VInt _ => Some TInt
  | VString _ => Some TString
  | VTime _ _ => Some TTime
  | VPtr t _ => Some (TPtr t)
  | VSlice t _ => Some (TSlice t)
  | VMap t _ => Some (TMap t)
  | VStruct n _ => Some (TStruct n)
  end.

Definition isAny (t : type) : bool :=
  match t with TAny => true | _ => false end.

(** ** Panics and bounded exploration *)

(** Outcome of code that may panic. *)
Inductive outcome (A : Type) : Type :=
| Returns (a : A)
| Panics.
Arguments Returns {A} a.
Arguments Panics {A}.

(** Outcome of the recursive engine: as [outcome], or the exploration bound
    was reached. *)
Inductive result (A : Type) : Type :=
| Ok (a : A)
| Panic
| OutOfFuel.
Arguments Ok {A} a.
Arguments Panic {A}.
Arguments OutOfFuel {A}.

Definition lift {A} (o : outcome A) : result A :=
  match o with Returns a => Ok a | Panics => Panic end.

#[global] Instance outcome_ret : MRet outcome := fun _ a => Returns a.
#[global] Instance outcome_bind : MBind outcome := fun _ _ f m =>
  match m with Returns a => f a | Panics => Panics end.
#[global] Instance result_ret : MRet result := fun _ a => Ok a.
#[global] Instance result_bind : MBind result := fun _ _ f m =>
  match m with Ok a => f a | Panic => Panic | OutOfFuel => OutOfFuel end.

(** ** Interface equality: Go's [a == b] on two [any] values *)

(** Whether the dynamic type of [v] is comparable.  Slices and maps are not;
    a struct type is when all its field types are, and a field of interface
    type is comparable whatever it holds. *)
Fixpoint comparable (v : value) : bool :=
  match v with
  | VSlice _ _ | VMap _ _ => false
  | VStruct _ fs =>
      forallb (fun f => if isAny (FType f.1) then true else comparable f.2) fs
  | _ => true
  end.

(** [a == b]: nil only equals nil; different dynamic types are unequal;
    identical uncomparable types panic; structs are compared field by field
    in source order, stopping at the first difference. *)
Fixpoint goEq (a b : value) : outcome bool :=
  match a, b with
  | VNil, VNil => Returns true
  | VNil, _ | _, VNil => Returns false
  | _, _ =>
    if negb (bool_decide (typeOf a = typeOf b)) then Returns false
    else if negb (comparable a) then Panics
    else
      match a, b with
      | VBool x, VBool y => Returns (bool_decide (x = y))
      | VInt x, VInt y => Returns (bool_decide (x = y))
      | VString x, VString y => Returns (bool_decide (x = y))
      | VTime i z, VTime i' z' => Returns (bool_decide (i = i') && bool_decide (z = z'))
      | VPtr _ p, VPtr _ q =>
          Returns (bool_decide (fst <$> p = fst <$> q))
      | VStruct _ fs, VStruct _ gs =>
          (fix fields (fs gs : list (StructField * value)) : outcome bool :=
             match fs, gs with
             | [], [] => Returns true
             | f :: fs', g :: gs' =>
                 r ← goEq f.2 g.2;
                 if r : bool then fields fs' gs' else Returns false
             | _, _ => Returns false
             end) fs gs
      | _, _ => Returns false
      end
  end.

(** diff.go, [safeEqual]: [defer recover()] around [return a == b]; after a
    recovered panic the unnamed result is its zero value, [false]. *)
Definition safeEqual (a b : value) : bool :=
  match goEq a b with
  | Returns r => r
  | Panics => false
  end.

(** ** reflect.Value *)

(** A [reflect.Value]: the value underneath, whether its static type is an
    interface type (then [Kind()] is [Interface]), and whether it was reached
    through an unexported field (then [Interface()] panics). *)
Record rvalue : Type := RV {
  isIface : bool;
  isRO : bool;
  under : value
}.

(** The zero [reflect.Value{}]. *)
Definition Invalid : rvalue := RV false false VNil.

Definition ValueOf (v : value) : rvalue := RV false false v.

Definition IsValid (r : rvalue) : bool :=
  isIface r || match under r with VNil => false | _ => true end.

Inductive kind : Type :=
| KInvalid | KBool | KInt | KString | KStruct | KPointer | KSlice | KMap
| KInterface.

#[global] Instance kind_eq_dec : EqDecision kind.
Proof. solve_decision. Defined.

Definition Kind (r : rvalue) : kind :=
  if isIface r then KInterface else
  match under r with
  | VNil => KInvalid
  | VBool _ => KBool
  | VInt _ => KInt
  | VString _ => KString
  | VTime _ _ | VStruct _ _ => KStruct
  | VPtr _ _ => KPointer
  | VSlice _ _ => KSlice
  | VMap _ _ => KMap
  end.

(** [r.Type()], for a valid [r]. *)
Definition TypeOf (r : rvalue) : option type :=
  if isIface r then Some TAny else typeOf (under r).

(** [r.Kind() == reflect.Pointer && r.IsNil()] *)
Definition isNilPointer (r : rvalue) : bool :=
  if isIface r then false else
  match under r with VPtr _ None => true | _ => false end.

(** [r.Interface()] *)
Definition Interface (r : rvalue) : outcome value :=
  if isRO r then Panics else Returns (under r).

(** The field values of a struct, as [v.Field(i)] yields them. *)
Definition Field (ro : bool) (f : StructField * value) : rvalue :=
  RV (isAny (FType f.1)) (ro || negb (IsExported f.1)) f.2.

(** ** tomap.go *)

(** [strings.Split(tag, ",")[0]] *)
Fixpoint beforeComma (s : string) : string :=
  match s with
  | EmptyString => EmptyString
  | String c s' =>
      if Ascii.eqb c ","%char then EmptyString else String c (beforeComma s')
  end.

Definition parseName (tag fallback : string) : string :=
  if bool_decide (tag = "") then fallback
  else
    let name := beforeComma tag in
    if bool_decide (name = "") then fallback else name.

(** One iteration of the field loop of [toMapValue], with [conv] the
    recursive call: unexported and ["-"]-tagged fields are skipped, a nil
    pointer is skipped, and a field whose conversion is nil is not stored. *)
Definition toMapField (conv : bool -> value -> value)
    (m : gmap string value) (f : StructField * value) : gmap string value :=
  if negb (IsExported f.1) then m
  else if bool_decide (JsonTag f.1 = "-") then m
  else
    let name := parseName (JsonTag f.1) (FName f.1) in
    if isNilPointer (Field false f) then m
    else
      match conv (isAny (FType f.1)) f.2 with
      | VNil => m
      | val => <[name := val]> m
      end.

(** [toMapValue] on the reflect.Value [RV iface _ v].  A value of interface
    kind falls to the default case and is returned as it is.  Only exported
    fields are entered, so [Interface()] cannot panic here. *)
Fixpoint toMapValue_at (iface : bool) (v : value) {struct v} : value :=
  if iface then v
  else
    match v with
    | VNil => VNil
    | VPtr _ None => VNil
    | VPtr t (Some (_, e)) => toMapValue_at (isAny t) e
    | VTime _ _ => v
    | VStruct _ fs =>
        VMap TAny (Some (foldl (toMapField toMapValue_at) ∅ fs))
    | VSlice _ None => VNil
    | VSlice t (Some l) => VSlice TAny (Some (map (toMapValue_at (isAny t)) l))
    | VMap _ None => VNil
    | VMap t (Some m) => VMap TAny (Some (toMapValue_at (isAny t) <$> m))
    | _ => v
    end.

Definition toMapValue (r : rvalue) : value :=
  toMapValue_at (isIface r) (under r).

Definition ToMap (v : value) : gomap :=
  match toMapValue (ValueOf v) with
  | VMap TAny m => m
  | _ => None
  end.

(** ** Loops with an early [return] *)

Inductive flow (S R : Type) : Type :=
| Next (s : S)
| Return (r : R).
Arguments Next {S R} s.
Arguments Return {S R} r.

(** [for _, x := range l { body }] over loop state [S]; the body either
    moves on to the next iteration or returns from the enclosing function. *)
Fixpoint range {X S R} (body : X -> S -> result (flow S R))
    (l : list X) (s : S) : result (flow S R) :=
  match l with
  | [] => Ok (Next s)
  | x :: l' =>
      f ← body x s;
      match f with
      | Next s' => range body l' s'
      | Return r => Ok (Return r)
      end
  end.

(** ** Type switches of diffmaps.go *)

Definition isMap (v : value) : bool :=
  match v with VMap TAny _ => true | _ => false end.

Definition isSlice (v : value) : bool :=
  match v with VSlice TAny _ => true | _ => false end.

Definition isStruct (v : value) : bool :=
  match v with VStruct _ _ | VTime _ _ => true | _ => false end.

(** [v.(map[string]any)] and [v.([]any)], after the matching test *)
Definition asMap (v : value) : gomap :=
  match v with VMap TAny m => m | _ => None end.

Definition asSlice (v : value) : list value :=
  match v with VSlice TAny (Some l) => l | _ => [] end.

(** [diffMap, ok := diff.(map[string]any); ok && len(diffMap) > 0] *)
Definition nonEmptyMap (diff : value) : bool :=
  isMap diff && bool_decide (0 < len (asMap diff))%nat.

(** ** diffstruct.go: reflection helpers *)

(** [v.Elem()] of a non-nil pointer *)
Definition Elem (r : rvalue) : rvalue :=
  match under r with
  | VPtr t (Some (_, e)) => RV (isAny t) (isRO r) e
  | _ => Invalid
  end.

(** The fields of a struct value, in declaration order *)
Definition fieldsOf (r : rvalue) : list (StructField * value) :=
  match under r with VStruct _ fs => fs | _ => [] end.

(** [getFieldByName]: the first exported field, not tagged ["-"], whose
    external name is [name]. *)
Fixpoint lookupField (ro : bool) (fs : list (StructField * value))
    (name : string) : option rvalue :=
  match fs with
  | [] => None
  | f :: fs' =>
      if negb (IsExported f.1) then lookupField ro fs' name
      else if bool_decide (JsonTag f.1 = "-") then lookupField ro fs' name
      else if bool_decide (parseName (JsonTag f.1) (FName f.1) = name)
           then Some (Field ro f)
           else lookupField ro fs' name
  end.

Definition getFieldByName (structVal : rvalue) (name : string) : option rvalue :=
  lookupField (isRO structVal) (fieldsOf structVal) name.

(** [directValuesEqual] on [a = RV ifa ro va] and [b].  The loops return
    [false] at the first difference; [Interface()] panics on a value reached
    through an unexported field, and the closing [==] panics on identical
    uncomparable dynamic types. *)
Fixpoint directValuesEqual_at (ifa ro : bool) (va : value) (b : rvalue)
    {struct va} : outcome bool :=
  let a := RV ifa ro va in
  if negb (IsValid a) && negb (IsValid b) then Returns true
  else if negb (IsValid a) || negb (IsValid b) then Returns false
  else if negb (bool_decide (TypeOf a = TypeOf b)) then Returns false
  else if ifa then
    (* kind Interface: no case of the kind tests applies, the closing
       comparison does *)
    x ← Interface a; y ← Interface b; goEq x y
  else
    match va, under b with
    | VPtr t p, VPtr _ q =>
        match p, q with
        | None, None => Returns true
        | None, _ | _, None => Returns false
        | Some (_, x), Some (_, y) =>
            directValuesEqual_at (isAny t) ro x (RV (isAny t) (isRO b) y)
        end
    | VTime i _, VTime j _ =>
        _ ← Interface a; _ ← Interface b; Returns (bool_decide (i = j))
    | VStruct _ fs, VStruct _ gs =>
        if negb (bool_decide (length fs = length gs)) then Returns false
        else
          (fix fields (fs gs : list (StructField * value)) : outcome bool :=
             match fs, gs with
             | f :: fs', g :: gs' =>
                 r ← directValuesEqual_at (isAny (FType f.1))
                       (ro || negb (IsExported f.1)) f.2 (Field (isRO b) g);
                 if r : bool then fields fs' gs' else Returns false
             | _, _ => Returns true
             end) fs gs
    | VSlice t x, VSlice _ y =>
        match x, y with
        | None, None => Returns true
        | None, _ | _, None => Returns false
        | Some l, Some l' =>
            if negb (bool_decide (length l = length l')) then Returns false
            else
              (fix elems (l l' : list value) : outcome bool :=
                 match l, l' with
                 | x :: l1, y :: l1' =>
                     r ← directValuesEqual_at (isAny t) ro x
                           (RV (isAny t) (isRO b) y);
                     if r : bool then elems l1 l1' else Returns false
                 | _, _ => Returns true
                 end) l l'
        end
    | VMap t x, VMap _ y =>
        match x, y with
        | None, None => Returns true
        | None, _ | _, None => Returns false
        | Some m, Some m' =>
            if negb (bool_decide (size m = size m')) then Returns false
            else
              map_fold (fun key aVal (rest : outcome bool) =>
                  r ← rest;
                  if r : bool then
                    match m' !! key with
                    | None => Returns false
                    | Some bVal =>
                        directValuesEqual_at (isAny t) ro aVal
                          (RV (isAny t) (isRO b) bVal)
                    end
                  else Returns false)
                (Returns true) m
        end
    | _, _ => x ← Interface a; y ← Interface b; goEq x y
    end.

Definition directValuesEqual (a b : rvalue) : outcome bool :=
  directValuesEqual_at (isIface a) (isRO a) (under a) b.

(** ** The engine, one level of nesting at a time

    [Diff], [DiffMaps], [DiffStructs] and [valuesEqual] call each other.  Every
    cycle between them passes through a call on the values stored under a key
    or in a field: [valuesEqual] and [Diff] on map entries in [DiffMaps] and
    [mapsEqual], on slice elements in [slicesEqual], on field values in
    [diffSameTypeStructs].  In this section those two calls are the
    variables [valuesEqual_rec] and [Diff_rec]; the knot is tied below. *)

Module Open.
Section Level.

Variable valuesEqual_rec : value -> value -> result bool.
Variable Diff_rec : value -> value -> result (value * error).

(** *** diffmaps.go *)

(** Go leaves the order of [range] over a map unspecified; the loops over
    maps run here in the order of [map_to_list]. *)
Definition mapsEqual (a b : gomap) : result bool :=
  if negb (bool_decide (len a = len b)) then Ok false
  else
    f ← range (fun (kv : string * value) (_ : unit) =>
          match entries b !! kv.1 with
          | None => Ok (Return false)
          | Some valB =>
              eq ← valuesEqual_rec kv.2 valB;
              if eq : bool then Ok (Next ()) else Ok (Return false)
          end) (map_to_list (entries a)) ();
    match f with
    | Next _ => Ok true
    | Return r => Ok r
    end.

Definition slicesEqual (a b : list value) : result bool :=
  if negb (bool_decide (length a = length b)) then Ok false
  else
    f ← range (fun (xy : value * value) (_ : unit) =>
          eq ← valuesEqual_rec xy.1 xy.2;
          if eq : bool then Ok (Next ()) else Ok (Return false))
        (zip a b) ();
    match f with
    | Next _ => Ok true
    | Return r => Ok r
    end.

(** The body of the loop over [new] in [DiffMaps]; the loop state is
    [(result, seenInNew)]. *)
Definition diffEntry (old : gmap string value) (kv : string * value)
    (st : gmap string value * gset string)
    : result (flow (gmap string value * gset string) (gomap * error)) :=
  let '(key, newVal) := kv in
  let '(result, seenInNew) := st in
  let seenInNew := {[key]} ∪ seenInNew in
  match old !! key with
  | None => Ok (Next (<[key := newVal]> result, seenInNew))
  | Some oldVal =>
      eq ← valuesEqual_rec oldVal newVal;
      if eq : bool then Ok (Next (result, seenInNew))
      else if (isMap oldVal || isStruct oldVal) && (isMap newVal || isStruct newVal)
      then
        '(diff, err) ← Diff_rec oldVal newVal;
        match err with
        | Err _ => Ok (Return (None, err))
        | ErrNil =>
            match diff with
            | VNil => Ok (Next (result, seenInNew))
            | _ =>
                if nonEmptyMap diff
                then Ok (Next (<[key := diff]> result, seenInNew))
                else Ok (Next (result, seenInNew))
            end
        end
      else Ok (Next (<[key := newVal]> result, seenInNew))
  end.

(** The loop over [old] that emits the deletions *)
Definition markDeleted (seenInNew : gset string)
    (result : gmap string value) (kv : string * value) : gmap string value :=
  if bool_decide (kv.1 ∈ seenInNew) then result else <[kv.1 := VNil]> result.

Definition DiffMaps (old new : gomap) : result (gomap * error) :=
  match old, new with
  | None, None => Ok (None, ErrNil)
  | None, Some n =>
      Ok (Some (foldl (fun result kv => <[kv.1 := kv.2]> result) ∅
                  (map_to_list n)), ErrNil)
  | Some o, None =>
      Ok (Some (foldl (fun result kv => <[kv.1 := VNil]> result) ∅
                  (map_to_list o)), ErrNil)
  | Some o, Some n =>
      f ← range (diffEntry o) (map_to_list n) (∅, ∅);
      match f with
      | Return r => Ok r
      | Next (result, seenInNew) =>
          Ok (Some (foldl (markDeleted seenInNew) result (map_to_list o)), ErrNil)
      end
  end.

(** *** diffstruct.go *)

(** The body of the loop over the fields of [new] in [diffSameTypeStructs] *)
Definition diffField (oldVal newVal : rvalue) (f : StructField * value)
    (st : gmap string value * gset string)
    : result (flow (gmap string value * gset string) (gomap * error)) :=
  let '(result, seenInNew) := st in
  if negb (IsExported f.1) then Ok (Next (result, seenInNew))
  else if bool_decide (JsonTag f.1 = "-") then Ok (Next (result, seenInNew))
  else
    let name := parseName (JsonTag f.1) (FName f.1) in
    let seenInNew := {[name]} ∪ seenInNew in
    let newFieldVal := Field (isRO newVal) f in
    if isNilPointer newFieldVal then
      match getFieldByName oldVal name with
      | Some oldFieldVal =>
          if negb (isNilPointer oldFieldVal)
          then Ok (Next (<[name := VNil]> result, seenInNew))
          else Ok (Next (result, seenInNew))
      | None => Ok (Next (result, seenInNew))
      end
    else
      match getFieldByName oldVal name with
      | None => Ok (Next (<[name := toMapValue newFieldVal]> result, seenInNew))
      | Some oldFieldVal =>
          if isNilPointer oldFieldVal
          then Ok (Next (<[name := toMapValue newFieldVal]> result, seenInNew))
          else
            eq ← lift (directValuesEqual oldFieldVal newFieldVal);
            if eq : bool then Ok (Next (result, seenInNew))
            else
              oldInterface ← lift (Interface oldFieldVal);
              newInterface ← lift (Interface newFieldVal);
              if bool_decide (TypeOf oldFieldVal = Some TTime)
                 && bool_decide (TypeOf newFieldVal = Some TTime)
              then Ok (Next (<[name := toMapValue newFieldVal]> result, seenInNew))
              else if (isStruct oldInterface || isMap oldInterface)
                      && (isStruct newInterface || isMap newInterface)
              then
                '(diff, err) ← Diff_rec oldInterface newInterface;
                match err with
                | Err _ => Ok (Return (None, err))
                | ErrNil =>
                    let result :=
                      match diff with
                      | VNil => result
                      | _ => if nonEmptyMap diff
                             then <[name := VMap TAny (asMap diff)]> result
                             else result
                      end in
                    let result :=
                      if nonEmptyMap diff then <[name := diff]> result
                      else result in
                    Ok (Next (result, seenInNew))
                end
              else Ok (Next (<[name := toMapValue newFieldVal]> result, seenInNew))
      end.

(** The body of the loop over the fields of [old] *)
Definition deletedField (oldVal : rvalue) (seenInNew : gset string)
    (result : gmap string value) (f : StructField * value) : gmap string value :=
  if negb (IsExported f.1) then result
  else if bool_decide (JsonTag f.1 = "-") then result
  else
    let name := parseName (JsonTag f.1) (FName f.1) in
    if bool_decide (name ∈ seenInNew) then result
    else if negb (isNilPointer (Field (isRO oldVal) f))
         then <[name := VNil]> result
         else result.

Definition diffSameTypeStructs (oldVal newVal : rvalue) : result (gomap * error) :=
  f ← range (diffField oldVal newVal) (fieldsOf newVal) (∅, ∅);
  match f with
  | Return r => Ok r
  | Next (result, seenInNew) =>
      Ok (Some (foldl (deletedField oldVal seenInNew) result (fieldsOf oldVal)),
          ErrNil)
  end.

(** The entry checks of [diffStructValues] (nil against nil, and the fall
    back for one nil side).  They also decide its two recursive calls, which
    pass [reflect.Value{}] for one side. *)
Definition diffStructValues_nil (oldVal newVal : rvalue) : result (gomap * error) :=
  if negb (IsValid oldVal) && negb (IsValid newVal) then Ok (Some ∅, ErrNil)
  else
    oldInterface ← (if IsValid oldVal then lift (Interface oldVal) else Ok VNil);
    newInterface ← (if IsValid newVal then lift (Interface newVal) else Ok VNil);
    DiffMaps (ToMap oldInterface) (ToMap newInterface).

Definition diffStructValues (oldVal newVal : rvalue) : result (gomap * error) :=
  if negb (IsValid oldVal) || negb (IsValid newVal)
  then diffStructValues_nil oldVal newVal
  else if isNilPointer oldVal && isNilPointer newVal then Ok (Some ∅, ErrNil)
  else if isNilPointer oldVal then diffStructValues_nil Invalid newVal
  else
    let oldVal := if bool_decide (Kind oldVal = KPointer) then Elem oldVal else oldVal in
    if isNilPointer newVal then diffStructValues_nil oldVal Invalid
    else
      let newVal := if bool_decide (Kind newVal = KPointer) then Elem newVal else newVal in
      if negb (bool_decide (Kind oldVal = KStruct))
         || negb (bool_decide (Kind newVal = KStruct))
      then
        oldInterface ← lift (Interface oldVal);
        newInterface ← lift (Interface newVal);
        DiffMaps (ToMap oldInterface) (ToMap newInterface)
      else if bool_decide (TypeOf oldVal = Some TTime)
              && bool_decide (TypeOf newVal = Some TTime)
      then
        oldInterface ← lift (Interface oldVal);
        newInterface ← lift (Interface newVal);
        match oldInterface, newInterface with
        | VTime i _, VTime j _ =>
            if bool_decide (i = j) then Ok (Some ∅, ErrNil)
            else Ok (Some {[ "" := newInterface ]}, ErrNil)
        | _, _ => Panic
        end
      else if negb (bool_decide (TypeOf oldVal = TypeOf newVal))
      then
        oldInterface ← lift (Interface oldVal);
        newInterface ← lift (Interface newVal);
        DiffMaps (ToMap oldInterface) (ToMap newInterface)
      else diffSameTypeStructs oldVal newVal.

Definition DiffStructs (old new : value) : result (gomap * error) :=
  diffStructValues (ValueOf old) (ValueOf new).

(** *** diffmaps.go, [valuesEqual] *)

Definition valuesEqual (a b : value) : result bool :=
  match a, b with
  | VNil, VNil => Ok true
  | VNil, _ | _, VNil => Ok false
  | _, _ =>
      if isMap a && isMap b then mapsEqual (asMap a) (asMap b)
      else if isSlice a && isSlice b then slicesEqual (asSlice a) (asSlice b)
      else if isStruct a && isStruct b then
        '(diff, err) ← DiffStructs a b;
        match err with
        | Err _ => Ok false
        | ErrNil => Ok (bool_decide (len diff = 0%nat))
        end
      else Ok (safeEqual a b)
  end.

(** *** diff.go, [Diff] *)

Definition Diff (old new : value) : result (value * error) :=
  match old, new with
  | VNil, VNil => Ok (VNil, ErrNil)
  | _, _ =>
      let oldIsStruct := isStruct old in
      let oldIsMap := isMap old in
      let newIsStruct := isStruct new in
      let newIsMap := isMap new in
      if oldIsStruct && newIsStruct then
        '(result, err) ← DiffStructs old new; Ok (VMap TAny result, err)
      else if oldIsMap && newIsMap then
        '(result, err) ← DiffMaps (asMap old) (asMap new); Ok (VMap TAny result, err)
      else
        let oldMap : gomap :=
          if oldIsStruct || oldIsMap
          then (if oldIsStruct then ToMap old else asMap old)
          else None in
        let newMap : gomap :=
          if newIsStruct || newIsMap
          then (if newIsStruct then ToMap new else asMap new)
          else None in
        if bool_decide (is_Some oldMap) || bool_decide (is_Some newMap) then
          '(result, err) ← DiffMaps oldMap newMap; Ok (VMap TAny result, err)
        else if safeEqual old new then Ok (VNil, ErrNil)
        else Ok (new, ErrNil)
  end.

End Level.
End Open.

(** *** Tying the knot

    [engine n] gives [valuesEqual] and [Diff] for values nested at most [n]
    levels deep; below that the exploration stops with [OutOfFuel]. *)
Fixpoint engine (n : nat)
    : (value -> value -> result bool) * (value -> value -> result (value * error)) :=
  match n with
  | O => (fun _ _ => OutOfFuel, fun _ _ => OutOfFuel)
  | S n' =>
      (Open.valuesEqual (engine n').1 (engine n').2,
       Open.Diff (engine n').1 (engine n').2)
  end.

Definition valuesEqual (n : nat) : value -> value -> result bool :=
  (engine n).1.
Definition Diff (n : nat) : value -> value -> result (value * error) :=
  (engine n).2.
Definition DiffMaps (n : nat) : gomap -> gomap -> result (gomap * error) :=
  Open.DiffMaps (valuesEqual n) (Diff n).
Definition DiffStructs (n : nat) : value -> value -> result (gomap * error) :=
  Open.DiffStructs (valuesEqual n) (Diff n).

(** ** Applying a patch to a map *)

Section Apply.

(** Modelled from the spec: [applyToRecord] (section 4.4) is not under src/.
    It is taken as given: applied to a clone of a record and a patch it
    yields the patched record, or fails. *)
Variable applyToRecord : value -> gmap string value -> option value.

(** Modelled from the spec: [ApplyToMap] (the spec's applyToMapping, section
    4.4) is not under src/, only its tests and callers are.  "Start from a
    shallow copy of target.  For each (key, value) in patch: deletion marker:
    remove key; both existing value and patch value are Mappings: recursively
    merge; existing value is a Record and patch value is a Mapping: attempt
    applyToRecord on a clone, on failure fall back to replacing with the raw
    patch mapping; otherwise replace verbatim."  [applyPatch patch target]
    applies the mapping held by [patch]. *)
Fixpoint applyPatch (patch : value) (target : gmap string value) {struct patch}
    : gmap string value :=
  match patch with
  | VMap TAny (Some p) =>
      map_fold (fun key v (copy : gmap string value) =>
          match v with
          | VNil => delete key copy
          | _ =>
              match copy !! key with
              | Some existing =>
                  if isMap existing && isMap v
                  then <[key := VMap TAny (Some (applyPatch v (entries (asMap existing))))]> copy
                  else if isStruct existing && isMap v
                  then match applyToRecord existing (entries (asMap v)) with
                       | Some patched => <[key := patched]> copy
                       | None => <[key := v]> copy
                       end
                  else <[key := v]> copy
              | None => <[key := v]> copy
              end
          end) target p
  | _ => target
  end.

Definition ApplyToMap (target patch : gmap string value) : gmap string value :=
  applyPatch (VMap TAny (Some patch)) target.

End Apply.

(** ** Classes of values used in the statements *)

(** Values built from non-nil leaves ([bool], [int], [string]), [[]any]
    sequences and [map[string]any] mappings only: no nil entry, no record,
    no pointer. *)
Fixpoint plain (v : value) : bool :=
  match v with
  | VBool _ | VInt _ | VString _ => true
  | VSlice TAny (Some l) => forallb plain l
  | VMap TAny (Some m) => map_fold (fun _ x acc => plain x && acc) true m
  | _ => false
  end.

Definition plainMap (m : gmap string value) : bool :=
  plain (VMap TAny (Some m)).

(** Nesting depth of a value *)
Fixpoint depth (v : value) : nat :=
  match v with
  | VPtr _ (Some (_, e)) => S (depth e)
  | VSlice _ (Some l) => S (foldr (fun x acc => Nat.max (depth x) acc) 0%nat l)
  | VMap _ (Some m) => S (map_fold (fun _ x acc => Nat.max (depth x) acc) 0%nat m)
  | VStruct _ fs => S (foldr (fun f acc => Nat.max (depth f.2) acc) 0%nat fs)
  | _ => 0%nat
  end.

(** What [DiffMaps] stores under [key] for an entry [key: newVal] of [new],
    given the map [old]; [r] is the patch's entry, [None] when the key is
    left out. *)
Definition entrySpec (ve : value -> value -> result bool)
    (df : value -> value -> result (value * error))
    (old : gmap string value) (key : string) (newVal : value)
    (r : option value) : Prop :=
  match old !! key with
  | None => r = Some newVal
  | Some oldVal =>
      exists eq : bool, ve oldVal newVal = Ok eq /\
        if eq then r = None
        else if (isMap oldVal || isStruct oldVal) && (isMap newVal || isStruct newVal)
        then exists diff, df oldVal newVal = Ok (diff, ErrNil) /\
               r = (if nonEmptyMap diff then Some diff else None)
        else r = Some newVal
  end.

(** [r] carries a nil error whenever it is a returned pair. *)
Definition nilError {A} (r : result (A * error)) : Prop :=
  match r with
  | Ok (_, e) => e = ErrNil
  | _ => True
  end.

(** The patch of two non-nil maps, key by key. *)
Definition patchSpec (ve : value -> value -> result bool)
    (df : value -> value -> result (value * error))
    (old new patch : gmap string value) : Prop :=
  forall k,
    match new !! k with
    | Some v => entrySpec ve df old k v (patch !! k)
    | None => patch !! k = (match old !! k with Some _ => Some VNil | None => None end)
    end.

(** ** Field catalog notions used in the statements *)

(** A slot that [ToMap] and the struct diff look at: exported and not
    tagged ["-"]. *)
Definition included (f : StructField * value) : bool :=
  IsExported f.1 && negb (bool_decide (JsonTag f.1 = "-")).

Definition externalName (f : StructField * value) : string :=
  parseName (JsonTag f.1) (FName f.1).

(** A slot of pointer, slice or map kind that is nil. *)
Definition absentSlot (f : StructField * value) : bool :=
  negb (isAny (FType f.1)) &&
  match f.2 with
  | VPtr _ None | VSlice _ None | VMap _ None => true
  | _ => false
  end.

(** Present-but-zero values: the empty string, 0, false, the empty sequence. *)
Definition zeroValue (v : value) : bool :=
  match v with
  | VString "" | VInt 0 | VBool false | VSlice _ (Some []) => true
  | _ => false
  end.

Fixpoint commaFree (s : string) : bool :=
  match s with
  | EmptyString => true
  | String c s' => negb (Ascii.eqb c ","%char) && commaFree s'
  end.

(** A record with one slot [F any] holding a [map[string]any]. *)
Definition boxed (m : gmap string value) : value :=
  VStruct "Box" [(mkField "F" true "" TAny, VMap TAny (Some m))].

(** Two slots of the documentation's [Config] example *)
Definition passwordSlot : StructField * value :=
  (mkField "Password" true "password,omitempty" (TPtr TString), VPtr TString None).

Definition hostSlot : StructField * value :=
  (mkField "Host" true "host" TString, VString "localhost").

(** What [ApplyToMap] leaves under a key whose patch entry is [v], given the
    target's entry [existing]: [None] when the key is removed. *)
Definition applyEntry (applyToRecord : value -> gmap string value -> option value)
    (existing : option value) (v : value) : option value :=
  match v with
  | VNil => None
  | _ =>
      match existing with
      | Some e =>
          if isMap e && isMap v
          then Some (VMap TAny (Some (applyPatch applyToRecord v (entries (asMap e)))))
          else if isStruct e && isMap v
          then match applyToRecord e (entries (asMap v)) with
               | Some patched => Some patched
               | None => Some v
               end
          else Some v
      | None => Some v
      end
  end.

(** The maps of the README's [DiffMaps] example *)
Definition oldABC : gmap string value :=
  {[ "a" := VInt 1; "b" := VInt 2; "c" := VInt 3 ]}.

Definition newABD : gmap string value :=
  {[ "a" := VInt 1; "b" := VInt 20; "d" := VInt 4 ]}.

(** An [applyToRecord] that always fails *)
Definition noRecords (target : value) (patch : gmap string value) : option value :=
  None.

(** ** Flat records *)

Definition basicValue (v : value) : bool :=
  match v with VBool _ | VInt _ | VString _ => true | _ => false end.

(** The slots of a flat record: every included slot holds a [bool], an [int]
    or a [string], and no two included slots share an external name. *)
Definition flatFields (fs : list (StructField * value)) : Prop :=
  Forall (fun f => included f = true -> basicValue f.2 = true) fs /\
  NoDup (List.map externalName (List.filter included fs)).

(** What the struct diff does with one slot of a flat record *)
Definition flatStep (ofs : list (StructField * value))
    (res : gmap string value) (f : StructField * value) : gmap string value :=
  if included f then
    match lookupField false ofs (externalName f) with
    | Some oldField =>
        if safeEqual (under oldField) f.2 then res
        else <[externalName f := f.2]> res
    | None => <[externalName f := f.2]> res
    end
  else res.

(** The README's [User] record *)
Definition user (name : string) (age : Z) (email : string) : list (StructField * value) :=
  [(mkField "Name" true "name" TString, VString name);
   (mkField "Age" true "age" TInt, VInt age);
   (mkField "Email" true "email" TString, VString email)].

(** A record with a [map[string]any] slot, as in the package's tests *)
Definition userWithConfig (config : gomap) : value :=
  VStruct "UserWithConfig"
    [(mkField "Name" true "name" TString, VString "John");
     (mkField "Config" true "config" (TMap TAny), VMap TAny config)].

(** ** Exploration depth *)

(** [r'] extends [r]: it is [r] unless [r] ran out of depth. *)
Definition extends {A} (r r' : result A) : Prop :=
  r = OutOfFuel \/ r' = r.

(** The exploration came to an end: a return or a panic. *)
Definition decided {A} (r : result A) : Prop := r <> OutOfFuel.

(** ** The earlier revision of diff.go

    The repository snapshot also holds the revision of [Diff] from before the
    error results.  It returns a map, compares two leaves with a bare [==],
    which panics on identical uncomparable types, and wraps a different leaf
    under the empty key.  The [DiffStructs] and [DiffMaps] of that revision
    are variables here. *)
Module Legacy.
Section Diff.

Variable DiffStructs : value -> value -> result gomap.
Variable DiffMaps : gomap -> gomap -> result gomap.

Definition Diff (old new : value) : result gomap :=
  match old, new with
  | VNil, VNil => Ok None
  | _, _ =>
      let oldIsStruct := isStruct old in
      let oldIsMap := isMap old in
      let newIsStruct := isStruct new in
      let newIsMap := isMap new in
      if oldIsStruct && newIsStruct then DiffStructs old new
      else if oldIsMap && newIsMap then DiffMaps (asMap old) (asMap new)
      else
        let oldMap : gomap :=
          if oldIsStruct || oldIsMap
          then (if oldIsStruct then ToMap old else asMap old)
          else None in
        let newMap : gomap :=
          if newIsStruct || newIsMap
          then (if newIsStruct then ToMap new else asMap new)
          else None in
        if bool_decide (is_Some oldMap) || bool_decide (is_Some newMap)
        then DiffMaps oldMap newMap
        else
          eq ← lift (goEq old new);
          if eq : bool then Ok None else Ok (Some {[ "" := new ]})
  end.

End Diff.
End Legacy.

(** ** Normalized values *)

(** Values without a slot of interface type, at any depth: no [any] field,
    no [[]any], no [map[string]any], no pointer to an interface. *)
Fixpoint typed (v : value) : bool :=
  match v with
  | VPtr t p =>
      negb (isAny t) && match p with Some (_, e) => typed e | None => true end
  | VSlice t s =>
      negb (isAny t) && match s with Some l => forallb typed l | None => true end
  | VMap t s =>
      negb (isAny t) &&
      match s with
      | Some m => map_fold (fun _ x acc => typed x && acc) true m
      | None => true
      end
  | VStruct _ fs => forallb (fun f => negb (isAny (FType f.1)) && typed f.2) fs
  | _ => true
  end.

(** What [toMapValue] is meant to produce: nil, leaves, timestamps, [[]any]
    and [map[string]any] of such; no record, no pointer, no typed slice or
    map. *)
Fixpoint normal (v : value) : bool :=
  match v with
  | VNil | VBool _ | VInt _ | VString _ | VTime _ _ => true
  | VSlice TAny (Some l) => forallb normal l
  | VMap TAny (Some m) => map_fold (fun _ x acc => normal x && acc) true m
  | _ => false
  end.

(** A record with an exported slot [F any] holding [v], and a record with one
    exported pointer slot. *)
Definition boxedValue (v : value) : value :=
  VStruct "Box" [(mkField "F" true "" TAny, v)].

Definition pointSlots (x y : Z) : list (StructField * value) :=
  [(mkField "X" true "x" TInt, VInt x); (mkField "Y" true "y" TInt, VInt y)].

(** [v == nil] on an interface value *)
#[global] Instance value_nil_dec (v : value) : Decision (v = VNil).
Proof. destruct v; first [by left | by right]. Defined.

(** What [diffSameTypeStructs] stores for a slot of [new], given the slot
    [getFieldByName] finds in [old] under the same external name; [r] is
    the patch's entry, [None] when the key is left out. *)
Definition slotSpec (df : value -> value -> result (value * error))
    (oldField : option rvalue) (newField : rvalue) (r : option value) : Prop :=
  if isNilPointer newField then
    match oldField with
    | Some o => r = if isNilPointer o then None else Some VNil
    | None => r = None
    end
  else
    match oldField with
    | None => r = Some (toMapValue newField)
    | Some o =>
        if isNilPointer o then r = Some (toMapValue newField)
        else
          exists eq : bool, directValuesEqual o newField = Returns eq /\
            if eq then r = None
            else
              exists oi ni, Interface o = Returns oi /\ Interface newField = Returns ni /\
                if bool_decide (TypeOf o = Some TTime)
                   && bool_decide (TypeOf newField = Some TTime)
                then r = Some (toMapValue newField)
                else if (isStruct oi || isMap oi) && (isStruct ni || isMap ni)
                then exists diff, df oi ni = Ok (diff, ErrNil) /\
                       r = (if nonEmptyMap diff then Some diff else None)
                else r = Some (toMapValue newField)
    end.

(** The external names of the included slots, in declaration order *)
Definition slotNames (fs : list (StructField * value)) : list string :=
  List.map externalName (List.filter included fs).

(** A record with a timestamp, an optional timestamp and a nested record *)
Definition event (created : Z) (updated : option (N * value)) (at_x : Z)
    : list (StructField * value) :=
  [(mkField "Created" true "created" TTime, VTime created 0);
   (mkField "Updated" true "updated" (TPtr TTime), VPtr TTime updated);
   (mkField "At" true "at" (TStruct "Point"), VStruct "Point" (pointSlots at_x 0))].

(** ** The earlier revision of diffmaps.go

    [DiffMaps] and [valuesEqual] from before the error results: no error is
    threaded, the nested [Diff] returns a map, and the closing comparison of
    [valuesEqual] is the bare [==].  [mapsEqual] and [slicesEqual] read as in
    the current revision.  The [DiffStructs] of that revision is not part of
    the snapshot and stays a variable. *)

(** [for _, x := range l { body }] without an early [return] *)
Fixpoint each {X S} (body : X -> S -> result S) (l : list X) (s : S) : result S :=
  match l with
  | [] => Ok s
  | x :: l' => s' ← body x s; each body l' s'
  end.

Module LegacyMaps.
Section Level.

Variable DiffStructs : value -> value -> result gomap.
Variable valuesEqual_rec : value -> value -> result bool.
Variable Diff_rec : value -> value -> result gomap.

Definition mapsEqual (a b : gomap) : result bool :=
  Open.mapsEqual valuesEqual_rec a b.

Definition slicesEqual (a b : list value) : result bool :=
  Open.slicesEqual valuesEqual_rec a b.

Definition diffEntry (old : gmap string value) (kv : string * value)
    (st : gmap string value * gset string)
    : result (gmap string value * gset string) :=
  let '(key, newVal) := kv in
  let '(result, seenInNew) := st in
  let seenInNew := {[key]} ∪ seenInNew in
  match old !! key with
  | None => Ok (<[key := newVal]> result, seenInNew)
  | Some oldVal =>
      eq ← valuesEqual_rec oldVal newVal;
      if eq : bool then Ok (result, seenInNew)
      else if (isMap oldVal || isStruct oldVal) && (isMap newVal || isStruct newVal)
      then
        diff ← Diff_rec oldVal newVal;
        if bool_decide (0 < len diff)%nat
        then Ok (<[key := VMap TAny diff]> result, seenInNew)
        else Ok (result, seenInNew)
      else Ok (<[key := newVal]> result, seenInNew)
  end.

Definition DiffMaps (old new : gomap) : result gomap :=
  match old, new with
  | None, None => Ok None
  | None, Some n =>
      Ok (Some (foldl (fun result kv => <[kv.1 := kv.2]> result) ∅ (map_to_list n)))
  | Some o, None =>
      Ok (Some (foldl (fun result kv => <[kv.1 := VNil]> result) ∅ (map_to_list o)))
  | Some o, Some n =>
      '(result, seenInNew) ← each (diffEntry o) (map_to_list n) (∅, ∅);
      Ok (Some (foldl (Open.markDeleted seenInNew) result (map_to_list o)))
  end.

Definition valuesEqual (a b : value) : result bool :=
  match a, b with
  | VNil, VNil => Ok true
  | VNil, _ | _, VNil => Ok false
  | _, _ =>
      if isMap a && isMap b then mapsEqual (asMap a) (asMap b)
      else if isSlice a && isSlice b then slicesEqual (asSlice a) (asSlice b)
      else if isStruct a && isStruct b then
        diff ← DiffStructs a b;
        Ok (bool_decide (len diff = 0%nat))
      else lift (goEq a b)
  end.

End Level.

(** The knot, by nesting depth as for the current revision; [Diff] is the
    earlier [Diff] of part_000. *)
Fixpoint engine (DiffStructs : value -> value -> result gomap) (n : nat)
    : (value -> value -> result bool) * (value -> value -> result gomap) :=
  match n with
  | O => (fun _ _ => OutOfFuel, fun _ _ => OutOfFuel)
  | S n' =>
      let ve := (engine DiffStructs n').1 in
      let df := (engine DiffStructs n').2 in
      (valuesEqual DiffStructs ve,
       Legacy.Diff DiffStructs (DiffMaps ve df))
  end.

End LegacyMaps.

(** A record or a non-nil [map[string]any]: the values [Diff] turns into a
    map before diffing. *)
Definition composite (v : value) : bool :=
  match v with
  | VStruct _ _ | VMap TAny (Some _) => true
  | _ => false
  end.

(* ===================================================================== *)
(** * Properties *)

(** ** The result monad and [range] *)

Lemma bind_Ok {A B} (f : A -> result B) (m : result A) (b : B) :
  (m ≫= f) = Ok b -> exists a, m = Ok a /\ f a = Ok b.
Proof. destruct m; simpl; intros H; try discriminate. eauto. Qed.

Lemma lift_Ok {A} (o : outcome A) (a : A) : lift o = Ok a -> o = Returns a.
Proof. destruct o; simpl; congruence. Qed.

Lemma lift_not_OutOfFuel {A} (o : outcome A) : lift o <> OutOfFuel.
Proof. by destruct o. Qed.

Ltac inv_bind H :=
  let a := fresh "a" in
  let Ha := fresh "Ha" in
  apply bind_Ok in H; destruct H as (a & Ha & H).

Lemma range_cons {X S R} (body : X -> S -> result (flow S R)) x l s :
  range body (x :: l) s =
    (body x s ≫= fun f => match f with
                           | Next s' => range body l s'
                           | Return r => Ok (Return r)
                           end).
Proof. reflexivity. Qed.

(** A loop that leaves through [Next] went through [Next] at every step. *)
Lemma range_Next_ind {X S R} (body : X -> S -> result (flow S R))
    (I : list X -> S -> Prop) l s s' :
  I [] s ->
  (forall done x s1 s2, I done s1 -> body x s1 = Ok (Next s2) -> I (done ++ [x]) s2) ->
  range body l s = Ok (Next s') -> I l s'.
Proof.
  intros H0 Hstep.
  assert (Hgen : forall done s, I done s ->
            range body l s = Ok (Next s') -> I (done ++ l) s').
  { induction l as [|x l IH]; intros done s1 HI Hr.
    - simpl in Hr. rewrite app_nil_r. congruence.
    - rewrite range_cons in Hr. inv_bind Hr.
      destruct a as [s2|r]; [|discriminate].
      replace (done ++ x :: l) with ((done ++ [x]) ++ l)
        by (by rewrite <- app_assoc).
      eapply IH; [|exact Hr]. eapply Hstep; eauto. }
  intros Hr. apply (Hgen [] s H0 Hr).
Qed.

(** A loop that returns early does so from the body, at some element. *)
Lemma range_Return {X S R} (body : X -> S -> result (flow S R)) l s r :
  range body l s = Ok (Return r) ->
  exists x s1, x ∈ l /\ body x s1 = Ok (Return r).
Proof.
  revert s. induction l as [|x l IH]; intros s Hr; [discriminate|].
  rewrite range_cons in Hr. inv_bind Hr. destruct a as [s2|r'].
  - destruct (IH _ Hr) as (y & s1 & Hy & Hb). exists y, s1. split; [by right|done].
  - exists x, s. split; [by left|]. congruence.
Qed.

(** ** [DiffMaps], key by key *)

Lemma nonEmptyMap_not_nil diff : nonEmptyMap diff = true -> diff <> VNil.
Proof. by destruct diff. Qed.

Lemma foldl_markDeleted seen l res k :
  foldl (Open.markDeleted seen) res l !! k =
    if bool_decide (k ∈ l.*1 /\ k ∉ seen) then Some VNil else res !! k.
Proof.
  revert res. induction l as [|[k' v'] l IH]; intros res.
  - done.
  - cbn [foldl]. rewrite IH. unfold Open.markDeleted. cbn [fst fmap list_fmap].
    destruct (decide (k = k')) as [->|Hne].
    + destruct (decide (k' ∈ seen)) as [Hs|Hs].
      * rewrite (bool_decide_eq_true_2 (k' ∈ seen)) by done.
        rewrite !bool_decide_eq_false_2; [done|set_solver|set_solver].
      * rewrite (bool_decide_eq_false_2 (k' ∈ seen)) by done.
        rewrite lookup_insert_eq.
        rewrite (bool_decide_eq_true_2 (k' ∈ k' :: _ /\ _)) by set_solver.
        by destruct (bool_decide _).
    + assert (Hl : (if bool_decide (k' ∈ seen) then res else <[k' := VNil]> res) !! k = res !! k).
      { destruct (bool_decide (k' ∈ seen)); [done|]. by rewrite lookup_insert_ne. }
      rewrite Hl. apply (f_equal (fun b : bool => if b then Some VNil else res !! k)).
      apply bool_decide_ext. set_solver.
Qed.

Lemma foldl_insert_entries (g : value -> value) l (res : gmap string value) k :
  NoDup l.*1 ->
  foldl (fun result (kv : string * value) => <[kv.1 := g kv.2]> result) res l !! k =
    match list_to_map (M := gmap string value) l !! k with
    | Some v => Some (g v)
    | None => res !! k
    end.
Proof.
  revert res. induction l as [|[k' v'] l IH]; intros res Hnd.
  - done.
  - cbn [fmap list_fmap fst] in Hnd. apply NoDup_cons in Hnd as [Hk' Hnd].
    cbn [foldl list_to_map foldr fst snd uncurry]. rewrite IH by done.
    destruct (decide (k = k')) as [->|Hne].
    + rewrite !lookup_insert_eq.
      by rewrite (not_elem_of_list_to_map_1 l k') by done.
    + rewrite !(lookup_insert_ne _ k' k) by done. done.
Qed.

Section DiffMapsFacts.

Variable ve : value -> value -> result bool.
Variable df : value -> value -> result (value * error).

(** One iteration that moves on: the key is seen, other keys are untouched,
    and a key not yet in the result gets what [entrySpec] says. *)
Lemma diffEntry_Next old k v res seen res' seen' :
  Open.diffEntry ve df old (k, v) (res, seen) = Ok (Next (res', seen')) ->
  seen' = {[k]} ∪ seen /\
  (forall k', k' <> k -> res' !! k' = res !! k') /\
  (res !! k = None -> entrySpec ve df old k v (res' !! k)).
Proof.
  unfold Open.diffEntry, entrySpec. intros H.
  destruct (old !! k) as [oldVal|] eqn:Hold.
  - inv_bind H. destruct a as [|].
    + simplify_eq. split_and!; [done|done|]. intros Hn. exists true. by rewrite Hn.
    + destruct ((isMap oldVal || isStruct oldVal) && (isMap v || isStruct v)) eqn:Hc.
      * inv_bind H. destruct a as [diff err]. destruct err; [|discriminate].
        assert (Hres : (res', seen') =
                  (if nonEmptyMap diff then <[k := diff]> res else res, {[k]} ∪ seen)).
        { destruct diff; simpl in *; try (destruct (nonEmptyMap _)); congruence. }
        simplify_eq. split_and!; [done| |].
        -- intros k' Hk'. destruct (nonEmptyMap diff); [by rewrite lookup_insert_ne|done].
        -- intros Hn. exists false. split; [done|]. exists diff. split; [done|].
           destruct (nonEmptyMap diff); [by rewrite lookup_insert_eq|done].
      * simplify_eq. split_and!; [done| |].
        -- intros k' Hk'. by rewrite lookup_insert_ne.
        -- intros _. exists false. split; [done|]. by rewrite lookup_insert_eq.
  - simplify_eq. split_and!; [done| |].
    + intros k' Hk'. by rewrite lookup_insert_ne.
    + intros _. by rewrite lookup_insert_eq.
Qed.

(** An iteration returns early only with the error of the recursive [Diff]. *)
Lemma diffEntry_Return old kv st r :
  Open.diffEntry ve df old kv st = Ok (Return r) ->
  exists a b d msg, df a b = Ok (d, Err msg) /\ r = (None, Err msg).
Proof.
  unfold Open.diffEntry. destruct kv as [k v], st as [res seen]. intros H.
  destruct (old !! k) as [oldVal|]; [|discriminate].
  inv_bind H. destruct a; [discriminate|].
  destruct ((isMap oldVal || isStruct oldVal) && (isMap v || isStruct v)); [|discriminate].
  inv_bind H. destruct a as [diff err]. destruct err as [|msg].
  - destruct diff; try destruct (nonEmptyMap _); discriminate.
  - exists oldVal, v, diff, msg. split; [done|congruence].
Qed.

Lemma range_diffEntry old l res seen res' seen' :
  NoDup l.*1 ->
  (forall k, k ∈ l.*1 -> res !! k = None) ->
  range (Open.diffEntry ve df old) l (res, seen) = Ok (Next (res', seen')) ->
  seen' = list_to_set l.*1 ∪ seen /\
  (forall k, k ∉ l.*1 -> res' !! k = res !! k) /\
  (forall k v, (k, v) ∈ l -> entrySpec ve df old k v (res' !! k)).
Proof.
  revert res seen. induction l as [|[k v] l IH]; intros res seen Hnd Hfresh Hr.
  - simpl in Hr. simplify_eq. split_and!; [set_solver|done|]. intros ?? H. by apply elem_of_nil in H.
  - rewrite range_cons in Hr. inv_bind Hr. destruct a as [[res1 seen1]|]; [|discriminate].
    apply diffEntry_Next in Ha as (-> & Hother & Hk).
    simpl in Hnd. apply NoDup_cons in Hnd as [Hkl Hnd].
    destruct (IH res1 ({[k]} ∪ seen) Hnd) as (-> & Hout & Hin); [|done|].
    { intros k' Hk'. rewrite Hother; [|set_solver]. apply Hfresh. set_solver. }
    split_and!.
    + set_solver.
    + intros k' Hk'. rewrite Hout by set_solver. apply Hother. set_solver.
    + intros k' v' [Heq|Hin']%elem_of_cons.
      * simplify_eq. rewrite Hout by done. apply Hk. apply Hfresh. set_solver.
      * by apply Hin.
Qed.

Lemma DiffMaps_Some_Some old new p e :
  Open.DiffMaps ve df (Some old) (Some new) = Ok (p, e) ->
  (e = ErrNil /\ exists patch, p = Some patch /\ patchSpec ve df old new patch) \/
  (exists a b d msg, df a b = Ok (d, Err msg) /\ e = Err msg /\ p = None).
Proof.
  unfold Open.DiffMaps. intros H. inv_bind H. destruct a as [[res seen]|r].
  - left. simplify_eq. split; [done|]. eexists. split; [done|].
    apply range_diffEntry in Ha as (-> & Hout & Hin).
    + intros k. rewrite foldl_markDeleted.
      destruct (new !! k) as [v|] eqn:Hnew.
      * rewrite bool_decide_eq_false_2.
        { apply Hin. by apply elem_of_map_to_list. }
        intros [_ Hk]. apply Hk. apply elem_of_union_l, elem_of_list_to_set.
        apply list_elem_of_fmap. exists (k, v). split; [done|]. by apply elem_of_map_to_list.
      * assert (Hk : k ∉ (map_to_list new).*1).
        { intros ((k' & v') & -> & Hkv)%list_elem_of_fmap.
          apply elem_of_map_to_list in Hkv. simpl in *. congruence. }
        rewrite Hout by done. rewrite lookup_empty.
        destruct (old !! k) as [v|] eqn:Hold.
        -- rewrite bool_decide_eq_true_2; [done|]. split.
           ++ apply list_elem_of_fmap. exists (k, v). split; [done|]. by apply elem_of_map_to_list.
           ++ rewrite elem_of_union, elem_of_list_to_set. set_solver.
        -- rewrite bool_decide_eq_false_2; [done|]. intros [Hk' _].
           apply list_elem_of_fmap in Hk' as ((k' & v') & -> & Hkv).
           apply elem_of_map_to_list in Hkv. simpl in *. congruence.
    + apply NoDup_fst_map_to_list.
    + intros k _. apply lookup_empty.
  - right. simplify_eq. apply range_Return in Ha as (x & s1 & _ & Hb).
    apply diffEntry_Return in Hb as (a & b & d & msg & Hdf & Heq).
    exists a, b, d, msg. by simplify_eq.
Qed.

End DiffMapsFacts.

Lemma diffEntry_absent ve df old k v res seen :
  old !! k = None ->
  Open.diffEntry ve df old (k, v) (res, seen) = Ok (Next (<[k := v]> res, {[k]} ∪ seen)).
Proof. intros H. unfold Open.diffEntry. by rewrite H. Qed.

Lemma range_diffEntry_empty ve df l res seen :
  range (Open.diffEntry ve df ∅) l (res, seen) =
    Ok (Next (foldl (fun result (kv : string * value) => <[kv.1 := id kv.2]> result) res l,
              list_to_set l.*1 ∪ seen)).
Proof.
  revert res seen. induction l as [|[k v] l IH]; intros res seen.
  - simpl. do 3 f_equal. set_solver.
  - rewrite range_cons, diffEntry_absent by apply lookup_empty.
    cbn [mbind result_bind foldl fst snd id].
    rewrite IH. do 3 f_equal. set_solver.
Qed.

Lemma foldl_insert_map_to_list (g : value -> value) (m : gmap string value) :
  foldl (fun result (kv : string * value) => <[kv.1 := g kv.2]> result) ∅
    (map_to_list m) = g <$> m.
Proof.
  apply map_eq. intros k. rewrite foldl_insert_entries by apply NoDup_fst_map_to_list.
  rewrite list_to_map_to_list, lookup_fmap, lookup_empty. by destruct (m !! k).
Qed.

(** Nil compared with nil is equal, at every level that answers. *)
Lemma valuesEqual_nil_nil n r : valuesEqual n VNil VNil = Ok r -> r = true.
Proof. destruct n; simpl; [discriminate|]. unfold valuesEqual. simpl. congruence. Qed.

(** ** The error result *)

Section ErrorFacts.

Variable ve : value -> value -> result bool.
Variable df : value -> value -> result (value * error).
Hypothesis df_nil : forall a b, nilError (df a b).

Lemma df_no_error a b d msg : df a b <> Ok (d, Err msg).
Proof. intros H. specialize (df_nil a b). rewrite H in df_nil. discriminate. Qed.

Lemma DiffMaps_nilError old new : nilError (Open.DiffMaps ve df old new).
Proof.
  destruct (Open.DiffMaps ve df old new) as [[p e]| |] eqn:H; simpl; try done.
  destruct old as [o|], new as [n|]; simpl in H; try congruence.
  apply DiffMaps_Some_Some in H as [[-> _]|(a & b & d & msg & Hdf & _)]; [done|].
  by apply df_no_error in Hdf.
Qed.

Lemma diffField_Return oldVal newVal f st r :
  Open.diffField df oldVal newVal f st = Ok (Return r) ->
  exists a b d msg, df a b = Ok (d, Err msg).
Proof.
  unfold Open.diffField. destruct st as [res seen]. intros H.
  repeat match type of H with
  | (if ?c then _ else _) = _ => destruct c
  | match ?o with Some _ => _ | None => _ end = _ => destruct o
  | Ok (Next _) = Ok (Return _) => discriminate
  | (_ ≫= _) = Ok _ => inv_bind H
  | (let '(_, _) := ?a in _) = _ => destruct a
  | match ?e with ErrNil => _ | Err _ => _ end = _ => destruct e
  end.
  eauto.
Qed.

Lemma diffSameTypeStructs_nilError oldVal newVal :
  nilError (Open.diffSameTypeStructs df oldVal newVal).
Proof.
  destruct (Open.diffSameTypeStructs df oldVal newVal) as [[p e]| |] eqn:H; simpl; try done.
  unfold Open.diffSameTypeStructs in H. inv_bind H. destruct a as [[res seen]|r].
  - congruence.
  - apply range_Return in Ha as (x & s1 & _ & Hb).
    apply diffField_Return in Hb as (a & b & d & msg & Hdf).
    by apply df_no_error in Hdf.
Qed.

Lemma nilError_bind {A B} (m : result A) (f : A -> result (B * error)) :
  (forall a, nilError (f a)) -> nilError (m ≫= f).
Proof. intros H. destruct m; simpl; try done. Qed.

Lemma diffStructValues_nil_nilError oldVal newVal :
  nilError (Open.diffStructValues_nil ve df oldVal newVal).
Proof.
  unfold Open.diffStructValues_nil. destruct (_ && _); [done|].
  apply nilError_bind; intros oi. apply nilError_bind; intros ni.
  apply DiffMaps_nilError.
Qed.

Lemma diffStructValues_nilError oldVal newVal :
  nilError (Open.diffStructValues ve df oldVal newVal).
Proof.
  unfold Open.diffStructValues.
  repeat match goal with
  | |- nilError (if ?c then _ else _) => destruct c
  | |- nilError (Open.diffStructValues_nil _ _ _ _) => apply diffStructValues_nil_nilError
  | |- nilError (Open.diffSameTypeStructs _ _ _) => apply diffSameTypeStructs_nilError
  | |- nilError (Open.DiffMaps _ _ _ _) => apply DiffMaps_nilError
  | |- nilError (_ ≫= _) => apply nilError_bind; intros ?
  | |- nilError (match ?v with VTime _ _ => _ | _ => _ end) => destruct v
  | |- nilError (Ok _) => done
  | |- nilError Panic => done
  end.
Qed.

Lemma DiffStructs_nilError old new : nilError (Open.DiffStructs ve df old new).
Proof. apply diffStructValues_nilError. Qed.

Lemma Diff_nilError old new : nilError (Open.Diff ve df old new).
Proof.
  assert (Hwrap : forall m : result (gomap * error), nilError m ->
            nilError (m ≫= fun '(result, err) => Ok (VMap TAny result, err))).
  { intros [[p e]| |]; simpl; done. }
  unfold Open.Diff.
  destruct old; try destruct new; cbv beta iota zeta;
    repeat match goal with
    | |- nilError (if ?c then _ else _) => destruct c
    | |- nilError (Ok _) => done
    | |- nilError (_ ≫= _) => apply Hwrap
    | |- nilError (Open.DiffStructs _ _ _ _) => apply DiffStructs_nilError
    | |- nilError (Open.DiffMaps _ _ _ _) => apply DiffMaps_nilError
    end.
Qed.

End ErrorFacts.

Lemma engine_nilError n a b : nilError (Diff n a b).
Proof.
  revert a b. induction n as [|n IH]; intros a b; [done|].
  apply Diff_nilError. apply IH.
Qed.

(** ** Deletions in [DiffMaps] *)

Lemma entries_None_lookup (k : string) : entries None !! k = None.
Proof. apply lookup_empty. Qed.

(** C5 (deletion symmetry).  For every string-keyed map [M], nil or not:
    [DiffMaps(M, {})] and [DiffMaps(M, nil)] return a patch that maps every
    key of [M] to the deletion marker nil and has no other key, and
    [DiffMaps({}, M)] and [DiffMaps(nil, M)] return a patch with exactly the
    entries of [M]; the error is nil each time. *)
Theorem DiffMaps_deletion_symmetry (n : nat) (M : gomap) :
  (exists p, DiffMaps n M (Some ∅) = Ok (p, ErrNil) /\
             entries p = (fun _ => VNil) <$> entries M) /\
  (exists p, DiffMaps n M None = Ok (p, ErrNil) /\
             entries p = (fun _ => VNil) <$> entries M) /\
  (exists p, DiffMaps n (Some ∅) M = Ok (p, ErrNil) /\ entries p = entries M) /\
  (exists p, DiffMaps n None M = Ok (p, ErrNil) /\ entries p = entries M).
Proof.
  unfold DiffMaps, Open.DiffMaps. destruct M as [m|]; split_and!.
  - rewrite map_to_list_empty. cbn [range mbind result_bind].
    eexists. split; [done|]. cbn [entries default from_option id].
    apply map_eq. intros k. rewrite foldl_markDeleted, lookup_fmap, lookup_empty.
    destruct (m !! k) as [v|] eqn:Hk.
    + rewrite bool_decide_eq_true_2; [done|]. split; [|set_solver].
      apply list_elem_of_fmap. exists (k, v). split; [done|]. by apply elem_of_map_to_list.
    + rewrite bool_decide_eq_false_2; [done|]. intros [Hk' _].
      apply list_elem_of_fmap in Hk' as ((k' & v') & -> & Hkv).
      apply elem_of_map_to_list in Hkv. simpl in *. congruence.
  - eexists. split; [done|]. cbn [entries default from_option id].
    apply (foldl_insert_map_to_list (fun _ => VNil)).
  - rewrite range_diffEntry_empty. cbn [mbind result_bind].
    rewrite map_to_list_empty. eexists. split; [done|]. cbn [entries default from_option id foldl].
    rewrite (foldl_insert_map_to_list id). apply map_fmap_id.
  - eexists. split; [done|]. cbn [entries default from_option id].
    rewrite <- (map_fmap_id m) at 2. apply (foldl_insert_map_to_list id).
  - rewrite map_to_list_empty. eexists. split; [done|]. cbn [entries default from_option id foldl].
    by rewrite fmap_empty.
  - eexists. split; [done|]. cbn [entries default from_option id]. by rewrite fmap_empty.
  - rewrite map_to_list_empty. eexists. split; [done|]. done.
  - eexists. split; [done|]. done.
Qed.

(** C6, as the code has it.  A key that the patch maps to the deletion
    marker nil is effectively absent in [new]: either it is missing from
    [new], and then it is present in [old]; or [new] itself holds nil under
    it, and then [old] lacks the key or holds a non-nil value there. *)
Theorem DiffMaps_deletion_marker n old new patch err k :
  DiffMaps n old new = Ok (patch, err) ->
  entries patch !! k = Some VNil ->
  (is_Some (entries old !! k) /\ entries new !! k = None) \/
  (entries new !! k = Some VNil /\ entries old !! k <> Some VNil).
Proof.
  intros H Hk. destruct old as [o|], new as [m|].
  - apply DiffMaps_Some_Some in H as [(_ & p & -> & Hspec)|(_ & _ & _ & _ & _ & _ & ->)];
      [|by rewrite entries_None_lookup in Hk].
    cbn [entries default from_option id] in *. specialize (Hspec k).
    destruct (m !! k) as [b|] eqn:Hm.
    + right. unfold entrySpec in Hspec. destruct (o !! k) as [a|] eqn:Ho.
      * destruct Hspec as (eq & Heq & Hr). destruct eq; [congruence|].
        destruct (_ && _).
        -- destruct Hr as (diff & _ & Hr). destruct (nonEmptyMap diff) eqn:Hne; [|congruence].
           apply nonEmptyMap_not_nil in Hne. congruence.
        -- split; [congruence|]. intros [= ->].
           assert (b = VNil) as -> by congruence.
           by apply valuesEqual_nil_nil in Heq.
      * split; [congruence|done].
    + left. split; [|done]. destruct (o !! k); [by eexists|]. congruence.
  - left. unfold DiffMaps, Open.DiffMaps in H. simplify_eq. cbn [entries default from_option id] in *.
    rewrite (foldl_insert_map_to_list (fun _ => VNil)), lookup_fmap in Hk.
    destruct (o !! k); [split; [by eexists|done]|discriminate].
  - right. unfold DiffMaps, Open.DiffMaps in H. simplify_eq. cbn [entries default from_option id] in *.
    rewrite (foldl_insert_map_to_list id), map_fmap_id in Hk. by rewrite lookup_empty.
  - unfold DiffMaps, Open.DiffMaps in H. injection H as <- <-.
    by rewrite entries_None_lookup in Hk.
Qed.

Lemma DiffMaps_deletion_marker_witness :
  (is_Some (entries (Some {[ "a" := VInt 1 ]}) !! "a") /\ entries (Some ∅) !! "a" = None) \/
  (entries (Some ∅) !! "a" = Some VNil /\ entries (Some {[ "a" := VInt 1 ]}) !! "a" <> Some VNil).
Proof.
  apply (DiffMaps_deletion_marker 0 (Some {[ "a" := VInt 1 ]}) (Some ∅)
           (Some {[ "a" := VNil ]}) ErrNil "a").
  - vm_compute. reflexivity.
  - vm_compute. reflexivity.
Defined.

(** C6 as stated fails: a key that only [new] has, with a nil value, is
    emitted verbatim, so the patch maps it to nil although [old] lacks it. *)
Lemma DiffMaps_deletion_marker_counterexample :
  DiffMaps 0 (Some ∅) (Some {[ "a" := VNil ]}) = Ok (Some {[ "a" := VNil ]}, ErrNil) /\
  entries (Some {[ "a" := VNil ]}) !! "a" = Some VNil /\
  ~ is_Some (entries (Some (∅ : gmap string value)) !! "a").
Proof.
  split_and!.
  - vm_compute. reflexivity.
  - vm_compute. reflexivity.
  - intros [x Hx]. vm_compute in Hx. discriminate.
Qed.

(** C10.  Whenever [Diff], [DiffStructs] or [DiffMaps] returns, its error
    result is nil: no path of the engine constructs an error. *)
Theorem diff_error_nil (n : nat) (old new : value) (oldMap newMap : gomap) :
  nilError (Diff n old new) /\
  nilError (DiffStructs n old new) /\
  nilError (DiffMaps n oldMap newMap).
Proof.
  split_and!.
  - apply engine_nilError.
  - apply DiffStructs_nilError, engine_nilError.
  - apply DiffMaps_nilError, engine_nilError.
Qed.

(** Decide the closed tests (kinds, types, tags) that remain in a goal. *)
Ltac eval_decides :=
  repeat match goal with
  | |- context [bool_decide ?P] =>
      let r := eval vm_compute in (bool_decide P) in
      first [constr_eq r true | constr_eq r false];
      change (bool_decide P) with r
  end.

Ltac crunch := repeat (progress (cbn; eval_decides)).

(** ** [safeEqual] and the leaf case of [Diff] *)

(** The comparison of diff.go never panics: it returns what [==] returns,
    and [false] where [==] panics. *)
Lemma safeEqual_total (a b : value) :
  (goEq a b = Panics -> safeEqual a b = false) /\
  (forall r, goEq a b = Returns r -> safeEqual a b = r).
Proof. unfold safeEqual. split; [by intros ->|by intros r ->]. Qed.

(** [==] does panic, on two slices for one. *)
Lemma goEq_slices_panic (l l' : list value) :
  goEq (VSlice TAny (Some l)) (VSlice TAny (Some l')) = Panics.
Proof. reflexivity. Qed.

(** C2, as the code has it.  When neither value is a record or a mapping,
    [Diff] returns the nil result if [safeEqual] finds them equal, and
    otherwise the new value itself, as it is, with a nil error. *)
Theorem Diff_leaves (n : nat) (old new : value) :
  isStruct old = false -> isMap old = false ->
  isStruct new = false -> isMap new = false ->
  Diff (S n) old new =
    if safeEqual old new then Ok (VNil, ErrNil) else Ok (new, ErrNil).
Proof.
  intros Hos Hom Hns Hnm. unfold Diff. cbn [engine snd]. unfold Open.Diff.
  rewrite Hos, Hom, Hns, Hnm. cbn [andb orb].
  rewrite !bool_decide_eq_false_2 by (intros [? ?]; discriminate).
  cbn [orb]. destruct old; try done. destruct new; done.
Qed.

Lemma Diff_leaves_witness :
  Diff 1 (VString "hello") (VString "world") =
    if safeEqual (VString "hello") (VString "world")
    then Ok (VNil, ErrNil) else Ok (VString "world", ErrNil).
Proof. apply (Diff_leaves 0 (VString "hello") (VString "world")); reflexivity. Defined.

(** C2 as stated fails: for two unequal strings [Diff] returns the new
    string, not a single-entry patch under the empty key. *)
Lemma Diff_leaves_counterexample :
  isStruct (VString "hello") = false /\ isMap (VString "hello") = false /\
  isStruct (VString "world") = false /\ isMap (VString "world") = false /\
  safeEqual (VString "hello") (VString "world") = false /\
  Diff 1 (VString "hello") (VString "world") = Ok (VString "world", ErrNil) /\
  Diff 1 (VString "hello") (VString "world") <>
    Ok (VMap TAny (Some {[ "" := VString "world" ]}), ErrNil).
Proof. split_and!; try reflexivity. vm_compute. discriminate. Qed.

(** ** Timestamps under a key of a map *)

Lemma valuesEqual_times n i z j z' :
  i <> j -> valuesEqual (S n) (VTime i z) (VTime j z') = Ok false.
Proof.
  intros Hij. unfold valuesEqual. cbn [engine fst]. unfold Open.valuesEqual.
  cbn. eval_decides. cbn. rewrite bool_decide_eq_false_2 by done. reflexivity.
Qed.

Lemma Diff_times n i z j z' :
  i <> j ->
  Diff (S n) (VTime i z) (VTime j z') =
    Ok (VMap TAny (Some {[ "" := VTime j z' ]}), ErrNil).
Proof.
  intros Hij. unfold Diff. cbn [engine snd]. unfold Open.Diff.
  cbn. eval_decides. cbn. rewrite bool_decide_eq_false_2 by done. reflexivity.
Qed.

(** C4 fails on the code.  Two maps that hold timestamps of different
    instants under a common key: the patch entry is the nested map
    [{"": new timestamp}], not the timestamp. *)
Theorem DiffMaps_time_entry n old new patch err k i z j z' :
  old !! k = Some (VTime i z) -> new !! k = Some (VTime j z') -> i <> j ->
  DiffMaps (S n) (Some old) (Some new) = Ok (patch, err) ->
  entries patch !! k = Some (VMap TAny (Some {[ "" := VTime j z' ]})).
Proof.
  intros Ho Hn Hij H.
  apply DiffMaps_Some_Some in H as [(_ & p & -> & Hspec)|(a & b & d & msg & Hd & _)].
  - specialize (Hspec k). rewrite Hn in Hspec. unfold entrySpec in Hspec.
    rewrite Ho in Hspec. destruct Hspec as (eq & Heq & Hr).
    change (valuesEqual (S n) (VTime i z) (VTime j z') = Ok eq) in Heq.
    rewrite valuesEqual_times in Heq by done. injection Heq as <-.
    cbn [isMap isStruct andb orb] in Hr. destruct Hr as (diff & Hd & Hr).
    change (Diff (S n) (VTime i z) (VTime j z') = Ok (diff, ErrNil)) in Hd.
    rewrite Diff_times in Hd by done. injection Hd as <-.
    cbn [entries default from_option id]. rewrite Hr. reflexivity.
  - pose proof (engine_nilError (S n) a b) as Hnil.
    change (Diff (S n) a b = Ok (d, Err msg)) in Hd. rewrite Hd in Hnil. discriminate.
Qed.

Lemma DiffMaps_time_entry_witness :
  entries (Some {[ "t" := VMap TAny (Some {[ "" := VTime 2 0 ]}) ]}) !! "t" =
    Some (VMap TAny (Some {[ "" := VTime 2 0 ]})).
Proof.
  apply (DiffMaps_time_entry 0 {[ "t" := VTime 1 0 ]} {[ "t" := VTime 2 0 ]}
           (Some {[ "t" := VMap TAny (Some {[ "" := VTime 2 0 ]}) ]}) ErrNil
           "t" 1 0 2 0).
  - vm_compute. reflexivity.
  - vm_compute. reflexivity.
  - lia.
  - vm_compute. reflexivity.
Defined.

(** The struct diff, for comparison, stores the timestamp itself. *)
Lemma DiffStructs_time_field n i z j z' :
  i <> j ->
  DiffStructs n (VStruct "S" [(mkField "T" true "t" TTime, VTime i z)])
                (VStruct "S" [(mkField "T" true "t" TTime, VTime j z')]) =
    Ok (Some {[ "t" := VTime j z' ]}, ErrNil).
Proof.
  intros Hij. unfold DiffStructs, Open.DiffStructs, Open.diffStructValues.
  crunch. rewrite bool_decide_eq_false_2 by done. crunch. reflexivity.
Qed.

(** ** Panics in the comparison of records *)

(** C7 fails on the code.  [safeEqual] itself never panics, but the
    comparison the engine runs on the values under a key is [valuesEqual]:
    on two records whose [any] slot holds a map on both sides it reaches the
    closing [==] of [directValuesEqual], which is not guarded, and panics. *)
Theorem valuesEqual_panics (n : nat) (m m' : gmap string value) :
  valuesEqual (S n) (boxed m) (boxed m') = Panic.
Proof. reflexivity. Qed.

(** ** [ToMap]: what is omitted and what is kept *)

Lemma ToMap_struct name fs :
  ToMap (VStruct name fs) = Some (foldl (toMapField toMapValue_at) ∅ fs).
Proof. reflexivity. Qed.

(** An iteration of the field loop stores nothing, or stores something
    under the external name of an included slot. *)
Lemma toMapField_cases conv m f :
  toMapField conv m f = m \/
  (included f = true /\ exists val, toMapField conv m f = <[externalName f := val]> m).
Proof.
  unfold toMapField, included, externalName.
  destruct (IsExported f.1); [|by left].
  destruct (bool_decide (JsonTag f.1 = "-")); [by left|].
  destruct (isNilPointer _); [by left|].
  destruct (conv _ _); first [by left | right; split; [done|by eexists]].
Qed.

Lemma toMapField_absent m f :
  absentSlot f = true -> toMapField toMapValue_at m f = m.
Proof.
  unfold absentSlot, toMapField, isNilPointer, Field. destruct f as [d v]. cbn [fst snd].
  intros [Hany Hv]%andb_true_iff. apply negb_true_iff in Hany. rewrite Hany.
  destruct (negb (IsExported d)); [done|]. destruct (bool_decide _); [done|].
  cbn [isIface under]. destruct v as [| | | | |t [p|]|t [l|]|t [m'|]|]; try discriminate; done.
Qed.

Lemma toMapField_zero m f :
  included f = true -> zeroValue f.2 = true ->
  toMapField toMapValue_at m f = <[externalName f := toMapValue (Field false f)]> m /\
  toMapValue (Field false f) <> VNil.
Proof.
  unfold included, toMapField, externalName, isNilPointer, toMapValue, Field.
  destruct f as [d v]. cbn [fst snd isIface under].
  intros [He Ht]%andb_true_iff Hz. apply negb_true_iff in Ht.
  rewrite He, Ht. cbn [negb].
  destruct (isAny (FType d)).
  - destruct v as [|[]|[]|[]| | |t [[]|]| |]; try discriminate; done.
  - destruct v as [|[]|[]|[]| | |t [[]|]| |]; try discriminate; done.
Qed.

Lemma foldl_toMapField_is_Some conv fs m k :
  is_Some (m !! k) -> is_Some (foldl (toMapField conv) m fs !! k).
Proof.
  revert m. induction fs as [|f fs IH]; intros m Hm; [done|].
  cbn [foldl]. apply IH.
  destruct (toMapField_cases conv m f) as [->|(_ & val & ->)]; [done|].
  destruct (decide (externalName f = k)) as [->|Hne].
  - rewrite lookup_insert_eq. by eexists.
  - by rewrite lookup_insert_ne.
Qed.

Lemma foldl_toMapField_other conv fs m k :
  k ∉ List.map externalName (List.filter included fs) ->
  foldl (toMapField conv) m fs !! k = m !! k.
Proof.
  revert m. induction fs as [|f fs IH]; intros m Hk; [done|].
  cbn [foldl List.filter] in *.
  destruct (toMapField_cases conv m f) as [->|(Hinc & val & ->)].
  - apply IH. destruct (included f); [|done]. cbn [List.map] in Hk. set_solver.
  - rewrite Hinc in Hk. cbn [List.map] in Hk. rewrite IH by set_solver.
    apply lookup_insert_ne. set_solver.
Qed.

Lemma beforeComma_append base rest :
  commaFree base = true -> beforeComma (base +:+ "," +:+ rest) = base.
Proof.
  induction base as [|c base IH]; intros H; [done|].
  cbn [commaFree] in H. apply andb_true_iff in H as [Hc Hb]. apply negb_true_iff in Hc.
  simpl. rewrite Hc. f_equal. by apply IH.
Qed.

Lemma beforeComma_commaFree base : commaFree base = true -> beforeComma base = base.
Proof.
  induction base as [|c base IH]; intros H; [done|].
  cbn [commaFree] in H. apply andb_true_iff in H as [Hc Hb]. apply negb_true_iff in Hc.
  cbn [beforeComma]. rewrite Hc. f_equal. by apply IH.
Qed.

(** C8.  For a record with an included slot [f] (exported, not tagged
    ["-"]): if [f] is a nil pointer, nil slice or nil map, [ToMap] is what it
    would be without the slot; if [f] holds a present-but-zero value, the
    slot's external name is a key of the result, bound to that value as
    normalized unless a later slot of the same name overrides it; and a tag
    ["name,omitempty"] names the slot as the tag ["name"] does, so the
    modifier changes nothing. *)
Theorem ToMap_omission (name : string) (pre post : list (StructField * value))
    (f : StructField * value) :
  included f = true ->
  (absentSlot f = true ->
     ToMap (VStruct name (pre ++ f :: post)) = ToMap (VStruct name (pre ++ post))) /\
  (zeroValue f.2 = true ->
     exists m, ToMap (VStruct name (pre ++ f :: post)) = Some m /\
       is_Some (m !! externalName f) /\
       toMapValue (Field false f) <> VNil /\
       (externalName f ∉ List.map externalName (List.filter included post) ->
        m !! externalName f = Some (toMapValue (Field false f)))) /\
  (forall base fallback, commaFree base = true ->
     parseName (base +:+ ",omitempty") fallback = parseName base fallback).
Proof.
  intros Hinc. split_and!.
  - intros Habs. rewrite !ToMap_struct, !foldl_app. cbn [foldl].
    by rewrite toMapField_absent.
  - intros Hz. rewrite ToMap_struct, foldl_app. cbn [foldl].
    destruct (toMapField_zero (foldl (toMapField toMapValue_at) ∅ pre) f Hinc Hz)
      as [-> Hnn].
    eexists. split; [done|]. split_and!.
    + apply foldl_toMapField_is_Some. rewrite lookup_insert_eq. by eexists.
    + done.
    + intros Hk. rewrite foldl_toMapField_other by done. apply lookup_insert_eq.
  - intros base fallback Hcf. unfold parseName.
    change (base +:+ ",omitempty") with (base +:+ "," +:+ "omitempty").
    rewrite beforeComma_append, beforeComma_commaFree by done.
    destruct base; [done|]. by rewrite !bool_decide_eq_false_2.
Qed.

Lemma ToMap_omission_witness :
  (absentSlot passwordSlot = true ->
     ToMap (VStruct "Config" ([hostSlot] ++ passwordSlot :: [])) =
     ToMap (VStruct "Config" ([hostSlot] ++ []))) /\
  (zeroValue passwordSlot.2 = true ->
     exists m, ToMap (VStruct "Config" ([hostSlot] ++ passwordSlot :: [])) = Some m /\
       is_Some (m !! externalName passwordSlot) /\
       toMapValue (Field false passwordSlot) <> VNil /\
       (externalName passwordSlot ∉ List.map externalName (List.filter included []) ->
        m !! externalName passwordSlot = Some (toMapValue (Field false passwordSlot)))) /\
  (forall base fallback, commaFree base = true ->
     parseName (base +:+ ",omitempty") fallback = parseName base fallback).
Proof.
  apply (ToMap_omission "Config" [hostSlot] [] passwordSlot). reflexivity.
Defined.

(** The example of the package documentation: the nil [Password] is left
    out, the zero [Debug] is kept, [omitempty] or not. *)
Example ToMap_Config :
  ToMap (VStruct "Config"
    [(mkField "Host" true "host" TString, VString "localhost");
     (mkField "Port" true "port" TInt, VInt 8080);
     (mkField "Password" true "password,omitempty" (TPtr TString), VPtr TString None);
     (mkField "Debug" true "debug,omitempty" TBool, VBool false)]) =
  Some (list_to_map [("host", VString "localhost"); ("port", VInt 8080);
                     ("debug", VBool false)]).
Proof. vm_compute. reflexivity. Qed.

(** ** Nesting depth and plain values *)

Lemma map_fold_max_le (g : value -> nat) (m : gmap string value) k v :
  m !! k = Some v ->
  (g v <= map_fold (fun _ x acc => Nat.max (g x) acc) 0 m)%nat.
Proof.
  intros Hk. apply elem_of_map_to_list in Hk. rewrite map_fold_foldr.
  induction (map_to_list m) as [|[k' v'] l IH]; [by apply elem_of_nil in Hk|].
  apply elem_of_cons in Hk as [Heq|Hin]; cbn [foldr uncurry].
  - injection Heq as <- <-. lia.
  - specialize (IH Hin). cbn in *. lia.
Qed.

Lemma foldr_max_le {X} (g : X -> nat) (l : list X) x :
  x ∈ l -> (g x <= foldr (fun y acc => Nat.max (g y) acc) 0 l)%nat.
Proof.
  induction l as [|y l IH]; intros Hx; [by apply elem_of_nil in Hx|].
  apply elem_of_cons in Hx as [->|Hin]; cbn [foldr]; [lia|].
  specialize (IH Hin). lia.
Qed.

Lemma depth_entry t (m : gmap string value) k v :
  m !! k = Some v -> (depth v < depth (VMap t (Some m)))%nat.
Proof.
  intros Hk. cbn [depth]. apply (map_fold_max_le depth) in Hk.
  apply Nat.lt_succ_r. exact Hk.
Qed.

Lemma depth_elem t (l : list value) x :
  x ∈ l -> (depth x < depth (VSlice t (Some l)))%nat.
Proof.
  intros Hx. cbn [depth]. apply (foldr_max_le depth) in Hx.
  apply Nat.lt_succ_r. exact Hx.
Qed.

Lemma plain_entry (m : gmap string value) k v :
  plain (VMap TAny (Some m)) = true -> m !! k = Some v -> plain v = true.
Proof.
  cbn [plain]. intros Hp Hk. apply elem_of_map_to_list in Hk.
  rewrite map_fold_foldr in Hp.
  induction (map_to_list m) as [|[k' v'] l IH]; [by apply elem_of_nil in Hk|].
  cbn [foldr uncurry] in Hp. apply andb_true_iff in Hp as [Hv Hl].
  apply elem_of_cons in Hk as [Heq|Hin]; [by injection Heq as <- <-|by apply IH].
Qed.

Lemma plain_elem (l : list value) x :
  plain (VSlice TAny (Some l)) = true -> x ∈ l -> plain x = true.
Proof.
  cbn [plain]. intros Hp Hx. rewrite forallb_forall in Hp.
  apply Hp. by apply list_elem_of_In.
Qed.

(** Plain values are leaves, [[]any] or [map[string]any]. *)
Lemma plain_inv v :
  plain v = true ->
  (exists b, v = VBool b) \/ (exists z, v = VInt z) \/ (exists s, v = VString s) \/
  (exists l, v = VSlice TAny (Some l)) \/ (exists m, v = VMap TAny (Some m)).
Proof.
  destruct v as [| | | | | |t [l|]|t [m|]|]; try discriminate; intros H.
  - left. by eexists.
  - right; left. by eexists.
  - right; right; left. by eexists.
  - destruct t; try discriminate. right; right; right; left. by eexists.
  - destruct t; try discriminate.
  - destruct t; try discriminate. right; right; right; right. by eexists.
  - destruct t; try discriminate.
Qed.

(** A loop whose body always moves on ends through [Next]. *)
Lemma range_total {X S R} (body : X -> S -> result (flow S R)) l s :
  (forall x s1, x ∈ l -> exists s2, body x s1 = Ok (Next s2)) ->
  exists s', range body l s = Ok (Next s').
Proof.
  revert s. induction l as [|x l IH]; intros s Hb; [by eexists|].
  rewrite range_cons. destruct (Hb x s) as [s2 ->]; [by left|].
  cbn [mbind result_bind]. apply IH. intros y s1 Hy. apply Hb. by right.
Qed.

(** ** [valuesEqual] on plain values is equality *)

Lemma safeEqual_leaf a b :
  plain a = true -> plain b = true ->
  isMap a && isMap b = false -> isSlice a && isSlice b = false ->
  (safeEqual a b = true <-> a = b).
Proof.
  intros Ha Hb Hm Hs.
  destruct (plain_inv a Ha) as [[x ->]|[[x ->]|[[x ->]|[[x ->]|[x ->]]]]];
  destruct (plain_inv b Hb) as [[y ->]|[[y ->]|[[y ->]|[[y ->]|[y ->]]]]];
  try discriminate;
  unfold safeEqual; cbn;
  try (split; [discriminate|intros [=]]);
  (eval_decides; cbn; rewrite bool_decide_eq_true;
   split; [by intros ->|by intros [= ->]]).
Qed.

Section EqualFacts.

Variable ve : value -> value -> result bool.
Variable df : value -> value -> result (value * error).

(** The loop of [slicesEqual], given that [ve] decides equality of the
    paired elements. *)
Lemma slicesEqual_spec l l' :
  (forall x y, (x, y) ∈ zip l l' ->
     exists r : bool, ve x y = Ok r /\ (r = true <-> x = y)) ->
  exists r : bool, Open.slicesEqual ve l l' = Ok r /\ (r = true <-> l = l').
Proof.
  unfold Open.slicesEqual. intros Hve.
  destruct (decide (length l = length l')) as [Hlen|Hlen].
  2: { rewrite bool_decide_eq_false_2 by done. exists false.
       split; [done|]. split; [done|]. intros ->. done. }
  rewrite bool_decide_eq_true_2 by done. cbn [negb].
  revert l' Hlen Hve. induction l as [|x l IH]; intros [|y l'] Hlen Hve;
    try discriminate.
  - exists true. done.
  - cbn [zip zip_with] in *. rewrite range_cons. cbn [fst snd].
    destruct (Hve x y) as (r & Hr & Hxy); [by left|]. rewrite Hr.
    cbn [mbind result_bind fst snd]. destruct r.
    + cbn [mbind result_bind].
      destruct (IH l') as (r' & Hr' & Hll'); [by injection Hlen|..].
      { intros x' y' Hin. apply Hve. by right. }
      exists r'. split; [exact Hr'|]. rewrite Hll'.
      assert (x = y) as -> by by apply Hxy.
      split; [by intros ->|by intros [= ->]].
    + cbn [mbind result_bind]. exists false. split; [done|].
      split; [done|]. intros [= -> ->]. by apply Hxy.
Qed.

Lemma mapsEqual_loop (m' : gmap string value) (l : list (string * value)) :
  (forall k v vb, (k, v) ∈ l -> m' !! k = Some vb ->
     exists r : bool, ve v vb = Ok r /\ (r = true <-> v = vb)) ->
  exists f, range (fun (kv : string * value) (_ : unit) =>
          match m' !! kv.1 with
          | None => Ok (Return false)
          | Some valB =>
              ve kv.2 valB ≫= fun eq : bool =>
              if eq then Ok (Next ()) else Ok (Return false)
          end) l () = Ok f /\
    (f = Next () \/ f = Return false) /\
    (f = Next () <-> forall k v, (k, v) ∈ l -> m' !! k = Some v).
Proof.
  induction l as [|[k v] l IH]; intros Hve.
  - exists (Next ()). split_and!; [done|by left|].
    split; [|done]. intros _ ?? H. by apply elem_of_nil in H.
  - rewrite range_cons. cbn [fst snd].
    destruct (m' !! k) as [vb|] eqn:Hk.
    + destruct (Hve k v vb) as (r & Hr & Hv); [by left|done|]. rewrite Hr.
      cbn [mbind result_bind]. destruct r.
      * cbn [mbind result_bind].
        destruct IH as (f & Hf & Hcase & Hiff).
        { intros k' v' vb' Hin. apply Hve. by right. }
        exists f. split; [exact Hf|]. split; [exact Hcase|].
        rewrite Hiff. assert (v = vb) as <- by by apply Hv.
        split.
        -- intros H k' v' [[= -> ->]|Hin]%elem_of_cons; [done|by apply H].
        -- intros H k' v' Hin. apply H. by right.
      * exists (Return false). split_and!; [done|by right|].
        split; [discriminate|]. intros H.
        specialize (H k v (list_elem_of_here _ _)). rewrite Hk in H.
        injection H as <-. exfalso. assert (false = true) by by apply Hv. done.
    + exists (Return false). split_and!; [done|by right|].
      split; [discriminate|]. intros H.
      specialize (H k v (list_elem_of_here _ _)). congruence.
Qed.

Lemma mapsEqual_spec (m m' : gmap string value) :
  (forall k v vb, m !! k = Some v -> m' !! k = Some vb ->
     exists r : bool, ve v vb = Ok r /\ (r = true <-> v = vb)) ->
  exists r : bool, Open.mapsEqual ve (Some m) (Some m') = Ok r /\ (r = true <-> m = m').
Proof.
  unfold Open.mapsEqual, len. cbn [entries default from_option id]. intros Hve.
  destruct (decide (size m = size m')) as [Hlen|Hlen].
  2: { rewrite bool_decide_eq_false_2 by done. exists false.
       split; [done|]. split; [done|]. intros ->. done. }
  rewrite bool_decide_eq_true_2 by done. cbn [negb].
  destruct (mapsEqual_loop m' (map_to_list m)) as (f & Hf & Hcase & Hiff).
  { intros k v vb Hin. apply Hve. by apply elem_of_map_to_list. }
  rewrite Hf. cbn [mbind result_bind].
  assert (Hsub : (forall k v, (k, v) ∈ map_to_list m -> m' !! k = Some v) <-> m = m').
  { split.
    - intros H. apply map_subseteq_size_eq; [|lia].
      apply map_subseteq_spec. intros k v Hk. apply H. by apply elem_of_map_to_list.
    - intros <- k v. apply elem_of_map_to_list. }
  destruct Hcase as [-> | ->].
  - exists true. split; [done|]. rewrite <- Hsub, <- Hiff. done.
  - exists false. split; [done|]. rewrite <- Hsub, <- Hiff. split; discriminate.
Qed.

End EqualFacts.

Lemma valuesEqual_plain n a b :
  plain a = true -> plain b = true -> (depth a < n)%nat ->
  exists r : bool, valuesEqual n a b = Ok r /\ (r = true <-> a = b).
Proof.
  revert a b. induction n as [|n IH]; intros a b Ha Hb Hd; [lia|].
  unfold valuesEqual. cbn [engine fst]. unfold Open.valuesEqual.
  fold (valuesEqual n). fold (Diff n).
  assert (Hleaf : isMap a && isMap b = false -> isSlice a && isSlice b = false ->
            exists r : bool,
              match a, b with
              | VNil, VNil => Ok true
              | VNil, _ | _, VNil => Ok false
              | _, _ =>
                  if isMap a && isMap b then Open.mapsEqual (valuesEqual n) (asMap a) (asMap b)
                  else if isSlice a && isSlice b
                  then Open.slicesEqual (valuesEqual n) (asSlice a) (asSlice b)
                  else if isStruct a && isStruct b
                  then Open.DiffStructs (valuesEqual n) (Diff n) a b ≫= fun '(diff, err) =>
                         match err with
                         | ErrNil => Ok (bool_decide (len diff = 0%nat))
                         | Err _ => Ok false
                         end
                  else Ok (safeEqual a b)
              end = Ok r /\ (r = true <-> a = b)).
  { intros Hm Hs. exists (safeEqual a b). rewrite Hm, Hs.
    split; [|by apply safeEqual_leaf].
    destruct (plain_inv a Ha) as [[x ->]|[[x ->]|[[x ->]|[[x ->]|[x ->]]]]];
    destruct (plain_inv b Hb) as [[y ->]|[[y ->]|[[y ->]|[[y ->]|[y ->]]]]];
    done. }
  destruct (plain_inv a Ha) as [[x ->]|[[x ->]|[[x ->]|[[x ->]|[x ->]]]]];
    try (apply Hleaf; reflexivity).
  - (* slices *)
    destruct (plain_inv b Hb) as [[y ->]|[[y ->]|[[y ->]|[[y ->]|[y ->]]]]];
      try (apply Hleaf; reflexivity).
    cbn [isMap isSlice andb asSlice].
    destruct (slicesEqual_spec (valuesEqual n) x y) as (r & Hr & Hiff).
    { intros x' y' Hin. apply elem_of_zip_l in Hin as Hx. apply elem_of_zip_r in Hin as Hy.
      apply IH; [exact (plain_elem x x' Ha Hx)|exact (plain_elem y y' Hb Hy)|].
      apply (depth_elem TAny) in Hx. lia. }
    exists r. split; [exact Hr|]. rewrite Hiff. split; [by intros ->|by intros [= ->]].
  - (* maps *)
    destruct (plain_inv b Hb) as [[y ->]|[[y ->]|[[y ->]|[[y ->]|[y ->]]]]];
      try (apply Hleaf; reflexivity).
    cbn [isMap isSlice andb asMap].
    destruct (mapsEqual_spec (valuesEqual n) x y) as (r & Hr & Hiff).
    { intros k v vb Hx Hy.
      apply IH; [exact (plain_entry x k v Ha Hx)|exact (plain_entry y k vb Hb Hy)|].
      apply (depth_entry TAny) in Hx. lia. }
    exists r. split; [exact Hr|]. rewrite Hiff. split; [by intros ->|by intros [= ->]].
Qed.

(** ** [ApplyToMap], key by key *)

Lemma applyPatch_lookup f (p target : gmap string value) k :
  applyPatch f (VMap TAny (Some p)) target !! k =
    match p !! k with
    | None => target !! k
    | Some v => applyEntry f (target !! k) v
    end.
Proof.
  cbn [applyPatch]. revert k.
  apply (map_fold_weak_ind (fun (acc : gmap string value) (p' : gmap string value) =>
    forall k, acc !! k = match p' !! k with
                         | None => target !! k
                         | Some v => applyEntry f (target !! k) v
                         end)).
  - intros k. by rewrite lookup_empty.
  - intros i x m r Hi IH k. destruct (decide (k = i)) as [->|Hne].
    + rewrite lookup_insert_eq. pose proof (IH i) as Hri. rewrite Hi in Hri.
      unfold applyEntry. rewrite Hri.
      destruct x; try (by rewrite lookup_delete_eq);
        (destruct (target !! i) as [e|];
         repeat match goal with
         | |- context [if ?c then _ else _] => destruct c
         | |- context [match f ?a ?b with Some _ => _ | None => _ end] => destruct (f a b)
         end; by rewrite lookup_insert_eq).
    + rewrite lookup_insert_ne by done. rewrite <- IH.
      destruct x; try (by rewrite lookup_delete_ne);
        (destruct (r !! i) as [e|];
         repeat match goal with
         | |- context [if ?c then _ else _] => destruct c
         | |- context [match f ?a ?b with Some _ => _ | None => _ end] => destruct (f a b)
         end; by rewrite lookup_insert_ne).
Qed.

Lemma ApplyToMap_lookup f (target patch : gmap string value) k :
  ApplyToMap f target patch !! k =
    match patch !! k with
    | None => target !! k
    | Some v => applyEntry f (target !! k) v
    end.
Proof. apply applyPatch_lookup. Qed.

Lemma ApplyToMap_empty f (target : gmap string value) : ApplyToMap f target ∅ = target.
Proof. apply map_eq. intros k. by rewrite ApplyToMap_lookup, lookup_empty. Qed.

(** ** Round trip on plain maps *)

Lemma Diff_maps n (ma mb : gomap) :
  Diff (S n) (VMap TAny ma) (VMap TAny mb) =
    DiffMaps n ma mb ≫= fun '(result, err) => Ok (VMap TAny result, err).
Proof. reflexivity. Qed.

Lemma plain_not_struct v : plain v = true -> isStruct v = false.
Proof. destruct v; try done. Qed.

Lemma plain_not_nil v : plain v = true -> v <> VNil.
Proof. by destruct v. Qed.

Lemma plain_isMap v :
  plain v = true -> isMap v = true -> exists m, v = VMap TAny (Some m).
Proof.
  intros Hp Hm. destruct (plain_inv v Hp) as [[x ->]|[[x ->]|[[x ->]|[[x ->]|[x ->]]]]];
    try discriminate. by eexists.
Qed.

Lemma applyEntry_replace f existing v :
  v <> VNil ->
  match existing with Some e => isMap e && isMap v = false /\ isStruct e = false | None => True end ->
  applyEntry f existing v = Some v.
Proof.
  intros Hv He. unfold applyEntry. destruct existing as [e|].
  - destruct He as [-> ->]. cbn [andb]. by destruct v.
  - by destruct v.
Qed.

Lemma DiffMaps_plain n (old new : gmap string value) :
  plainMap old = true -> plainMap new = true ->
  (depth (VMap TAny (Some old)) <= n)%nat ->
  exists patch, DiffMaps n (Some old) (Some new) = Ok (Some patch, ErrNil) /\
                forall f, ApplyToMap f old patch = new.
Proof.
  revert old new. induction n as [|n IH]; intros old new Ho Hn Hd.
  { cbn [depth] in Hd. lia. }
  unfold plainMap in *.
  (* the recursive [Diff] on two plain maps under a key *)
  assert (Hdiff : forall k a b, old !! k = Some a -> new !! k = Some b ->
            isMap a = true -> isMap b = true ->
            exists ma mb d, a = VMap TAny (Some ma) /\ b = VMap TAny (Some mb) /\
              Diff (S n) a b = Ok (VMap TAny (Some d), ErrNil) /\
              forall f, ApplyToMap f ma d = mb).
  { intros k a b Hka Hkb Hma Hmb.
    pose proof (plain_entry old k a Ho Hka) as Hpa.
    pose proof (plain_entry new k b Hn Hkb) as Hpb.
    destruct (plain_isMap a Hpa Hma) as [ma ->].
    destruct (plain_isMap b Hpb Hmb) as [mb ->].
    pose proof (depth_entry TAny old k _ Hka) as Hlt.
    destruct n as [|n'].
    { cbn [depth] in *. lia. }
    destruct (IH ma mb Hpa Hpb) as (d & Hd' & Happ); [lia|].
    exists ma, mb, d. split_and!; [done|done| |done].
    rewrite Diff_maps, Hd'. reflexivity. }
  (* every iteration moves on *)
  assert (Htot : exists st, range (Open.diffEntry (valuesEqual (S n)) (Diff (S n)) old)
                          (map_to_list new) (∅, ∅) = Ok (Next st)).
  { apply range_total. intros [k b] [res seen] Hin. apply elem_of_map_to_list in Hin.
    unfold Open.diffEntry. destruct (old !! k) as [a|] eqn:Hka; [|by eexists].
    pose proof (plain_entry old k a Ho Hka) as Hpa.
    pose proof (plain_entry new k b Hn Hin) as Hpb.
    destruct (valuesEqual_plain (S n) a b Hpa Hpb) as (r & -> & _).
    { pose proof (depth_entry TAny old k a Hka). lia. }
    cbn [mbind result_bind]. destruct r; [by eexists|].
    rewrite (plain_not_struct a Hpa), (plain_not_struct b Hpb), !orb_false_r.
    destruct (isMap a && isMap b) eqn:Hc; [|by eexists].
    apply andb_true_iff in Hc as [Hma Hmb].
    destruct (Hdiff k a b Hka Hin Hma Hmb) as (ma & mb & d & -> & -> & -> & _).
    cbn [mbind result_bind]. destruct (nonEmptyMap _); by eexists. }
  destruct Htot as [[res seen] Hrange].
  assert (Hrun : DiffMaps (S n) (Some old) (Some new) =
            Ok (Some (foldl (Open.markDeleted seen) res (map_to_list old)), ErrNil)).
  { unfold DiffMaps, Open.DiffMaps. fold (valuesEqual (S n)). by rewrite Hrange. }
  eexists. split; [exact Hrun|].
  apply DiffMaps_Some_Some in Hrun as [(_ & patch & [= <-] & Hspec)|(_ & _ & _ & _ & _ & [=] & _)].
  intros f. apply map_eq. intros k. rewrite ApplyToMap_lookup.
  specialize (Hspec k). destruct (new !! k) as [b|] eqn:Hkb.
  - pose proof (plain_entry new k b Hn Hkb) as Hpb.
    unfold entrySpec in Hspec. destruct (old !! k) as [a|] eqn:Hka.
    + pose proof (plain_entry old k a Ho Hka) as Hpa.
      destruct Hspec as (eq & Heq & Hr).
      destruct (valuesEqual_plain (S n) a b Hpa Hpb) as (r & Hr' & Hiff).
      { pose proof (depth_entry TAny old k a Hka). lia. }
      rewrite Heq in Hr'. injection Hr' as <-. destruct eq.
      * rewrite Hr. f_equal. by apply Hiff.
      * rewrite (plain_not_struct a Hpa), (plain_not_struct b Hpb), !orb_false_r in Hr.
        destruct (isMap a && isMap b) eqn:Hc.
        -- apply andb_true_iff in Hc as [Hma Hmb].
           destruct (Hdiff k a b Hka Hkb Hma Hmb) as (ma & mb & d & -> & -> & Hd' & Happ).
           destruct Hr as (diff & Hdf & Hr). rewrite Hd' in Hdf. injection Hdf as <-.
           rewrite Hr. unfold nonEmptyMap, len. cbn [isMap asMap entries default from_option id andb].
           case_bool_decide as Hsz.
           ++ cbn [applyEntry isMap andb asMap entries default from_option id].
              do 3 f_equal. apply Happ.
           ++ f_equal. f_equal. f_equal. rewrite <- (Happ f).
              assert (d = ∅) as -> by (apply map_size_empty_inv; lia).
              symmetry. apply ApplyToMap_empty.
        -- rewrite Hr. apply applyEntry_replace; [by apply plain_not_nil|].
           split; [done|by apply plain_not_struct].
    + rewrite Hspec. apply applyEntry_replace; [by apply plain_not_nil|done].
  - rewrite Hspec. destruct (old !! k); done.
Qed.

(** C1, as the code has it.  For two string-keyed maps, nil or not, whose
    values are plain (non-nil leaves, [[]any] sequences and nested
    [map[string]any] maps of such; no nil entry, no record), [DiffMaps]
    returns a patch as soon as the exploration depth covers the nesting of
    [old], and applying that patch to [old] gives exactly [new]. *)
Theorem roundtrip_plain (applyToRecord : value -> gmap string value -> option value)
    (old new : gomap) (n : nat) :
  plainMap (entries old) = true -> plainMap (entries new) = true ->
  (depth (VMap TAny (Some (entries old))) <= n)%nat ->
  exists patch, DiffMaps n old new = Ok (patch, ErrNil) /\
                ApplyToMap applyToRecord (entries old) (entries patch) = entries new.
Proof.
  intros Ho Hn Hd. destruct old as [o|], new as [m|]; cbn [entries default from_option id] in *.
  - destruct (DiffMaps_plain n o m Ho Hn Hd) as (patch & Hp & Happ).
    exists (Some patch). split; [exact Hp|apply Happ].
  - eexists. split; [reflexivity|]. cbn [entries default from_option id].
    rewrite (foldl_insert_map_to_list (fun _ => VNil)).
    apply map_eq. intros k. rewrite ApplyToMap_lookup, lookup_fmap, lookup_empty.
    by destruct (o !! k).
  - eexists. split; [reflexivity|]. cbn [entries default from_option id].
    rewrite (foldl_insert_map_to_list id), map_fmap_id.
    apply map_eq. intros k. rewrite ApplyToMap_lookup, lookup_empty.
    destruct (m !! k) as [v|] eqn:Hk; [|done].
    apply applyEntry_replace; [|done].
    apply plain_not_nil. exact (plain_entry m k v Hn Hk).
  - eexists. split; [reflexivity|]. apply ApplyToMap_empty.
Qed.

Lemma roundtrip_plain_witness :
  exists patch, DiffMaps 1 (Some oldABC) (Some newABD) = Ok (patch, ErrNil) /\
    ApplyToMap noRecords (entries (Some oldABC)) (entries patch) = entries (Some newABD).
Proof.
  apply (roundtrip_plain noRecords (Some oldABC) (Some newABD) 1).
  - vm_compute. reflexivity.
  - vm_compute. reflexivity.
  - vm_compute. lia.
Defined.

(** The README's example, computed: the patch is [{b: 20, c: nil, d: 4}]. *)
Example DiffMaps_README :
  DiffMaps 1 (Some oldABC) (Some newABD) =
    Ok (Some {[ "b" := VInt 20; "c" := VNil; "d" := VInt 4 ]}, ErrNil).
Proof. vm_compute. reflexivity. Qed.

(** C1 as stated fails: a nil value in [new] is emitted as a patch entry,
    which applying reads as a deletion, so the key is missing afterwards. *)
Lemma roundtrip_counterexample :
  DiffMaps 1 (Some ∅) (Some {[ "a" := VNil ]}) = Ok (Some {[ "a" := VNil ]}, ErrNil) /\
  ApplyToMap noRecords ∅ {[ "a" := VNil ]} = ∅ /\
  ApplyToMap noRecords ∅ {[ "a" := VNil ]} <> {[ "a" := VNil ]}.
Proof.
  split_and!.
  - vm_compute. reflexivity.
  - vm_compute. reflexivity.
  - intros H. apply (f_equal (fun m : gmap string value => m !! "a")) in H.
    vm_compute in H. discriminate.
Qed.

(** ** The struct diff on flat records *)

Lemma goEq_basic a b :
  basicValue a = true -> basicValue b = true -> goEq a b = Returns (safeEqual a b).
Proof.
  unfold safeEqual.
  destruct a; try discriminate; destruct b; try discriminate; intros _ _;
    cbn; eval_decides; reflexivity.
Qed.

Lemma directValuesEqual_basic i a b :
  basicValue a = true -> basicValue b = true ->
  directValuesEqual (RV i false a) (RV i false b) = Returns (safeEqual a b).
Proof.
  intros Ha Hb. rewrite <- (goEq_basic a b Ha Hb).
  unfold directValuesEqual. cbn [isIface isRO under].
  destruct i.
  - destruct a; try discriminate; destruct b; try discriminate; reflexivity.
  - destruct a; try discriminate; destruct b; try discriminate;
      cbn; eval_decides; reflexivity.
Qed.

Lemma valuesEqual_basic n a b :
  basicValue a = true -> basicValue b = true ->
  valuesEqual (S n) a b = Ok (safeEqual a b).
Proof.
  destruct a; try discriminate; destruct b; try discriminate; reflexivity.
Qed.

Lemma toMapValue_basic i v : basicValue v = true -> toMapValue_at i v = v.
Proof. destruct i, v; try discriminate; reflexivity. Qed.

Lemma basic_not_nil v : basicValue v = true -> v <> VNil.
Proof. by destruct v. Qed.

Lemma toMapField_basic m f :
  included f = true -> basicValue f.2 = true ->
  toMapField toMapValue_at m f = <[externalName f := f.2]> m.
Proof.
  unfold included, toMapField, externalName, isNilPointer, Field.
  destruct f as [d v]. cbn [fst snd isIface under].
  intros [He Ht]%andb_true_iff Hb. apply negb_true_iff in Ht.
  rewrite He, Ht. cbn [negb]. rewrite toMapValue_basic by done.
  destruct v; try discriminate; by destruct (isAny _).
Qed.

Lemma toMapField_excluded conv m f : included f = false -> toMapField conv m f = m.
Proof.
  unfold included, toMapField. destruct (IsExported f.1); [|done].
  cbn [andb negb]. intros ->%negb_false_iff. done.
Qed.

(** [getFieldByName] finds an included slot with the name asked for. *)
Lemma lookupField_Some ro fs k r :
  lookupField ro fs k = Some r ->
  exists f, f ∈ fs /\ included f = true /\ externalName f = k /\ r = Field ro f.
Proof.
  induction fs as [|f fs IH]; [discriminate|]. cbn [lookupField].
  assert (Hrec : lookupField ro fs k = Some r ->
            exists g, g ∈ f :: fs /\ included g = true /\ externalName g = k /\ r = Field ro g).
  { intros H. destruct (IH H) as (g & Hg & ?). exists g. split; [by right|done]. }
  destruct (IsExported f.1) eqn:He; cbn [negb]; [|exact Hrec].
  destruct (bool_decide (JsonTag f.1 = "-")) eqn:Ht; [exact Hrec|].
  destruct (bool_decide (parseName (JsonTag f.1) (FName f.1) = k)) eqn:Hn; [|exact Hrec].
  intros [= Hr]. apply bool_decide_eq_true in Hn. exists f.
  unfold included. rewrite He, Ht. split_and!; [by left|done|done|done].
Qed.

Lemma lookupField_None ro fs k :
  lookupField ro fs k = None <->
  k ∉ List.map externalName (List.filter included fs).
Proof.
  induction fs as [|f fs IH]; [cbn; split; [intros _; apply not_elem_of_nil|done]|].
  cbn [lookupField List.filter]. unfold included at 1.
  destruct (IsExported f.1); cbn [negb andb]; [|exact IH].
  destruct (bool_decide (JsonTag f.1 = "-")); cbn [negb]; [exact IH|].
  cbn [List.map]. fold (externalName f).
  destruct (bool_decide (externalName f = k)) eqn:Hn.
  - apply bool_decide_eq_true in Hn. split; [discriminate|]. intros H. exfalso. apply H.
    rewrite Hn. by left.
  - apply bool_decide_eq_false in Hn. rewrite IH. split.
    + intros H [Heq|Hin]%elem_of_cons; [|done]. congruence.
    + intros H Hin. apply H. by right.
Qed.

(** Records of one type: the same declarations give the same lookups. *)
Lemma lookupField_same_decls ro (ofs nfs : list (StructField * value)) k :
  ofs.*1 = nfs.*1 ->
  match lookupField ro ofs k, lookupField ro nfs k with
  | Some o, Some n => exists d ov nv, o = Field ro (d, ov) /\ n = Field ro (d, nv)
  | None, None => True
  | _, _ => False
  end.
Proof.
  revert nfs. induction ofs as [|[d ov] ofs IH]; intros [|[d' nv] nfs] Hd;
    try discriminate; [done|].
  cbn [fmap list_fmap fst] in Hd. injection Hd as <- Hd.
  cbn [lookupField fst snd].
  destruct (negb (IsExported d)); [by apply IH|].
  destruct (bool_decide (JsonTag d = "-")); [by apply IH|].
  destruct (bool_decide _); [|by apply IH].
  by exists d, ov, nv.
Qed.

Lemma included_names_same_decls (ofs nfs : list (StructField * value)) :
  ofs.*1 = nfs.*1 ->
  List.map externalName (List.filter included ofs) =
  List.map externalName (List.filter included nfs).
Proof.
  revert nfs. induction ofs as [|[d ov] ofs IH]; intros [|[d' nv] nfs] Hd;
    try discriminate; [done|].
  cbn [fmap list_fmap fst] in Hd. injection Hd as <- Hd.
  cbn [List.filter].
  change (included (d, nv)) with (included (d, ov)).
  destruct (included (d, ov)); cbn [List.map]; [|by apply IH].
  f_equal. by apply IH.
Qed.

Lemma included_cons_names f fs :
  included f = true ->
  List.map externalName (List.filter included (f :: fs)) =
  externalName f :: List.map externalName (List.filter included fs).
Proof. intros H. cbn [List.filter]. by rewrite H. Qed.

Lemma excluded_cons_names f fs :
  included f = false ->
  List.map externalName (List.filter included (f :: fs)) =
  List.map externalName (List.filter included fs).
Proof. intros H. cbn [List.filter]. by rewrite H. Qed.

Lemma lookupField_cons_included ro f fs k :
  included f = true ->
  lookupField ro (f :: fs) k =
    if bool_decide (externalName f = k) then Some (Field ro f) else lookupField ro fs k.
Proof.
  unfold included. intros [He Ht]%andb_true_iff. apply negb_true_iff in Ht.
  cbn [lookupField]. by rewrite He, Ht.
Qed.

Lemma lookupField_cons_excluded ro f fs k :
  included f = false -> lookupField ro (f :: fs) k = lookupField ro fs k.
Proof.
  unfold included. cbn [lookupField]. destruct (IsExported f.1); [|done].
  cbn [andb negb]. by intros ->%negb_false_iff.
Qed.

Lemma flatFields_cons f fs :
  flatFields (f :: fs) ->
  (included f = true -> basicValue f.2 = true) /\ flatFields fs /\
  (included f = true -> externalName f ∉ List.map externalName (List.filter included fs)).
Proof.
  intros [Hb Hnd]. apply Forall_cons in Hb as [Hf Hb].
  destruct (included f) eqn:Hi.
  - rewrite included_cons_names in Hnd by done. apply NoDup_cons in Hnd as [Hn Hnd].
    split_and!; [done|by split|done].
  - rewrite excluded_cons_names in Hnd by done. split_and!; [done|by split|done].
Qed.

(** The normalized map of a flat record binds each external name to the
    value of its slot. *)
Lemma toMap_flat_lookup fs m k :
  flatFields fs ->
  foldl (toMapField toMapValue_at) m fs !! k =
    match lookupField false fs k with
    | Some r => Some (under r)
    | None => m !! k
    end.
Proof.
  revert m. induction fs as [|f fs IH]; intros m Hflat; [done|].
  apply flatFields_cons in Hflat as (Hb & Hflat & Hfresh).
  cbn [foldl]. rewrite IH by done. destruct (included f) eqn:Hi.
  - rewrite lookupField_cons_included, toMapField_basic by auto.
    case_bool_decide as Hk.
    + subst k. specialize (Hfresh eq_refl).
      apply (lookupField_None false) in Hfresh. rewrite Hfresh.
      cbn [Field under]. apply lookup_insert_eq.
    + destruct (lookupField false fs k); [done|]. by apply lookup_insert_ne.
  - by rewrite lookupField_cons_excluded, toMapField_excluded.
Qed.

Lemma flatStep_lookup_same ofs res f :
  included f = true ->
  flatStep ofs res f !! externalName f =
    match lookupField false ofs (externalName f) with
    | Some oldField =>
        if safeEqual (under oldField) f.2 then res !! externalName f else Some f.2
    | None => Some f.2
    end.
Proof.
  intros Hi. unfold flatStep. rewrite Hi.
  destruct (lookupField false ofs (externalName f)) as [oldField|];
    [destruct (safeEqual _ _); [done|]|]; apply lookup_insert_eq.
Qed.

Lemma flatStep_lookup_other ofs res f k :
  externalName f <> k -> flatStep ofs res f !! k = res !! k.
Proof.
  intros Hne. unfold flatStep. destruct (included f); [|done].
  destruct (lookupField false ofs (externalName f)) as [oldField|];
    [destruct (safeEqual _ _); [done|]|]; by apply lookup_insert_ne.
Qed.

(** The struct-side patch of flat records, key by key. *)
Lemma flatStep_lookup ofs nfs res k :
  flatFields nfs ->
  foldl (flatStep ofs) res nfs !! k =
    match lookupField false nfs k with
    | Some nf =>
        match lookupField false ofs k with
        | Some oldField =>
            if safeEqual (under oldField) (under nf) then res !! k
            else Some (under nf)
        | None => Some (under nf)
        end
    | None => res !! k
    end.
Proof.
  revert res. induction nfs as [|f fs IH]; intros res Hflat; [done|].
  apply flatFields_cons in Hflat as (Hb & Hflat & Hfresh).
  cbn [foldl]. rewrite IH by done. destruct (included f) eqn:Hi.
  - rewrite lookupField_cons_included by done. case_bool_decide as Hk.
    + subst k. specialize (Hfresh eq_refl).
      apply (lookupField_None false) in Hfresh. rewrite Hfresh.
      cbn [Field under]. by apply flatStep_lookup_same.
    + rewrite (flatStep_lookup_other ofs res f k) by done. reflexivity.
  - rewrite lookupField_cons_excluded by done. unfold flatStep. by rewrite Hi.
Qed.

Section FlatFacts.

Variable ve : value -> value -> result bool.
Variable df : value -> value -> result (value * error).

(** One iteration of the field loop on a flat slot. *)
Lemma diffField_flat oname nname ofs nfs f res seen :
  included f = true -> basicValue f.2 = true ->
  match lookupField false ofs (externalName f) with
  | Some r => exists ov, r = Field false (f.1, ov) /\ basicValue ov = true
  | None => True
  end ->
  Open.diffField df (ValueOf (VStruct oname ofs)) (ValueOf (VStruct nname nfs)) f (res, seen) =
    Ok (Next (flatStep ofs res f, {[externalName f]} ∪ seen)).
Proof.
  intros Hi Hb Hold. unfold Open.diffField, flatStep. rewrite Hi.
  unfold included in Hi. apply andb_true_iff in Hi as [He Ht]. apply negb_true_iff in Ht.
  rewrite He, Ht. cbn [negb]. fold (externalName f).
  unfold getFieldByName. cbn [ValueOf isRO under fieldsOf].
  assert (Hnp : isNilPointer (Field false f) = false).
  { unfold isNilPointer, Field. cbn [isIface under].
    destruct (isAny _); [done|]. by destruct f.2. }
  rewrite Hnp.
  assert (Htm : toMapValue (Field false f) = f.2).
  { unfold toMapValue, Field. cbn [isIface under]. by apply toMapValue_basic. }
  rewrite Htm.
  destruct (lookupField false ofs (externalName f)) as [r|]; [|done].
  destruct Hold as (ov & -> & Hov).
  assert (Hnp' : isNilPointer (Field false (f.1, ov)) = false).
  { unfold isNilPointer, Field. cbn [isIface under fst snd].
    destruct (isAny _); [done|]. by destruct ov. }
  rewrite Hnp'.
  assert (Hdve : directValuesEqual (Field false (f.1, ov)) (Field false f) =
                 Returns (safeEqual ov f.2)).
  { unfold Field. cbn [fst snd orb]. rewrite He. cbn [negb].
    by apply directValuesEqual_basic. }
  rewrite Hdve. cbn [lift mbind result_bind Field under fst snd].
  destruct (safeEqual ov f.2); [done|].
  assert (Hint : forall v, Interface (Field false (f.1, v)) = Returns v).
  { intros v. unfold Interface, Field. cbn [isRO fst snd orb]. by rewrite He. }
  assert (Htime : forall v, basicValue v = true ->
            bool_decide (TypeOf (Field false (f.1, v)) = Some TTime) = false).
  { intros v Hv. apply bool_decide_eq_false. unfold TypeOf, Field. cbn [isIface under fst snd].
    destruct (isAny _); [done|]. by destruct v. }
  assert (Hleaf : forall v, basicValue v = true -> isStruct v || isMap v = false)
    by (by intros []).
  replace (Field false f) with (Field false (f.1, f.2)) by (by destruct f).
  rewrite !Hint. cbn [lift mbind result_bind].
  rewrite (Htime ov Hov), (Hleaf ov Hov). cbn [andb]. reflexivity.
Qed.

Lemma diffField_excluded oldVal newVal f res seen :
  included f = false ->
  Open.diffField df oldVal newVal f (res, seen) = Ok (Next (res, seen)).
Proof.
  unfold included, Open.diffField. destruct (IsExported f.1); [|done].
  cbn [andb negb]. by intros ->%negb_false_iff.
Qed.

Lemma range_diffField_flat oname nname ofs nfs l res seen :
  (forall f, f ∈ l -> included f = true ->
     basicValue f.2 = true /\
     match lookupField false ofs (externalName f) with
     | Some r => exists ov, r = Field false (f.1, ov) /\ basicValue ov = true
     | None => True
     end) ->
  range (Open.diffField df (ValueOf (VStruct oname ofs)) (ValueOf (VStruct nname nfs))) l
        (res, seen) =
    Ok (Next (foldl (flatStep ofs) res l,
              list_to_set (List.map externalName (List.filter included l)) ∪ seen)).
Proof.
  revert res seen. induction l as [|f l IH]; intros res seen Hl.
  - cbn. do 3 f_equal. set_solver.
  - rewrite range_cons. destruct (included f) eqn:Hi.
    + destruct (Hl f) as [Hb Hold]; [by left|done|].
      rewrite diffField_flat by done. cbn [mbind result_bind foldl].
      rewrite IH by (intros g Hg; apply Hl; by right).
      rewrite included_cons_names by done. do 3 f_equal. set_solver.
    + rewrite diffField_excluded by done. cbn [mbind result_bind foldl].
      rewrite IH by (intros g Hg; apply Hl; by right).
      rewrite excluded_cons_names by done.
      replace (flatStep ofs res f) with res by (unfold flatStep; by rewrite Hi).
      reflexivity.
Qed.

Lemma foldl_deletedField_seen oldVal (seen : gset string) l res :
  (forall f, f ∈ l -> included f = true -> externalName f ∈ seen) ->
  foldl (Open.deletedField oldVal seen) res l = res.
Proof.
  revert res. induction l as [|f l IH]; intros res Hl; [done|].
  cbn [foldl]. rewrite IH by (intros g Hg; apply Hl; by right).
  unfold Open.deletedField. destruct (included f) eqn:Hi.
  - unfold included in Hi. apply andb_true_iff in Hi as [He Ht]. apply negb_true_iff in Ht.
    rewrite He, Ht. cbn [negb]. rewrite bool_decide_eq_true_2; [done|].
    apply Hl; [by left|]. unfold included. by rewrite He, Ht.
  - unfold included in Hi. destruct (IsExported f.1); [|done].
    cbn [andb negb] in *. apply negb_false_iff in Hi. by rewrite Hi.
Qed.

End FlatFacts.

Lemma included_name_elem f fs :
  f ∈ fs -> included f = true ->
  externalName f ∈ List.map externalName (List.filter included fs).
Proof.
  intros Hf Hi. apply list_elem_of_In, in_map, filter_In.
  split; [by apply list_elem_of_In|done].
Qed.

(** In records of one type, the slot of [old] found under the external name
    of an included slot of [new] has the same declaration. *)
Lemma lookupField_old ro (ofs nfs : list (StructField * value)) f :
  ofs.*1 = nfs.*1 -> flatFields nfs -> f ∈ nfs -> included f = true ->
  exists ov, lookupField ro ofs (externalName f) = Some (Field ro (f.1, ov)) /\
             (f.1, ov) ∈ ofs.
Proof.
  revert nfs. induction ofs as [|[d ov] ofs IH]; intros [|[d' nv] nfs] Hd Hflat Hf Hi;
    try discriminate; [by apply elem_of_nil in Hf|].
  cbn [fmap list_fmap fst] in Hd. injection Hd as <- Hd.
  apply flatFields_cons in Hflat as (_ & Hflat & Hfresh).
  apply elem_of_cons in Hf as [->|Hf].
  - exists ov. split; [|by left].
    rewrite lookupField_cons_included by exact Hi.
    by rewrite bool_decide_eq_true_2.
  - destruct (IH nfs Hd Hflat Hf Hi) as (ov' & Hl & Hin).
    exists ov'. split; [|by right].
    destruct (included (d, ov)) eqn:Hid.
    + rewrite lookupField_cons_included by done.
      rewrite bool_decide_eq_false_2; [done|]. intros Heq.
      apply (Hfresh Hid). change (externalName (d, nv)) with (externalName (d, ov)).
      rewrite Heq. by apply included_name_elem.
    + by rewrite lookupField_cons_excluded.
Qed.

Lemma flat_lookup_basic ro fs k r :
  flatFields fs -> lookupField ro fs k = Some r -> basicValue (under r) = true.
Proof.
  intros [Hb _] Hl. apply lookupField_Some in Hl as (f & Hf & Hi & _ & ->).
  rewrite Forall_forall in Hb. cbn [Field under]. by apply Hb.
Qed.

Section FlatDiff.

Variable n : nat.
Variable name : string.
Variables ofs nfs : list (StructField * value).
Hypothesis same_decls : ofs.*1 = nfs.*1.
Hypothesis flat_old : flatFields ofs.
Hypothesis flat_new : flatFields nfs.

Lemma DiffStructs_flat_run :
  DiffStructs (S n) (VStruct name ofs) (VStruct name nfs) =
    Ok (Some (foldl (flatStep ofs) ∅ nfs), ErrNil).
Proof.
  unfold DiffStructs, Open.DiffStructs, Open.diffStructValues.
  cbn [ValueOf IsValid isIface under orb negb isNilPointer andb Kind TypeOf typeOf].
  eval_decides. cbn [negb orb andb].
  rewrite (bool_decide_eq_true_2 (Some (TStruct name) = Some (TStruct name))) by done.
  cbn [negb]. unfold Open.diffSameTypeStructs.
  cbn [fieldsOf ValueOf under].
  change (RV false false (VStruct name ofs)) with (ValueOf (VStruct name ofs)).
  change (RV false false (VStruct name nfs)) with (ValueOf (VStruct name nfs)).
  rewrite range_diffField_flat.
  - cbn [mbind result_bind]. rewrite foldl_deletedField_seen; [done|].
    intros f Hf Hi. apply elem_of_union_l, elem_of_list_to_set.
    rewrite <- (included_names_same_decls ofs nfs same_decls).
    by apply included_name_elem.
  - intros f Hf Hi. destruct flat_new as [Hb _]. rewrite Forall_forall in Hb.
    split; [by apply Hb|].
    destruct (lookupField_old false ofs nfs f same_decls flat_new Hf Hi) as (ov & Hl & Hin).
    rewrite Hl. exists ov. split; [done|].
    destruct flat_old as [Hbo _]. rewrite Forall_forall in Hbo.
    apply (Hbo (f.1, ov) Hin). exact Hi.
Qed.

Lemma DiffMaps_flat_run :
  DiffMaps (S n) (ToMap (VStruct name ofs)) (ToMap (VStruct name nfs)) =
    Ok (Some (foldl (flatStep ofs) ∅ nfs), ErrNil).
Proof.
  rewrite !ToMap_struct.
  set (mo := foldl (toMapField toMapValue_at) ∅ ofs).
  set (mn := foldl (toMapField toMapValue_at) ∅ nfs).
  assert (Hmo : forall k, mo !! k = under <$> lookupField false ofs k).
  { intros k. unfold mo. rewrite toMap_flat_lookup by done.
    destruct (lookupField false ofs k); [done|apply lookup_empty]. }
  assert (Hmn : forall k, mn !! k = under <$> lookupField false nfs k).
  { intros k. unfold mn. rewrite toMap_flat_lookup by done.
    destruct (lookupField false nfs k); [done|apply lookup_empty]. }
  assert (Hbo : forall k a, mo !! k = Some a -> basicValue a = true).
  { intros k a. rewrite Hmo. destruct (lookupField false ofs k) eqn:Hl; [|done].
    intros [= <-]. exact (flat_lookup_basic false ofs k _ flat_old Hl). }
  assert (Hbn : forall k b, mn !! k = Some b -> basicValue b = true).
  { intros k b. rewrite Hmn. destruct (lookupField false nfs k) eqn:Hl; [|done].
    intros [= <-]. exact (flat_lookup_basic false nfs k _ flat_new Hl). }
  assert (Hleaf : forall v, basicValue v = true -> isMap v || isStruct v = false)
    by (by intros []).
  assert (Htot : exists st, range (Open.diffEntry (valuesEqual (S n)) (Diff (S n)) mo)
                          (map_to_list mn) (∅, ∅) = Ok (Next st)).
  { apply range_total. intros [k b] [res seen] Hin. apply elem_of_map_to_list in Hin.
    unfold Open.diffEntry. destruct (mo !! k) as [a|] eqn:Hka; [|by eexists].
    rewrite valuesEqual_basic by eauto. cbn [mbind result_bind].
    destruct (safeEqual a b); [by eexists|].
    rewrite (Hleaf a) by eauto. cbn [andb]. by eexists. }
  destruct Htot as [[res seen] Hrange].
  assert (Hrun : DiffMaps (S n) (Some mo) (Some mn) =
            Ok (Some (foldl (Open.markDeleted seen) res (map_to_list mo)), ErrNil)).
  { unfold DiffMaps, Open.DiffMaps. fold (valuesEqual (S n)). by rewrite Hrange. }
  rewrite Hrun. do 3 f_equal.
  apply DiffMaps_Some_Some in Hrun as [(_ & patch & [= <-] & Hspec)|(_ & _ & _ & _ & _ & [=] & _)].
  apply map_eq. intros k. specialize (Hspec k).
  rewrite flatStep_lookup, lookup_empty by done.
  pose proof (lookupField_same_decls false ofs nfs k same_decls) as Hsame.
  rewrite Hmn in Hspec. unfold entrySpec in Hspec. rewrite Hmo in Hspec.
  destruct (lookupField false nfs k) as [nf|] eqn:Hln;
    destruct (lookupField false ofs k) as [oldField|] eqn:Hlo;
    cbn [fmap option_fmap option_map] in Hspec; try done.
  destruct Hspec as (eq & Heq & Hr).
  change (valuesEqual (S n) (under oldField) (under nf) = Ok eq) in Heq.
  pose proof (flat_lookup_basic false ofs k _ flat_old Hlo) as Hbof.
  pose proof (flat_lookup_basic false nfs k _ flat_new Hln) as Hbnf.
  rewrite valuesEqual_basic in Heq by done.
  injection Heq as <-. destruct (safeEqual _ _); [done|].
  rewrite (Hleaf (under nf)) in Hr by done.
  by rewrite andb_false_r in Hr.
Qed.

End FlatDiff.

(** C9, as the code has it.  For two records of one type that are flat
    (every included slot holds a bool, an int or a string, and no two
    included slots share an external name), the struct diff returns a patch,
    and it is the patch of the normalize-then-diff pipeline. *)
Theorem DiffStructs_flat (n : nat) (name : string) (ofs nfs : list (StructField * value)) :
  ofs.*1 = nfs.*1 -> flatFields ofs -> flatFields nfs ->
  DiffStructs (S n) (VStruct name ofs) (VStruct name nfs) =
    DiffMaps (S n) (ToMap (VStruct name ofs)) (ToMap (VStruct name nfs)) /\
  exists patch,
    DiffStructs (S n) (VStruct name ofs) (VStruct name nfs) = Ok (Some patch, ErrNil).
Proof.
  intros Hd Ho Hn. split.
  - by rewrite DiffStructs_flat_run, DiffMaps_flat_run.
  - eexists. by apply DiffStructs_flat_run.
Qed.

Lemma user_flat name age email : flatFields (user name age email).
Proof.
  split.
  - repeat constructor.
  - cbn. repeat constructor; set_solver.
Qed.

Lemma DiffStructs_flat_witness :
  DiffStructs 1 (VStruct "User" (user "John" 30 "john@old.com"))
                (VStruct "User" (user "John" 31 "john@new.com")) =
    DiffMaps 1 (ToMap (VStruct "User" (user "John" 30 "john@old.com")))
               (ToMap (VStruct "User" (user "John" 31 "john@new.com"))) /\
  exists patch,
    DiffStructs 1 (VStruct "User" (user "John" 30 "john@old.com"))
                  (VStruct "User" (user "John" 31 "john@new.com")) =
      Ok (Some patch, ErrNil).
Proof.
  apply (DiffStructs_flat 0 "User" (user "John" 30 "john@old.com")
                                   (user "John" 31 "john@new.com")).
  - reflexivity.
  - apply user_flat.
  - apply user_flat.
Defined.

(** The README's example of a struct diff, computed. *)
Example DiffStructs_README :
  DiffStructs 0 (VStruct "User" (user "John" 30 "john@old.com"))
                (VStruct "User" (user "John" 31 "john@new.com")) =
    Ok (Some {[ "age" := VInt 31; "email" := VString "john@new.com" ]}, ErrNil).
Proof. vm_compute. reflexivity. Qed.

(** C9 as stated fails.  A [map[string]any] slot that becomes nil: the struct
    diff deletes the keys of the old map one by one, the pipeline deletes
    the slot ("map field to nil" in the package's tests). *)
Lemma DiffStructs_pipeline_counterexample :
  DiffStructs 1 (userWithConfig (Some {[ "theme" := VString "dark" ]}))
                (userWithConfig None) =
    Ok (Some {[ "config" := VMap TAny (Some {[ "theme" := VNil ]}) ]}, ErrNil) /\
  DiffMaps 1 (ToMap (userWithConfig (Some {[ "theme" := VString "dark" ]})))
             (ToMap (userWithConfig None)) =
    Ok (Some {[ "config" := VNil ]}, ErrNil) /\
  DiffStructs 1 (userWithConfig (Some {[ "theme" := VString "dark" ]}))
                (userWithConfig None) <>
  DiffMaps 1 (ToMap (userWithConfig (Some {[ "theme" := VString "dark" ]})))
             (ToMap (userWithConfig None)).
Proof.
  split_and!.
  - vm_compute. reflexivity.
  - vm_compute. reflexivity.
  - vm_compute. discriminate.
Qed.

(** ** More depth does not change an answer *)

Lemma extends_refl {A} (r : result A) : extends r r.
Proof. by right. Qed.

Lemma extends_bind {A B} (m m' : result A) (f f' : A -> result B) :
  extends m m' -> (forall a, extends (f a) (f' a)) ->
  extends (m ≫= f) (m' ≫= f').
Proof.
  intros [->| ->] Hf; [by left|]. destruct m as [a| |]; cbn; [apply Hf|by right|by left].
Qed.

Lemma extends_range {X S R} (body body' : X -> S -> result (flow S R)) l s :
  (forall x s1, extends (body x s1) (body' x s1)) ->
  extends (range body l s) (range body' l s).
Proof.
  intros Hb. revert s. induction l as [|x l IH]; intros s; [apply extends_refl|].
  rewrite !range_cons. apply extends_bind; [apply Hb|].
  intros [s'|r]; [apply IH|apply extends_refl].
Qed.

Section Monotone.

Variables ve ve' : value -> value -> result bool.
Variables df df' : value -> value -> result (value * error).
Hypothesis Hve : forall a b, extends (ve a b) (ve' a b).
Hypothesis Hdf : forall a b, extends (df a b) (df' a b).

Ltac ext_step :=
  match goal with
  | |- extends ?x ?x => apply extends_refl
  | |- extends (ve _ _) (ve' _ _) => apply Hve
  | |- extends (df _ _) (df' _ _) => apply Hdf
  | |- extends (_ ≫= _) (_ ≫= _) => apply extends_bind; [|intros ?]
  | |- extends (range _ _ _) (range _ _ _) => apply extends_range; intros ? ?
  | |- extends (if ?c then _ else _) _ => destruct c
  | |- extends (match ?x with _ => _ end) _ => destruct x
  end.

Lemma mapsEqual_extends a b :
  extends (Open.mapsEqual ve a b) (Open.mapsEqual ve' a b).
Proof. unfold Open.mapsEqual. repeat ext_step. Qed.

Lemma slicesEqual_extends a b :
  extends (Open.slicesEqual ve a b) (Open.slicesEqual ve' a b).
Proof. unfold Open.slicesEqual. repeat ext_step. Qed.

Lemma DiffMaps_extends old new :
  extends (Open.DiffMaps ve df old new) (Open.DiffMaps ve' df' old new).
Proof. unfold Open.DiffMaps, Open.diffEntry. repeat ext_step. Qed.

Lemma diffSameTypeStructs_extends o n :
  extends (Open.diffSameTypeStructs df o n) (Open.diffSameTypeStructs df' o n).
Proof. unfold Open.diffSameTypeStructs, Open.diffField. repeat ext_step. Qed.

Lemma diffStructValues_nil_extends o n :
  extends (Open.diffStructValues_nil ve df o n) (Open.diffStructValues_nil ve' df' o n).
Proof.
  unfold Open.diffStructValues_nil.
  repeat first [apply DiffMaps_extends | ext_step].
Qed.

Lemma diffStructValues_extends o n :
  extends (Open.diffStructValues ve df o n) (Open.diffStructValues ve' df' o n).
Proof.
  unfold Open.diffStructValues.
  repeat first [apply DiffMaps_extends | apply diffStructValues_nil_extends
               | apply diffSameTypeStructs_extends | ext_step].
Qed.

Lemma valuesEqual_extends a b :
  extends (Open.valuesEqual ve df a b) (Open.valuesEqual ve' df' a b).
Proof.
  unfold Open.valuesEqual, Open.DiffStructs.
  repeat first [apply mapsEqual_extends | apply slicesEqual_extends
               | apply diffStructValues_extends | ext_step].
Qed.

Lemma Diff_extends a b :
  extends (Open.Diff ve df a b) (Open.Diff ve' df' a b).
Proof.
  unfold Open.Diff, Open.DiffStructs.
  repeat first [apply DiffMaps_extends | apply diffStructValues_extends | ext_step].
Qed.

End Monotone.

Lemma engine_step n a b :
  extends (valuesEqual n a b) (valuesEqual (S n) a b) /\
  extends (Diff n a b) (Diff (S n) a b).
Proof.
  revert a b. induction n as [|n IH]; intros a b; [split; by left|].
  split.
  - apply valuesEqual_extends; intros x y; apply IH.
  - apply Diff_extends; intros x y; apply IH.
Qed.

(** Once [valuesEqual] and [Diff] have an answer, every deeper exploration
    gives the same. *)
Lemma engine_mono n m a b :
  (n <= m)%nat ->
  extends (valuesEqual n a b) (valuesEqual m a b) /\
  extends (Diff n a b) (Diff m a b).
Proof.
  induction 1 as [|m Hle [IHv IHd]]; [split; apply extends_refl|].
  destruct (engine_step m a b) as [Hv Hd]. split.
  - destruct IHv as [->|Hv']; [by left|]. destruct Hv as [Hv|Hv]; [|right; congruence].
    rewrite Hv in Hv'. by left.
  - destruct IHd as [->|Hd']; [by left|]. destruct Hd as [Hd|Hd]; [|right; congruence].
    rewrite Hd in Hd'. by left.
Qed.

(** ** Enough depth gives an answer *)

Lemma decided_bind {A B} (m : result A) (f : A -> result B) :
  decided m -> (forall a, m = Ok a -> decided (f a)) -> decided (m ≫= f).
Proof. intros Hm Hf. destruct m as [a| |]; cbn; [by apply Hf|done|done]. Qed.

Lemma decided_lift {A} (o : outcome A) : decided (lift o).
Proof. apply lift_not_OutOfFuel. Qed.

Lemma decided_range {X S R} (body : X -> S -> result (flow S R)) l s :
  (forall x s1, x ∈ l -> decided (body x s1)) -> decided (range body l s).
Proof.
  revert s. induction l as [|x l IH]; intros s Hb; [done|].
  rewrite range_cons. apply decided_bind; [apply Hb; by left|].
  intros [s'|r] _; [|done]. apply IH. intros y s1 Hy. apply Hb. by right.
Qed.

Lemma map_fold_max_bound (g : value -> nat) (m : gmap string value) B :
  (forall k v, m !! k = Some v -> (g v <= B)%nat) ->
  (map_fold (fun _ x acc => Nat.max (g x) acc) 0 m <= B)%nat.
Proof.
  intros H. rewrite map_fold_foldr.
  assert (Hl : forall kv, kv ∈ map_to_list m -> (g kv.2 <= B)%nat).
  { intros [k v] Hkv. apply elem_of_map_to_list in Hkv. by eapply H. }
  induction (map_to_list m) as [|[k v] l IH]; cbn [foldr uncurry]; [lia|].
  pose proof (Hl (k, v) (list_elem_of_here _ _)).
  assert ((foldr (uncurry (fun (_ : string) x acc => Nat.max (g x) acc)) 0 l <= B)%nat).
  { apply IH. intros kv Hkv. apply Hl. by right. }
  cbn in *. lia.
Qed.

Lemma foldr_max_bound {X} (g : X -> nat) (l : list X) B :
  (forall x, x ∈ l -> (g x <= B)%nat) ->
  (foldr (fun y acc => Nat.max (g y) acc) 0 l <= B)%nat.
Proof.
  induction l as [|y l IH]; intros H; cbn [foldr]; [lia|].
  pose proof (H y (list_elem_of_here _ _)).
  assert ((foldr (fun y acc => Nat.max (g y) acc) 0 l <= B)%nat)
    by (apply IH; intros x Hx; apply H; by right).
  lia.
Qed.

Lemma depth_field name (fs : list (StructField * value)) f :
  f ∈ fs -> (depth f.2 < depth (VStruct name fs))%nat.
Proof.
  intros Hf. cbn [depth]. apply (foldr_max_le (fun f => depth f.2)) in Hf.
  apply Nat.lt_succ_r. exact Hf.
Qed.

(** The entries stored by the field loop of [toMapValue] are conversions of
    field values. *)
Lemma foldl_toMapField_from conv fs m k v :
  foldl (toMapField conv) m fs !! k = Some v ->
  m !! k = Some v \/ exists f, f ∈ fs /\ v = conv (isAny (FType f.1)) f.2.
Proof.
  revert m. induction fs as [|f fs IH]; intros m H; [by left|].
  cbn [foldl] in H. apply IH in H as [H|(g & Hg & ->)].
  - unfold toMapField in H.
    repeat match type of H with
    | (if ?c then _ else _) !! _ = _ => destruct c
    end; try (by left).
    destruct (conv (isAny (FType f.1)) f.2) eqn:Hc; try (by left);
      (destruct (decide (parseName (JsonTag f.1) (FName f.1) = k)) as [<-|Hne];
       [rewrite lookup_insert_eq in H; injection H as <-; right; exists f;
        split; [by left|by rewrite Hc]
       |rewrite lookup_insert_ne in H by done; by left]).
  - right. exists g. split; [by right|done].
Qed.

(** Normalizing does not deepen a value. *)
Lemma depth_toMapValue_at d v i :
  (depth v <= d)%nat -> (depth (toMapValue_at i v) <= depth v)%nat.
Proof.
  revert v i. induction d as [|d IH]; intros v i Hd.
  - destruct i; [by destruct v|].
    destruct v as [| | | | |t [[a e]|]|t [l|]|t [m|]|]; cbn [depth] in *; try lia; cbn; lia.
  - destruct i; [by destruct v|].
    destruct v as [| | | | |t [[a e]|]|t [l|]|t [m|]|name fs];
      try (cbn; lia).
    + cbn [toMapValue_at]. cbn [depth] in *.
      specialize (IH e (isAny t)). lia.
    + cbn [toMapValue_at]. cbn [depth] in *. apply le_n_S.
      apply foldr_max_bound. intros x Hx.
      apply list_elem_of_In, in_map_iff in Hx as (y & <- & Hy).
      apply list_elem_of_In in Hy.
      pose proof (foldr_max_le depth l y Hy).
      specialize (IH y (isAny t)). lia.
    + cbn [toMapValue_at]. cbn [depth] in *. apply le_n_S.
      apply map_fold_max_bound. intros k x Hx.
      rewrite lookup_fmap in Hx. destruct (m !! k) as [y|] eqn:Hy; [|discriminate].
      injection Hx as <-.
      pose proof (map_fold_max_le depth m k y Hy).
      specialize (IH y (isAny t)). lia.
    + cbn [toMapValue_at]. cbn [depth] in *. apply le_n_S.
      apply map_fold_max_bound. intros k x Hx.
      apply foldl_toMapField_from in Hx as [Hx|(f & Hf & ->)];
        [by rewrite lookup_empty in Hx|].
      pose proof (foldr_max_le (fun f => depth f.2) fs f Hf).
      specialize (IH f.2 (isAny (FType f.1))). cbn in *. lia.
Qed.

Lemma depth_ToMap v : (depth (VMap TAny (ToMap v)) <= depth v)%nat.
Proof.
  unfold ToMap, toMapValue. cbn [ValueOf isIface under].
  pose proof (depth_toMapValue_at (depth v) v false (le_n _)) as H.
  destruct (toMapValue_at false v) as [| | | | | | |t m|]; cbn [depth]; try lia.
  destruct t; cbn [depth] in *; lia.
Qed.

Lemma depth_entries t (m : gomap) k v :
  entries m !! k = Some v -> (depth v < depth (VMap t m))%nat.
Proof.
  destruct m as [m|]; [apply depth_entry|]. by rewrite entries_None_lookup.
Qed.

Lemma depth_asMap v : (depth (VMap TAny (asMap v)) <= depth v)%nat.
Proof.
  destruct v as [| | | | | | |t m|]; cbn [asMap depth]; try lia. destruct t; cbn [depth]; lia.
Qed.

Lemma depth_asSlice v x : x ∈ asSlice v -> (depth x < depth v)%nat.
Proof.
  assert (Hnil : x ∈ [] -> (depth x < depth v)%nat) by (by intros ?%elem_of_nil).
  destruct v as [| | | | | |t [l|]| |]; cbn [asSlice]; try exact Hnil.
  - destruct t; try exact Hnil. apply depth_elem.
  - destruct t; exact Hnil.
Qed.

Lemma depth_Elem r : (depth (under (Elem r)) <= depth (under r))%nat.
Proof.
  unfold Elem. destruct (under r) as [| | | | |t [[a e]|]| | |]; cbn; lia.
Qed.

Lemma depth_fieldsOf r f : f ∈ fieldsOf r -> (depth f.2 < depth (under r))%nat.
Proof.
  unfold fieldsOf. destruct (under r); try (by intros ?%elem_of_nil). apply depth_field.
Qed.

Section Total.

Variable ve : value -> value -> result bool.
Variable df : value -> value -> result (value * error).
Variable N : nat.
Hypothesis Hve : forall a b, (depth a < N)%nat -> (depth b < N)%nat -> decided (ve a b).
Hypothesis Hdf : forall a b, (depth a < N)%nat -> (depth b < N)%nat -> decided (df a b).

Lemma mapsEqual_decided (a b : gomap) :
  (depth (VMap TAny a) <= N)%nat -> (depth (VMap TAny b) <= N)%nat ->
  decided (Open.mapsEqual ve a b).
Proof.
  intros Ha Hb. unfold Open.mapsEqual. destruct (negb _); [done|].
  apply decided_bind; [|by intros []].
  apply decided_range. intros [k v] [] Hin. apply elem_of_map_to_list in Hin.
  cbn [fst snd]. destruct (entries b !! k) as [vb|] eqn:Hk; [|done].
  apply decided_bind; [|by intros []].
  apply Hve.
  - pose proof (depth_entries TAny a k v Hin). lia.
  - pose proof (depth_entries TAny b k vb Hk). lia.
Qed.

Lemma slicesEqual_decided (a b : value) :
  (depth a <= N)%nat -> (depth b <= N)%nat ->
  decided (Open.slicesEqual ve (asSlice a) (asSlice b)).
Proof.
  intros Ha Hb. unfold Open.slicesEqual. destruct (negb _); [done|].
  apply decided_bind; [|by intros []].
  apply decided_range. intros [x y] [] Hin. cbn [fst snd].
  apply decided_bind; [|by intros []].
  apply Hve.
  - apply elem_of_zip_l, depth_asSlice in Hin. lia.
  - apply elem_of_zip_r, depth_asSlice in Hin. lia.
Qed.

Lemma DiffMaps_decided (old new : gomap) :
  (depth (VMap TAny old) <= N)%nat -> (depth (VMap TAny new) <= N)%nat ->
  decided (Open.DiffMaps ve df old new).
Proof.
  intros Ho Hn. unfold Open.DiffMaps. destruct old as [o|], new as [n|]; try done.
  apply decided_bind; [|by intros [[]|]].
  apply decided_range. intros [k v] [res seen] Hin. apply elem_of_map_to_list in Hin.
  unfold Open.diffEntry. destruct (o !! k) as [a|] eqn:Hk; [|done].
  pose proof (depth_entry TAny o k a Hk). pose proof (depth_entry TAny n k v Hin).
  apply decided_bind; [apply Hve; lia|]. intros [] _; [done|].
  destruct (_ && _); [|done].
  apply decided_bind; [apply Hdf; lia|]. intros [diff []] _; [|done].
  destruct diff; try destruct (nonEmptyMap _); done.
Qed.

Lemma getFieldByName_depth r name g :
  getFieldByName r name = Some g -> (depth (under g) < depth (under r))%nat.
Proof.
  unfold getFieldByName. intros (f & Hf & _ & _ & ->)%lookupField_Some.
  cbn [Field under]. by apply depth_fieldsOf.
Qed.

Lemma Interface_under r v : lift (Interface r) = Ok v -> v = under r.
Proof. unfold Interface. destruct (isRO r); [discriminate|]. by intros [= <-]. Qed.

Lemma diffSameTypeStructs_decided (o n : rvalue) :
  (depth (under o) <= N)%nat -> (depth (under n) <= N)%nat ->
  decided (Open.diffSameTypeStructs df o n).
Proof.
  intros Ho Hn. unfold Open.diffSameTypeStructs.
  apply decided_bind; [|by intros [[]|]].
  apply decided_range. intros f [res seen] Hf. apply depth_fieldsOf in Hf.
  unfold Open.diffField.
  destruct (negb _); [done|]. destruct (bool_decide _); [done|].
  destruct (isNilPointer _).
  { destruct (getFieldByName _ _); [destruct (negb _)|]; done. }
  destruct (getFieldByName o _) as [g|] eqn:Hg; [|done].
  apply getFieldByName_depth in Hg.
  destruct (isNilPointer g); [done|].
  apply decided_bind; [apply decided_lift|]. intros [] _; [done|].
  apply decided_bind; [apply decided_lift|]. intros oi Hoi.
  apply decided_bind; [apply decided_lift|]. intros ni Hni.
  apply Interface_under in Hoi as ->. apply Interface_under in Hni as ->.
  cbn [Field under] in *.
  destruct (_ && _); [done|]. destruct (_ && _); [|done].
  apply decided_bind; [apply Hdf; lia|]. by intros [diff []] _.
Qed.

Lemma diffStructValues_nil_decided (o n : rvalue) :
  (depth (under o) <= N)%nat -> (depth (under n) <= N)%nat ->
  decided (Open.diffStructValues_nil ve df o n).
Proof.
  intros Ho Hn. unfold Open.diffStructValues_nil. destruct (_ && _); [done|].
  assert (Hi : forall r, (depth (under r) <= N)%nat ->
            forall v, (if IsValid r then lift (Interface r) else Ok VNil) = Ok v ->
            (depth (VMap TAny (ToMap v)) <= N)%nat).
  { intros r Hr v Hv. pose proof (depth_ToMap v).
    destruct (IsValid r); [apply Interface_under in Hv as ->; lia|].
    injection Hv as <-. cbn in *. lia. }
  apply decided_bind; [destruct (IsValid o); [apply decided_lift|done]|]. intros oi Hoi.
  apply decided_bind; [destruct (IsValid n); [apply decided_lift|done]|]. intros ni Hni.
  apply DiffMaps_decided; eauto.
Qed.

Lemma diffStructValues_decided (o n : rvalue) :
  (depth (under o) <= N)%nat -> (depth (under n) <= N)%nat ->
  decided (Open.diffStructValues ve df o n).
Proof.
  intros Ho Hn. unfold Open.diffStructValues.
  assert (Hinv : (depth (under Invalid) <= N)%nat) by (cbn; lia).
  destruct (_ || _); [by apply diffStructValues_nil_decided|].
  destruct (_ && _); [done|].
  destruct (isNilPointer o); [by apply diffStructValues_nil_decided|].
  set (o' := if bool_decide (Kind o = KPointer) then Elem o else o).
  set (n' := if bool_decide (Kind n = KPointer) then Elem n else n).
  assert (Ho' : (depth (under o') <= N)%nat).
  { unfold o'. destruct (bool_decide (Kind o = KPointer));
      [pose proof (depth_Elem o); lia|done]. }
  assert (Hn' : (depth (under n') <= N)%nat).
  { unfold n'. destruct (bool_decide (Kind n = KPointer));
      [pose proof (depth_Elem n); lia|done]. }
  destruct (isNilPointer n); [by apply diffStructValues_nil_decided|].
  assert (Hfall : decided (lift (Interface o') ≫= fun oldInterface =>
                           lift (Interface n') ≫= fun newInterface =>
                           Open.DiffMaps ve df (ToMap oldInterface) (ToMap newInterface))).
  { apply decided_bind; [apply decided_lift|]. intros oi Hoi.
    apply decided_bind; [apply decided_lift|]. intros ni Hni.
    apply Interface_under in Hoi as ->. apply Interface_under in Hni as ->.
    pose proof (depth_ToMap (under o')). pose proof (depth_ToMap (under n')).
    apply DiffMaps_decided; lia. }
  destruct (_ || _); [exact Hfall|].
  destruct (_ && _).
  { apply decided_bind; [apply decided_lift|]. intros oi _.
    apply decided_bind; [apply decided_lift|]. intros ni _.
    destruct oi; try done. destruct ni; try done.
    match goal with |- decided (if ?c then _ else _) => by destruct c end. }
  destruct (negb _); [exact Hfall|].
  by apply diffSameTypeStructs_decided.
Qed.

Lemma valuesEqual_decided a b :
  (depth a <= N)%nat -> (depth b <= N)%nat -> decided (Open.valuesEqual ve df a b).
Proof.
  intros Ha Hb. unfold Open.valuesEqual.
  assert (Hbody : decided
    (if isMap a && isMap b then Open.mapsEqual ve (asMap a) (asMap b)
     else if isSlice a && isSlice b then Open.slicesEqual ve (asSlice a) (asSlice b)
     else if isStruct a && isStruct b
     then Open.DiffStructs ve df a b ≫= fun '(diff, err) =>
            match err with
            | ErrNil => Ok (bool_decide (len diff = 0%nat))
            | Err _ => Ok false
            end
     else Ok (safeEqual a b))).
  { destruct (_ && _).
    { pose proof (depth_asMap a). pose proof (depth_asMap b).
      apply mapsEqual_decided; lia. }
    destruct (_ && _); [by apply slicesEqual_decided|].
    destruct (_ && _); [|done].
    apply decided_bind; [by apply diffStructValues_decided|]. by intros [diff []] _. }
  destruct a; try exact Hbody; destruct b; try exact Hbody; done.
Qed.

Lemma Diff_decided a b :
  (depth a <= N)%nat -> (depth b <= N)%nat -> decided (Open.Diff ve df a b).
Proof.
  intros Ha Hb. unfold Open.Diff.
  assert (Hwrap : forall m : result (gomap * error), decided m ->
            decided (m ≫= fun '(result, err) => Ok (VMap TAny result, err))).
  { intros m Hm. apply decided_bind; [done|]. by intros [] _. }
  assert (Hbody : decided
    (if isStruct a && isStruct b
     then Open.DiffStructs ve df a b ≫= fun '(result, err) => Ok (VMap TAny result, err)
     else if isMap a && isMap b
     then Open.DiffMaps ve df (asMap a) (asMap b) ≫= fun '(result, err) =>
            Ok (VMap TAny result, err)
     else
       if bool_decide (is_Some (if isStruct a || isMap a
                                then if isStruct a then ToMap a else asMap a
                                else None))
          || bool_decide (is_Some (if isStruct b || isMap b
                                   then if isStruct b then ToMap b else asMap b
                                   else None))
       then Open.DiffMaps ve df
              (if isStruct a || isMap a then if isStruct a then ToMap a else asMap a
               else None)
              (if isStruct b || isMap b then if isStruct b then ToMap b else asMap b
               else None) ≫= fun '(result, err) => Ok (VMap TAny result, err)
       else if safeEqual a b then Ok (VNil, ErrNil) else Ok (b, ErrNil))).
  { pose proof (depth_asMap a). pose proof (depth_asMap b).
    pose proof (depth_ToMap a). pose proof (depth_ToMap b).
    destruct (_ && _); [apply Hwrap; by apply diffStructValues_decided|].
    destruct (_ && _); [apply Hwrap; apply DiffMaps_decided; lia|].
    destruct (_ || _); [|by destruct (safeEqual a b)].
    apply Hwrap. apply DiffMaps_decided.
    - destruct (_ || _); [destruct (isStruct a); lia|cbn; lia].
    - destruct (_ || _); [destruct (isStruct b); lia|cbn; lia]. }
  destruct a; try exact Hbody; destruct b; try exact Hbody; done.
Qed.

End Total.

(** Exploring deeper than the two values are nested, [valuesEqual] and [Diff]
    return or panic; the bound is never what stops them. *)
Lemma engine_total n a b :
  (depth a < n)%nat -> (depth b < n)%nat ->
  decided (valuesEqual n a b) /\ decided (Diff n a b).
Proof.
  revert a b. induction n as [|n IH]; intros a b Ha Hb; [lia|].
  split.
  - apply (valuesEqual_decided (valuesEqual n) (Diff n) n); [| |lia|lia];
      intros x y Hx Hy; by apply IH.
  - apply (Diff_decided (valuesEqual n) (Diff n) n); [| |lia|lia];
      intros x y Hx Hy; by apply IH.
Qed.

Lemma DiffMaps_total n (old new : gomap) :
  (depth (VMap TAny old) <= n)%nat -> (depth (VMap TAny new) <= n)%nat ->
  decided (DiffMaps n old new).
Proof.
  intros Ho Hn. apply (DiffMaps_decided (valuesEqual n) (Diff n) n); [| |done|done];
    intros x y Hx Hy; by apply engine_total.
Qed.

Lemma DiffStructs_total n (old new : value) :
  (depth old <= n)%nat -> (depth new <= n)%nat ->
  decided (DiffStructs n old new).
Proof.
  intros Ho Hn. apply (diffStructValues_decided (valuesEqual n) (Diff n) n); [| |done|done];
    intros x y Hx Hy; by apply engine_total.
Qed.

(** ** What a patch contains *)





(** ** The earlier revision of [Diff] on leaves *)

(** There a different leaf is wrapped under the empty key, and the
    comparison is the bare [==]. *)
Lemma Legacy_Diff_leaves ds dm (old new : value) :
  isStruct old = false -> isMap old = false ->
  isStruct new = false -> isMap new = false ->
  Legacy.Diff ds dm old new =
    lift (goEq old new) ≫= fun eq : bool =>
      if eq then Ok None else Ok (Some {[ "" := new ]}).
Proof.
  intros Hos Hom Hns Hnm. unfold Legacy.Diff.
  rewrite Hos, Hom, Hns, Hnm. cbn [andb orb].
  rewrite !bool_decide_eq_false_2 by (intros [? ?]; discriminate).
  cbn [orb]. destruct old; try done. destruct new; done.
Qed.

Example Legacy_Diff_strings ds dm :
  Legacy.Diff ds dm (VString "hello") (VString "world") =
    Ok (Some {[ "" := VString "world" ]}).
Proof. reflexivity. Qed.

Example Legacy_Diff_slices_panic ds dm (l l' : list value) :
  Legacy.Diff ds dm (VSlice TAny (Some l)) (VSlice TAny (Some l')) = Panic.
Proof. reflexivity. Qed.
(** ** [DiffMaps], every key accounted for *)

Lemma DiffMaps_patchSpec n old new patch err :
  DiffMaps n (Some old) (Some new) = Ok (patch, err) ->
  err = ErrNil /\
  exists p, patch = Some p /\ patchSpec (valuesEqual n) (Diff n) old new p.
Proof.
  intros H. apply DiffMaps_Some_Some in H as [(-> & p & -> & Hspec)|(a & b & d & msg & Hd & _)].
  - split; [done|]. by exists p.
  - pose proof (engine_nilError n a b) as Hnil.
    change (Diff n a b = Ok (d, Err msg)) in Hd. rewrite Hd in Hnil. discriminate.
Qed.

Lemma DiffMaps_None_Some n m :
  DiffMaps n None (Some m) = Ok (Some m, ErrNil).
Proof.
  unfold DiffMaps, Open.DiffMaps.
  by rewrite (foldl_insert_map_to_list id), map_fmap_id.
Qed.

Lemma DiffMaps_Some_None n m :
  DiffMaps n (Some m) None = Ok (Some ((fun _ => VNil) <$> m), ErrNil).
Proof.
  unfold DiffMaps, Open.DiffMaps.
  by rewrite (foldl_insert_map_to_list (fun _ => VNil)).
Qed.

(** A key that only one of the two maps has: the patch carries the entry of
    [new] when [old] lacks the key, and the deletion marker nil when [new]
    lacks it; a key that neither map has is not in the patch. *)
Theorem DiffMaps_one_sided n old new patch err k :
  DiffMaps n old new = Ok (patch, err) ->
  (entries old !! k = None -> entries patch !! k = entries new !! k) /\
  (entries new !! k = None ->
   entries patch !! k = (fun _ => VNil) <$> entries old !! k).
Proof.
  intros H. destruct old as [o|], new as [m|].
  - apply DiffMaps_patchSpec in H as (_ & p & -> & Hspec).
    cbn [entries default from_option id]. specialize (Hspec k). split; intros Hk.
    + destruct (m !! k) as [v|] eqn:Hm.
      * unfold entrySpec in Hspec. by rewrite Hk in Hspec.
      * by rewrite Hk in Hspec.
    + rewrite Hk in Hspec. rewrite Hspec. by destruct (o !! k).
  - rewrite DiffMaps_Some_None in H. injection H as <- <-.
    cbn [entries default from_option id]. rewrite lookup_fmap, lookup_empty. split; intros Hk.
    + by rewrite Hk.
    + done.
  - rewrite DiffMaps_None_Some in H. injection H as <- <-.
    cbn [entries default from_option id]. rewrite lookup_empty. split; intros Hk; [done|].
    by rewrite Hk.
  - injection H as <- <-. by rewrite !entries_None_lookup.
Qed.

Lemma DiffMaps_one_sided_witness :
  (entries (Some oldABC) !! "d" = None ->
   entries (Some {[ "b" := VInt 20; "c" := VNil; "d" := VInt 4 ]}) !! "d" =
     entries (Some newABD) !! "d") /\
  (entries (Some newABD) !! "d" = None ->
   entries (Some {[ "b" := VInt 20; "c" := VNil; "d" := VInt 4 ]}) !! "d" =
     (fun _ => VNil) <$> entries (Some oldABC) !! "d").
Proof.
  apply (DiffMaps_one_sided 1 (Some oldABC) (Some newABD)
           (Some {[ "b" := VInt 20; "c" := VNil; "d" := VInt 4 ]}) ErrNil "d").
  vm_compute. reflexivity.
Defined.

(** A key that both maps have.  The values are compared by [valuesEqual]:
    equal values leave the key out; different values that are not both
    composite put the new value in the patch as it is; different composite
    values (maps or records on both sides) put the result of the nested
    [Diff] there when it is a non-empty map, and leave the key out
    otherwise. *)
Theorem DiffMaps_common_key n old new patch err k a b :
  DiffMaps n old new = Ok (patch, err) ->
  entries old !! k = Some a -> entries new !! k = Some b ->
  exists eq : bool, valuesEqual n a b = Ok eq /\
    if eq then entries patch !! k = None
    else if (isMap a || isStruct a) && (isMap b || isStruct b)
    then exists diff, Diff n a b = Ok (diff, ErrNil) /\
           entries patch !! k = (if nonEmptyMap diff then Some diff else None)
    else entries patch !! k = Some b.
Proof.
  intros H Ha Hb. destruct old as [o|]; [|by rewrite entries_None_lookup in Ha].
  destruct new as [m|]; [|by rewrite entries_None_lookup in Hb].
  apply DiffMaps_patchSpec in H as (_ & p & -> & Hspec).
  cbn [entries default from_option id] in *. specialize (Hspec k).
  rewrite Hb in Hspec. unfold entrySpec in Hspec. rewrite Ha in Hspec.
  destruct Hspec as (eq & Heq & Hr). exists eq. split; [done|].
  destruct eq; [done|]. destruct (_ && _); done.
Qed.

Lemma DiffMaps_common_key_witness :
  exists eq : bool, valuesEqual 1 (VInt 2) (VInt 20) = Ok eq /\
    if eq then entries (Some {[ "b" := VInt 20; "c" := VNil; "d" := VInt 4 ]}) !! "b" = None
    else if (isMap (VInt 2) || isStruct (VInt 2)) && (isMap (VInt 20) || isStruct (VInt 20))
    then exists diff, Diff 1 (VInt 2) (VInt 20) = Ok (diff, ErrNil) /\
           entries (Some {[ "b" := VInt 20; "c" := VNil; "d" := VInt 4 ]}) !! "b" =
             (if nonEmptyMap diff then Some diff else None)
    else entries (Some {[ "b" := VInt 20; "c" := VNil; "d" := VInt 4 ]}) !! "b" = Some (VInt 20).
Proof.
  apply (DiffMaps_common_key 1 (Some oldABC) (Some newABD)
           (Some {[ "b" := VInt 20; "c" := VNil; "d" := VInt 4 ]}) ErrNil "b").
  - vm_compute. reflexivity.
  - vm_compute. reflexivity.
  - vm_compute. reflexivity.
Defined.

(** The patch is the nil map only when both inputs are nil; in every other
    case [DiffMaps] returns a map of its own, empty when nothing differs. *)
Theorem DiffMaps_nil_result n old new patch err :
  DiffMaps n old new = Ok (patch, err) ->
  (patch = None <-> old = None /\ new = None).
Proof.
  intros H. destruct old as [o|], new as [m|].
  - apply DiffMaps_patchSpec in H as (_ & p & -> & _). split; [done|]. by intros [? _].
  - rewrite DiffMaps_Some_None in H. injection H as <- <-. split; [done|]. by intros [? _].
  - rewrite DiffMaps_None_Some in H. injection H as <- <-. split; [done|]. by intros [_ ?].
  - injection H as <- <-. done.
Qed.

Lemma DiffMaps_nil_result_witness :
  (Some (∅ : gmap string value) = None <->
   Some (∅ : gmap string value) = None /\ Some (∅ : gmap string value) = None).
Proof.
  apply (DiffMaps_nil_result 0 (Some ∅) (Some ∅) (Some ∅) ErrNil).
  vm_compute. reflexivity.
Defined.

(** ** Plain maps: the comparison is equality, the empty patch means equal *)

(** On plain values, [valuesEqual] decides equality as soon as the depth
    covers the nesting of the first value. *)
Theorem valuesEqual_plain_decides n a b :
  plain a = true -> plain b = true -> (depth a < n)%nat ->
  (a = b -> valuesEqual n a b = Ok true) /\
  (a <> b -> valuesEqual n a b = Ok false).
Proof.
  intros Ha Hb Hd.
  destruct (valuesEqual_plain n a b Ha Hb Hd) as (r & Hr & Hiff).
  split; intros H.
  - rewrite Hr. f_equal. by apply Hiff.
  - rewrite Hr. f_equal. destruct r; [|done]. destruct H. by apply Hiff.
Qed.

Lemma valuesEqual_plain_decides_witness :
  (VSlice TAny (Some [VInt 1; VString "x"]) = VSlice TAny (Some [VInt 1; VString "y"]) ->
   valuesEqual 2 (VSlice TAny (Some [VInt 1; VString "x"]))
                 (VSlice TAny (Some [VInt 1; VString "y"])) = Ok true) /\
  (VSlice TAny (Some [VInt 1; VString "x"]) <> VSlice TAny (Some [VInt 1; VString "y"]) ->
   valuesEqual 2 (VSlice TAny (Some [VInt 1; VString "x"]))
                 (VSlice TAny (Some [VInt 1; VString "y"])) = Ok false).
Proof.
  apply (valuesEqual_plain_decides 2 (VSlice TAny (Some [VInt 1; VString "x"]))
           (VSlice TAny (Some [VInt 1; VString "y"]))).
  - vm_compute. reflexivity.
  - vm_compute. reflexivity.
  - vm_compute. lia.
Defined.

(** For two non-nil maps with plain values, [DiffMaps] returns a patch, and
    the patch is empty exactly when the maps are equal. *)
Theorem DiffMaps_empty_iff_equal n (old new : gmap string value) :
  plainMap old = true -> plainMap new = true ->
  (depth (VMap TAny (Some old)) <= n)%nat ->
  exists patch, DiffMaps n (Some old) (Some new) = Ok (Some patch, ErrNil) /\
                (patch = ∅ <-> old = new).
Proof.
  intros Ho Hn Hd.
  destruct (DiffMaps_plain n old new Ho Hn Hd) as (patch & Hp & Happ).
  exists patch. split; [done|]. split.
  - intros ->. rewrite <- (Happ noRecords). symmetry. apply ApplyToMap_empty.
  - intros <-. apply DiffMaps_patchSpec in Hp as (_ & p & [= <-] & Hspec).
    apply map_eq. intros k. rewrite lookup_empty. specialize (Hspec k).
    destruct (old !! k) as [v|] eqn:Hk; [|done].
    unfold entrySpec in Hspec. rewrite Hk in Hspec. destruct Hspec as (eq & Heq & Hr).
    assert (Hv : plain v = true) by exact (plain_entry old k v Ho Hk).
    destruct (valuesEqual_plain n v v Hv Hv) as (r & Hr' & Hiff).
    { pose proof (depth_entry TAny old k v Hk). lia. }
    assert (r = true) as -> by by apply Hiff.
    rewrite Heq in Hr'. injection Hr' as ->. done.
Qed.

Lemma DiffMaps_empty_iff_equal_witness :
  exists patch, DiffMaps 1 (Some oldABC) (Some newABD) = Ok (Some patch, ErrNil) /\
                (patch = ∅ <-> oldABC = newABD).
Proof.
  apply (DiffMaps_empty_iff_equal 1 oldABC newABD).
  - vm_compute. reflexivity.
  - vm_compute. reflexivity.
  - vm_compute. lia.
Defined.

(** ** Nested maps, nil against empty, and [Diff] on one composite side *)

(** Two maps that differ under a common key: the patch holds the nested
    patch of [DiffMaps] on the two maps when that is not empty, and leaves
    the key out otherwise; it never holds the whole new map. *)
Theorem DiffMaps_nested_maps n old new patch err k ma mb :
  DiffMaps (S n) old new = Ok (patch, err) ->
  entries old !! k = Some (VMap TAny ma) ->
  entries new !! k = Some (VMap TAny mb) ->
  valuesEqual (S n) (VMap TAny ma) (VMap TAny mb) = Ok false ->
  exists p, DiffMaps n ma mb = Ok (p, ErrNil) /\
    entries patch !! k =
      if bool_decide (0 < len p)%nat then Some (VMap TAny p) else None.
Proof.
  intros H Ha Hb Hne. destruct old as [o|]; [|by rewrite entries_None_lookup in Ha].
  destruct new as [m|]; [|by rewrite entries_None_lookup in Hb].
  apply DiffMaps_patchSpec in H as (_ & p & -> & Hspec).
  cbn [entries default from_option id] in *. specialize (Hspec k).
  rewrite Hb in Hspec. unfold entrySpec in Hspec. rewrite Ha in Hspec.
  destruct Hspec as (eq & Heq & Hr). rewrite Hne in Heq. injection Heq as <-.
  cbn [isMap orb andb] in Hr. destruct Hr as (diff & Hd & Hr).
  rewrite Diff_maps in Hd. inv_bind Hd. destruct a as [q e].
  injection Hd as <- ->. exists q. split; [done|]. exact Hr.
Qed.

Lemma DiffMaps_nested_maps_witness :
  exists p, DiffMaps 1 (Some {[ "x" := VInt 1 ]}) (Some {[ "x" := VInt 2 ]}) = Ok (p, ErrNil) /\
    entries (Some {[ "m" := VMap TAny (Some {[ "x" := VInt 2 ]}) ]}) !! "m" =
      if bool_decide (0 < len p)%nat then Some (VMap TAny p) else None.
Proof.
  apply (DiffMaps_nested_maps 1
           (Some {[ "m" := VMap TAny (Some {[ "x" := VInt 1 ]}) ]})
           (Some {[ "m" := VMap TAny (Some {[ "x" := VInt 2 ]}) ]})
           (Some {[ "m" := VMap TAny (Some {[ "x" := VInt 2 ]}) ]}) ErrNil "m").
  - vm_compute. reflexivity.
  - vm_compute. reflexivity.
  - vm_compute. reflexivity.
  - vm_compute. reflexivity.
Defined.

(** [valuesEqual] does not tell a nil map from an empty one, nor a nil
    [[]any] from an empty one: both have length 0 and no element is looked
    at.  The comparison of the struct diff does tell a nil slice or map from
    an empty one. *)
Theorem valuesEqual_nil_empty n (a b : gomap) (l l' : option (list value)) :
  len a = 0%nat -> len b = 0%nat ->
  default [] l = [] -> default [] l' = [] ->
  valuesEqual (S n) (VMap TAny a) (VMap TAny b) = Ok true /\
  valuesEqual (S n) (VSlice TAny l) (VSlice TAny l') = Ok true /\
  (forall t ro ro',
     directValuesEqual (RV false ro (VSlice t None)) (RV false ro' (VSlice t (Some []))) =
       Returns false /\
     directValuesEqual (RV false ro (VMap t None)) (RV false ro' (VMap t (Some ∅))) =
       Returns false).
Proof.
  intros Ha Hb Hl Hl'. split_and!.
  - unfold valuesEqual. cbn [engine fst]. unfold Open.valuesEqual. cbn [isMap andb asMap].
    unfold Open.mapsEqual. rewrite Ha, Hb. rewrite bool_decide_eq_true_2 by done. cbn [negb].
    unfold len in Ha. apply map_size_empty_iff in Ha. rewrite Ha, map_to_list_empty. done.
  - unfold valuesEqual. cbn [engine fst]. unfold Open.valuesEqual.
    cbn [isMap isSlice andb]. unfold Open.slicesEqual.
    assert (Hs : asSlice (VSlice TAny l) = []) by (by destruct l).
    assert (Hs' : asSlice (VSlice TAny l') = []) by (by destruct l').
    rewrite Hs, Hs'. done.
  - intros t ro ro'. split.
    + unfold directValuesEqual. cbn. by rewrite bool_decide_eq_true_2.
    + unfold directValuesEqual. cbn. by rewrite bool_decide_eq_true_2.
Qed.

Lemma valuesEqual_nil_empty_witness :
  valuesEqual 1 (VMap TAny None) (VMap TAny (Some ∅)) = Ok true /\
  valuesEqual 1 (VSlice TAny None) (VSlice TAny (Some [])) = Ok true /\
  (forall t ro ro',
     directValuesEqual (RV false ro (VSlice t None)) (RV false ro' (VSlice t (Some []))) =
       Returns false /\
     directValuesEqual (RV false ro (VMap t None)) (RV false ro' (VMap t (Some ∅))) =
       Returns false).
Proof.
  apply (valuesEqual_nil_empty 0 None (Some ∅) None (Some [])); reflexivity.
Defined.

(** [Diff] with a composite value on one side only.  The other side, nil or
    any value that is neither a record nor a [map[string]any], counts as the
    nil map: against a map the patch is the map itself, or the deletion of
    every key; against a record it is the record's [ToMap], or the deletion
    of every key of it. *)
Theorem Diff_one_composite n (v : value) (m : gmap string value)
    (name : string) (fs : list (StructField * value)) :
  isStruct v = false -> isMap v = false ->
  Diff (S n) v (VMap TAny (Some m)) = Ok (VMap TAny (Some m), ErrNil) /\
  Diff (S n) (VMap TAny (Some m)) v =
    Ok (VMap TAny (Some ((fun _ => VNil) <$> m)), ErrNil) /\
  Diff (S n) v (VStruct name fs) = Ok (VMap TAny (ToMap (VStruct name fs)), ErrNil) /\
  Diff (S n) (VStruct name fs) v =
    Ok (VMap TAny ((fun t : gmap string value => (fun _ => VNil) <$> t)
                     <$> ToMap (VStruct name fs)), ErrNil).
Proof.
  intros Hs Hm.
  assert (Hadd : forall t, Open.DiffMaps (engine n).1 (engine n).2 None (Some t) =
                   Ok (Some t, ErrNil)) by (intros t; exact (DiffMaps_None_Some n t)).
  assert (Hdel : forall t, Open.DiffMaps (engine n).1 (engine n).2 (Some t) None =
                   Ok (Some ((fun _ => VNil) <$> t), ErrNil)) by (intros t; exact (DiffMaps_Some_None n t)).
  unfold Diff. cbn [engine snd]. unfold Open.Diff. rewrite !ToMap_struct.
  rewrite Hs, Hm. cbn [isStruct isMap andb orb asMap].
  rewrite !(bool_decide_eq_true_2 (is_Some (Some _))) by (by eexists).
  rewrite !(bool_decide_eq_false_2 (is_Some None)) by (intros [? ?]; discriminate).
  cbn [orb]. rewrite !Hadd, !Hdel. split_and!; by destruct v.
Qed.

Lemma Diff_one_composite_witness :
  Diff 1 VNil (VMap TAny (Some newABD)) = Ok (VMap TAny (Some newABD), ErrNil) /\
  Diff 1 (VMap TAny (Some newABD)) VNil =
    Ok (VMap TAny (Some ((fun _ => VNil) <$> newABD)), ErrNil) /\
  Diff 1 VNil (VStruct "User" (user "John" 30 "")) =
    Ok (VMap TAny (ToMap (VStruct "User" (user "John" 30 ""))), ErrNil) /\
  Diff 1 (VStruct "User" (user "John" 30 "")) VNil =
    Ok (VMap TAny ((fun t : gmap string value => (fun _ => VNil) <$> t)
                     <$> ToMap (VStruct "User" (user "John" 30 ""))), ErrNil).
Proof.
  apply (Diff_one_composite 0 VNil newABD "User" (user "John" 30 "")); reflexivity.
Defined.
(** ** tomap.go: names, keys and normal forms *)

Lemma commaFree_beforeComma s : commaFree (beforeComma s) = true.
Proof.
  induction s as [|c s IH]; [done|]. cbn [beforeComma].
  destruct (Ascii.eqb c ","%char) eqn:Hc; [done|]. cbn [commaFree]. by rewrite Hc.
Qed.

Lemma beforeComma_split s :
  s = beforeComma s \/ exists rest, s = beforeComma s +:+ "," +:+ rest.
Proof.
  induction s as [|c s IH]; [by left|]. cbn [beforeComma].
  destruct (Ascii.eqb c ","%char) eqn:Hc.
  - right. exists s. apply Ascii.eqb_eq in Hc. by subst.
  - destruct IH as [IH|[rest IH]].
    + left. by rewrite <- IH.
    + right. exists rest.
      change (String c s = String c (beforeComma s +:+ "," +:+ rest)). by f_equal.
Qed.

(** [parseName] returns the fallback, or the non-empty, comma-free part of
    the tag before its first comma; an empty tag and a tag that starts with
    a comma give the fallback. *)
Theorem parseName_result tag fallback :
  (parseName tag fallback = fallback \/
   (parseName tag fallback <> "" /\ commaFree (parseName tag fallback) = true /\
    (tag = parseName tag fallback \/
     exists rest, tag = parseName tag fallback +:+ "," +:+ rest))) /\
  parseName "" fallback = fallback /\
  (forall rest, parseName ("," +:+ rest) fallback = fallback).
Proof.
  split_and!; [|done|done].
  unfold parseName. destruct (bool_decide (tag = "")); [by left|].
  destruct (bool_decide (beforeComma tag = "")) eqn:Hn; [by left|].
  right. apply bool_decide_eq_false in Hn. split_and!; [done| |].
  - apply commaFree_beforeComma.
  - apply beforeComma_split.
Qed.

Lemma toMapValue_nil_pointer f :
  isNilPointer (Field false f) = true -> toMapValue (Field false f) = VNil.
Proof.
  unfold isNilPointer, toMapValue, Field. cbn [isIface under].
  destruct (isAny (FType f.1)); [discriminate|]. by destruct f.2 as [| | | | |t [p|]| | |].
Qed.

(** One iteration of [toMapValue]'s field loop, by the slot's class *)
Lemma toMapField_eq m f :
  toMapField toMapValue_at m f =
    if included f then
      match toMapValue (Field false f) with
      | VNil => m
      | val => <[externalName f := val]> m
      end
    else m.
Proof.
  unfold toMapField, included, externalName.
  destruct (IsExported f.1); [|done]. cbn [negb andb].
  destruct (bool_decide (JsonTag f.1 = "-")); [done|]. cbn [negb].
  destruct (isNilPointer (Field false f)) eqn:Hp.
  - by rewrite toMapValue_nil_pointer.
  - done.
Qed.

Lemma toMapField_lookup m f k :
  toMapField toMapValue_at m f !! k =
    if included f && bool_decide (externalName f = k)
       && negb (bool_decide (toMapValue (Field false f) = VNil))
    then Some (toMapValue (Field false f))
    else m !! k.
Proof.
  rewrite toMapField_eq. destruct (included f); [|done]. cbn [andb].
  destruct (decide (externalName f = k)) as [<-|Hne].
  - rewrite bool_decide_eq_true_2 by done. cbn [andb].
    destruct (toMapValue (Field false f)) eqn:Hv;
      first [ by rewrite bool_decide_eq_true_2
            | rewrite bool_decide_eq_false_2 by done; apply lookup_insert_eq ].
  - rewrite bool_decide_eq_false_2 by done. cbn [andb].
    destruct (toMapValue (Field false f)); try done; by rewrite lookup_insert_ne.
Qed.

Lemma foldl_toMapField_keys fs m k :
  is_Some (foldl (toMapField toMapValue_at) m fs !! k) <->
  is_Some (m !! k) \/
  exists f, f ∈ fs /\ included f = true /\ externalName f = k /\
            toMapValue (Field false f) <> VNil.
Proof.
  revert m. induction fs as [|f fs IH]; intros m.
  - cbn [foldl]. split; [by left|]. intros [H|(f & Hf & _)]; [done|by apply elem_of_nil in Hf].
  - cbn [foldl]. rewrite IH, toMapField_lookup. split.
    + intros [H|(g & Hg & Hg')].
      * destruct (included f) eqn:Hi; [|by left]. cbn [andb] in H.
        destruct (bool_decide (externalName f = k)) eqn:Hk; [|by left]. cbn [andb] in H.
        destruct (bool_decide (toMapValue (Field false f) = VNil)) eqn:Hv; [by left|].
        right. exists f. apply bool_decide_eq_true in Hk. apply bool_decide_eq_false in Hv.
        split; [by left|done].
      * right. exists g. split; [by right|done].
    + intros [H|(g & Hg & Hi & Hk & Hv)].
      * left. destruct (_ && _); [by eexists|done].
      * apply elem_of_cons in Hg as [->|Hg].
        -- left. rewrite Hi, bool_decide_eq_true_2, bool_decide_eq_false_2 by done.
           by eexists.
        -- right. exists g. done.
Qed.

(** The keys of [ToMap] of a record are the external names of its included
    slots whose normalized value is not nil; no other key is there, so an
    unexported or ["-"]-tagged slot never shows unless an included slot has
    the same name. *)
Theorem ToMap_keys name fs k :
  exists m, ToMap (VStruct name fs) = Some m /\
    (is_Some (m !! k) <->
     exists f, f ∈ fs /\ included f = true /\ externalName f = k /\
               toMapValue (Field false f) <> VNil).
Proof.
  rewrite ToMap_struct. eexists. split; [done|].
  rewrite foldl_toMapField_keys, lookup_empty. split.
  - intros [[? ?]|H]; [done|exact H].
  - by right.
Qed.

Lemma foldl_toMapField_later fs m k :
  (forall g, g ∈ fs -> included g = true -> externalName g = k ->
             toMapValue (Field false g) = VNil) ->
  foldl (toMapField toMapValue_at) m fs !! k = m !! k.
Proof.
  revert m. induction fs as [|f fs IH]; intros m H; [done|].
  cbn [foldl]. rewrite IH by (intros g Hg; apply H; by right).
  rewrite toMapField_lookup.
  destruct (included f) eqn:Hi; [|done].
  destruct (bool_decide (externalName f = k)) eqn:Hk; [|done].
  apply bool_decide_eq_true in Hk.
  rewrite (H f) by (done || by left). by rewrite bool_decide_eq_true_2.
Qed.

(** When several included slots share an external name, [ToMap] keeps the
    value of the last one whose normalized value is not nil. *)
Theorem ToMap_last_wins name pre f post :
  included f = true -> toMapValue (Field false f) <> VNil ->
  (forall g, g ∈ post -> included g = true -> externalName g = externalName f ->
             toMapValue (Field false g) = VNil) ->
  exists m, ToMap (VStruct name (pre ++ f :: post)) = Some m /\
            m !! externalName f = Some (toMapValue (Field false f)).
Proof.
  intros Hi Hv Hpost. rewrite ToMap_struct. eexists. split; [done|].
  rewrite foldl_app. cbn [foldl]. rewrite foldl_toMapField_later by done.
  rewrite toMapField_lookup, Hi, bool_decide_eq_true_2, bool_decide_eq_false_2 by done.
  done.
Qed.

Lemma ToMap_last_wins_witness :
  exists m, ToMap (VStruct "P" ([(mkField "A" true "x" TInt, VInt 1)] ++
                                (mkField "B" true "x" TInt, VInt 2) :: [])) = Some m /\
            m !! externalName (mkField "B" true "x" TInt, VInt 2) =
              Some (toMapValue (Field false (mkField "B" true "x" TInt, VInt 2))).
Proof.
  apply (ToMap_last_wins "P" [(mkField "A" true "x" TInt, VInt 1)]
           (mkField "B" true "x" TInt, VInt 2) []).
  - reflexivity.
  - vm_compute. discriminate.
  - intros g Hg. by apply elem_of_nil in Hg.
Defined.

Lemma toMapValue_at_iface v : toMapValue_at true v = v.
Proof. by destruct v. Qed.

(** [ToMap] of a [map[string]any] is the map itself, nil for nil, and
    normalizing twice is normalizing once. *)
Theorem ToMap_idempotent (v : value) (m : gomap) :
  ToMap (VMap TAny m) = m /\ ToMap (VMap TAny (ToMap v)) = ToMap v.
Proof.
  assert (H : forall m : gomap, ToMap (VMap TAny m) = m).
  { intros [t|]; [|done]. unfold ToMap, toMapValue. cbn. f_equal.
    apply map_eq. intros k. rewrite lookup_fmap.
    destruct (t !! k); [|done]. cbn. by rewrite toMapValue_at_iface. }
  split; apply H.
Qed.

Lemma map_fold_andb_true (P : value -> bool) (m : gmap string value) :
  map_fold (fun _ x acc => P x && acc) true m = true <->
  forall k v, m !! k = Some v -> P v = true.
Proof.
  rewrite map_fold_foldr.
  assert (H : foldr (uncurry (fun (_ : string) x acc => P x && acc)) true (map_to_list m) = true <->
              forall kv, kv ∈ map_to_list m -> P kv.2 = true).
  { induction (map_to_list m) as [|[k' v'] l IH].
    - split; [|done]. intros _ kv Hkv. by apply elem_of_nil in Hkv.
    - cbn [foldr uncurry]. rewrite andb_true_iff, IH. split.
      + intros [Hv Hl] kv [->|Hin]%elem_of_cons; [done|by apply Hl].
      + intros Hall. split; [apply (Hall (k', v')); by left|].
        intros kv Hin. apply Hall. by right. }
  rewrite H. split.
  - intros Hall k v Hk. apply (Hall (k, v)). by apply elem_of_map_to_list.
  - intros Hall [k v] Hk. apply (Hall k). by apply elem_of_map_to_list.
Qed.

Lemma toMapValue_at_normal d v :
  (depth v <= d)%nat -> typed v = true -> normal (toMapValue_at false v) = true.
Proof.
  revert v. induction d as [|d IH]; intros v Hd Ht.
  - destruct v as [| | | | |t [[a e]|]|t [l|]|t [m|]|name fs]; try done;
      cbn [depth] in Hd; lia.
  - destruct v as [| | | | |t [[a e]|]|t [l|]|t [m|]|name fs]; try done.
    + cbn [typed] in Ht. apply andb_true_iff in Ht as [Hany Ht].
      apply negb_true_iff in Hany. cbn [toMapValue_at]. rewrite Hany.
      apply IH; [|done]. cbn [depth] in Hd. lia.
    + cbn [typed] in Ht. apply andb_true_iff in Ht as [Hany Ht].
      apply negb_true_iff in Hany. cbn [toMapValue_at normal]. rewrite Hany.
      rewrite forallb_forall in Ht. apply forallb_forall.
      intros x (y & <- & Hy)%in_map_iff. apply IH; [|by apply Ht].
      pose proof (depth_elem t l y (proj2 (list_elem_of_In _ _) Hy)). lia.
    + cbn [typed] in Ht. apply andb_true_iff in Ht as [Hany Ht].
      apply negb_true_iff in Hany. cbn [toMapValue_at normal]. rewrite Hany.
      rewrite map_fold_andb_true in Ht. apply map_fold_andb_true.
      intros k x Hx. rewrite lookup_fmap in Hx.
      destruct (m !! k) as [y|] eqn:Hy; [|discriminate]. injection Hx as <-.
      apply IH; [|by eapply Ht].
      pose proof (depth_entry t m k y Hy). lia.
    + cbn [typed] in Ht. cbn [toMapValue_at normal].
      rewrite forallb_forall in Ht. apply map_fold_andb_true.
      intros k x Hx. apply foldl_toMapField_from in Hx as [Hx|(f & Hf & ->)];
        [by rewrite lookup_empty in Hx|].
      specialize (Ht f (proj1 (list_elem_of_In _ _) Hf)).
      apply andb_true_iff in Ht as [Hany Ht]. apply negb_true_iff in Hany.
      rewrite Hany. apply IH; [|done].
      pose proof (depth_field name fs f Hf). lia.
Qed.

(** What [ToMap] yields for a value [v] without slots of interface type is
    in normal form: nil, leaves, timestamps, [[]any] and [map[string]any]
    only, with no record and no pointer left at any depth.  A slot of type
    [any] is copied as it is, whatever non-nil value [w] it holds. *)
Theorem ToMap_normal_form (v w : value) :
  typed v = true -> w <> VNil ->
  normal (toMapValue (ValueOf v)) = true /\
  ToMap (boxedValue w) = Some {[ "F" := w ]}.
Proof.
  intros Ht Hw. split.
  - exact (toMapValue_at_normal (depth v) v (le_n _) Ht).
  - unfold ToMap, toMapValue, boxedValue. cbn.
    unfold toMapField. cbn. by destruct w.
Qed.

Lemma ToMap_normal_form_witness :
  normal (toMapValue (ValueOf
    (VStruct "Line" [(mkField "From" true "from" (TPtr (TStruct "Point")),
                      VPtr (TStruct "Point") (Some (1%N, VStruct "Point" (pointSlots 0 0))));
                     (mkField "Tags" true "tags" (TSlice TString),
                      VSlice TString (Some [VString "a"]))]))) = true /\
  ToMap (boxedValue (VStruct "Point" (pointSlots 0 0))) =
    Some {[ "F" := VStruct "Point" (pointSlots 0 0) ]}.
Proof.
  apply (ToMap_normal_form
    (VStruct "Line" [(mkField "From" true "from" (TPtr (TStruct "Point")),
                      VPtr (TStruct "Point") (Some (1%N, VStruct "Point" (pointSlots 0 0))));
                     (mkField "Tags" true "tags" (TSlice TString),
                      VSlice TString (Some [VString "a"]))])
    (VStruct "Point" (pointSlots 0 0))).
  - reflexivity.
  - discriminate.
Defined.

(** ** diffstruct.go: names, pointers and nil *)

(** [getFieldByName] finds the first included slot whose external name is
    the one asked for, and nothing when no included slot has that name:
    among slots of one name the first wins, unexported and ["-"]-tagged
    slots are never found. *)
Theorem getFieldByName_first_match ro name fs k :
  match getFieldByName (RV false ro (VStruct name fs)) k with
  | Some r =>
      exists pre f post, fs = pre ++ f :: post /\ included f = true /\
        externalName f = k /\ r = Field ro f /\
        (forall g, g ∈ pre -> included g = true -> externalName g <> k)
  | None => forall f, f ∈ fs -> included f = true -> externalName f <> k
  end.
Proof.
  unfold getFieldByName. cbn [isRO fieldsOf under].
  induction fs as [|f fs IH].
  - cbn. intros f Hf. by apply elem_of_nil in Hf.
  - destruct (included f) eqn:Hi.
    + rewrite lookupField_cons_included by done.
      destruct (decide (externalName f = k)) as [Hk|Hk].
      * rewrite bool_decide_eq_true_2 by done. exists [], f, fs.
        split_and!; try done. intros g Hg. by apply elem_of_nil in Hg.
      * rewrite bool_decide_eq_false_2 by done.
        destruct (lookupField ro fs k) as [r|].
        -- destruct IH as (pre & g & post & -> & Hg & Hgk & -> & Hpre).
           exists (f :: pre), g, post. split_and!; try done.
           intros h [->|Hh]%elem_of_cons; [done|by apply Hpre].
        -- intros g [->|Hg]%elem_of_cons; [done|by apply IH].
    + rewrite lookupField_cons_excluded by done.
      destruct (lookupField ro fs k) as [r|].
      * destruct IH as (pre & g & post & -> & Hg & Hgk & -> & Hpre).
        exists (f :: pre), g, post. split_and!; try done.
        intros h [->|Hh]%elem_of_cons; [congruence|by apply Hpre].
      * intros g [->|Hg]%elem_of_cons; [congruence|by apply IH].
Qed.

(** [DiffStructs] looks through a non-nil pointer to a record on either
    side. *)
Theorem DiffStructs_deref n t t' (a b : N) (x y : value) :
  isStruct x = true -> isStruct y = true -> isAny t = false -> isAny t' = false ->
  DiffStructs n (VPtr t (Some (a, x))) (VPtr t' (Some (b, y))) = DiffStructs n x y /\
  DiffStructs n (VPtr t (Some (a, x))) y = DiffStructs n x y /\
  DiffStructs n x (VPtr t' (Some (b, y))) = DiffStructs n x y.
Proof.
  intros Hx Hy Ht Ht'.
  unfold DiffStructs, Open.DiffStructs, Open.diffStructValues, Elem, ValueOf.
  cbn [IsValid isIface under isRO isNilPointer Kind negb andb orb].
  rewrite Ht, Ht'.
  destruct x; try discriminate; destruct y; try discriminate; split_and!; reflexivity.
Qed.

Lemma DiffStructs_deref_witness :
  DiffStructs 1 (VPtr (TStruct "User") (Some (1%N, VStruct "User" (user "John" 30 ""))))
                (VPtr (TStruct "User") (Some (2%N, VStruct "User" (user "John" 31 "")))) =
    DiffStructs 1 (VStruct "User" (user "John" 30 "")) (VStruct "User" (user "John" 31 "")) /\
  DiffStructs 1 (VPtr (TStruct "User") (Some (1%N, VStruct "User" (user "John" 30 ""))))
                (VStruct "User" (user "John" 31 "")) =
    DiffStructs 1 (VStruct "User" (user "John" 30 "")) (VStruct "User" (user "John" 31 "")) /\
  DiffStructs 1 (VStruct "User" (user "John" 30 ""))
                (VPtr (TStruct "User") (Some (2%N, VStruct "User" (user "John" 31 "")))) =
    DiffStructs 1 (VStruct "User" (user "John" 30 "")) (VStruct "User" (user "John" 31 "")).
Proof.
  apply (DiffStructs_deref 1 (TStruct "User") (TStruct "User") 1%N 2%N
           (VStruct "User" (user "John" 30 "")) (VStruct "User" (user "John" 31 "")));
    reflexivity.
Defined.

(** [DiffStructs] with nil, or a nil pointer, on one side: against a record
    the patch is the record's [ToMap], or the deletion of every key of it;
    nil against itself gives the empty map. *)
Theorem DiffStructs_nil_side n name fs (z : value) :
  (z = VNil \/ exists t, z = VPtr t None) ->
  DiffStructs n z (VStruct name fs) = Ok (ToMap (VStruct name fs), ErrNil) /\
  DiffStructs n (VStruct name fs) z =
    Ok ((fun m : gmap string value => (fun _ => VNil) <$> m) <$> ToMap (VStruct name fs),
        ErrNil) /\
  DiffStructs n z z = Ok (Some ∅, ErrNil).
Proof.
  assert (Hadd : forall t, Open.DiffMaps (valuesEqual n) (Diff n) None (Some t) =
                   Ok (Some t, ErrNil)) by (intros t; exact (DiffMaps_None_Some n t)).
  assert (Hdel : forall t, Open.DiffMaps (valuesEqual n) (Diff n) (Some t) None =
                   Ok (Some ((fun _ => VNil) <$> t), ErrNil))
    by (intros t; exact (DiffMaps_Some_None n t)).
  intros [->|[t ->]];
    unfold DiffStructs, Open.DiffStructs, Open.diffStructValues, Open.diffStructValues_nil;
    cbn [ValueOf IsValid isIface under isRO isNilPointer Kind negb andb orb Invalid
         Interface lift mbind result_bind];
    rewrite ?ToMap_struct; split_and!; try reflexivity;
    first [ exact (Hadd _) | exact (Hdel _) ].
Qed.

Lemma DiffStructs_nil_side_witness :
  DiffStructs 0 VNil (VStruct "User" (user "John" 30 "")) =
    Ok (ToMap (VStruct "User" (user "John" 30 "")), ErrNil) /\
  DiffStructs 0 (VStruct "User" (user "John" 30 "")) VNil =
    Ok ((fun m : gmap string value => (fun _ => VNil) <$> m)
          <$> ToMap (VStruct "User" (user "John" 30 "")), ErrNil) /\
  DiffStructs 0 VNil VNil = Ok (Some ∅, ErrNil).
Proof.
  apply (DiffStructs_nil_side 0 "User" (user "John" 30 "") VNil). by left.
Defined.

Lemma DiffStructs_same_type n name ofs nfs :
  DiffStructs n (VStruct name ofs) (VStruct name nfs) =
    Open.diffSameTypeStructs (Diff n) (ValueOf (VStruct name ofs)) (ValueOf (VStruct name nfs)).
Proof.
  unfold DiffStructs, Open.DiffStructs, Open.diffStructValues.
  cbn [ValueOf IsValid isIface under orb negb isNilPointer andb Kind TypeOf typeOf].
  eval_decides. cbn [negb orb andb].
  rewrite (bool_decide_eq_true_2 (Some (TStruct name) = Some (TStruct name))) by done.
  reflexivity.
Qed.

Lemma DiffStructs_other_type n oname ofs nname nfs :
  oname <> nname ->
  DiffStructs n (VStruct oname ofs) (VStruct nname nfs) =
    DiffMaps n (ToMap (VStruct oname ofs)) (ToMap (VStruct nname nfs)).
Proof.
  intros Hne. unfold DiffStructs, Open.DiffStructs, Open.diffStructValues.
  cbn [ValueOf IsValid isIface under orb negb isNilPointer andb Kind TypeOf typeOf].
  eval_decides. cbn [negb orb andb].
  rewrite (bool_decide_eq_false_2 (Some (TStruct oname) = Some (TStruct nname)))
    by congruence.
  reflexivity.
Qed.

Lemma directValuesEqual_unexported_first ro ro' inner x xtag ty v w
    (rest rest' : list (StructField * value)) :
  basicValue v = true -> basicValue w = true -> typeOf v = typeOf w ->
  isAny ty = false -> length rest = length rest' ->
  directValuesEqual
    (RV false ro (VStruct inner ((mkField x false xtag ty, v) :: rest)))
    (RV false ro' (VStruct inner ((mkField x false xtag ty, w) :: rest'))) = Panics.
Proof.
  intros Hv Hw Hty Hany Hlen. unfold directValuesEqual.
  cbn [isIface isRO under]. cbn -[bool_decide].
  rewrite (bool_decide_eq_true_2 (Some (TStruct inner) = Some (TStruct inner))) by done.
  cbn [negb]. rewrite Hlen.
  rewrite (bool_decide_eq_true_2 (S (length rest') = S (length rest'))) by done.
  cbn [negb]. rewrite Hany.
  assert (Hfirst : directValuesEqual_at false (ro || true) v
            (Field ro' (mkField x false xtag ty, w)) = Panics).
  { unfold Field. cbn [fst snd FType IsExported negb]. rewrite Hany, !orb_true_r.
    destruct v; try discriminate; destruct w; try discriminate;
      cbn -[bool_decide]; rewrite ?bool_decide_eq_true_2 by done; reflexivity. }
  by rewrite Hfirst.
Qed.

(** The comparison of the struct diff calls [Interface()] on the slots it
    reaches, unexported ones included.  So [DiffStructs] panics on two
    records of one type with an exported record slot whose first slot is
    unexported and holds a [bool], an [int] or a [string], equal or not. *)
Theorem DiffStructs_unexported_panics n outer inner F tag x xtag ty v w
    (rest rest' more more' : list (StructField * value)) :
  tag <> "-" -> basicValue v = true -> basicValue w = true -> typeOf v = typeOf w ->
  isAny ty = false -> length rest = length rest' ->
  DiffStructs n
    (VStruct outer ((mkField F true tag (TStruct inner),
                     VStruct inner ((mkField x false xtag ty, v) :: rest)) :: more))
    (VStruct outer ((mkField F true tag (TStruct inner),
                     VStruct inner ((mkField x false xtag ty, w) :: rest')) :: more')) =
  Panic.
Proof.
  intros Htag Hv Hw Hty Hany Hlen.
  rewrite DiffStructs_same_type. unfold Open.diffSameTypeStructs.
  cbn [fieldsOf ValueOf under]. rewrite range_cons.
  match goal with
  | |- (?step ≫= _) = _ => assert (Hstep : step = Panic); [|by rewrite Hstep]
  end.
  unfold Open.diffField, getFieldByName.
  cbn -[bool_decide directValuesEqual parseName].
  rewrite (bool_decide_eq_false_2 (tag = "-")) by done.
  rewrite (bool_decide_eq_true_2 (parseName tag F = parseName tag F)) by done.
  unfold Field. cbn -[bool_decide directValuesEqual parseName].
  by rewrite directValuesEqual_unexported_first.
Qed.

Lemma DiffStructs_unexported_panics_witness :
  DiffStructs 1
    (VStruct "Outer" ((mkField "In" true "in" (TStruct "Inner"),
                       VStruct "Inner" ((mkField "x" false "" TInt, VInt 1) :: [])) :: []))
    (VStruct "Outer" ((mkField "In" true "in" (TStruct "Inner"),
                       VStruct "Inner" ((mkField "x" false "" TInt, VInt 1) :: [])) :: [])) =
  Panic.
Proof.
  apply (DiffStructs_unexported_panics 1 "Outer" "Inner" "In" "in" "x" "" TInt
           (VInt 1) (VInt 1) [] [] [] []); try reflexivity. discriminate.
Defined.

(** ** The struct diff on flat records, slot by slot *)

Lemma safeEqual_basic a b :
  basicValue a = true -> basicValue b = true -> (safeEqual a b = true <-> a = b).
Proof.
  intros Ha Hb. destruct a; try discriminate; destruct b; try discriminate;
    unfold safeEqual; cbn; eval_decides; cbn;
    first [ split; [discriminate|discriminate]
          | rewrite bool_decide_eq_true; split; congruence ].
Qed.

Lemma DiffStructs_flat_lookup n name ofs nfs k :
  ofs.*1 = nfs.*1 -> flatFields ofs -> flatFields nfs ->
  exists patch mo mn,
    DiffStructs (S n) (VStruct name ofs) (VStruct name nfs) = Ok (Some patch, ErrNil) /\
    ToMap (VStruct name ofs) = Some mo /\ ToMap (VStruct name nfs) = Some mn /\
    (forall a, mo !! k = Some a -> basicValue a = true) /\
    (forall b, mn !! k = Some b -> basicValue b = true) /\
    (is_Some (mo !! k) <-> is_Some (mn !! k)) /\
    patch !! k =
      match mo !! k, mn !! k with
      | Some a, Some b => if safeEqual a b then None else Some b
      | _, _ => None
      end.
Proof.
  intros Hd Ho Hn. rewrite (DiffStructs_flat_run n name ofs nfs Hd Ho Hn), !ToMap_struct.
  eexists _, _, _. split_and!; try reflexivity.
  - intros a. rewrite toMap_flat_lookup by done.
    destruct (lookupField false ofs k) as [r|] eqn:Hl; [|by rewrite lookup_empty].
    intros [= <-]. exact (flat_lookup_basic false ofs k r Ho Hl).
  - intros b. rewrite toMap_flat_lookup by done.
    destruct (lookupField false nfs k) as [r|] eqn:Hl; [|by rewrite lookup_empty].
    intros [= <-]. exact (flat_lookup_basic false nfs k r Hn Hl).
  - rewrite !toMap_flat_lookup, !lookup_empty by done.
    pose proof (lookupField_same_decls false ofs nfs k Hd) as Hs.
    destruct (lookupField false ofs k), (lookupField false nfs k); try done;
      split; intros [? ?]; done || by eexists.
  - rewrite flatStep_lookup, !toMap_flat_lookup, !lookup_empty by done.
    pose proof (lookupField_same_decls false ofs nfs k Hd) as Hs.
    destruct (lookupField false ofs k), (lookupField false nfs k); done.
Qed.

(** For two flat records of one type, the struct patch holds exactly the
    slots whose value changed, each with its new value: a key of the patch
    is the external name of a slot whose old and new values differ, and it
    is bound to the new one. *)
Theorem DiffStructs_flat_changes n name ofs nfs k v :
  ofs.*1 = nfs.*1 -> flatFields ofs -> flatFields nfs ->
  exists patch mo mn,
    DiffStructs (S n) (VStruct name ofs) (VStruct name nfs) = Ok (Some patch, ErrNil) /\
    ToMap (VStruct name ofs) = Some mo /\ ToMap (VStruct name nfs) = Some mn /\
    (patch !! k = Some v <->
     mn !! k = Some v /\ exists a, mo !! k = Some a /\ a <> v).
Proof.
  intros Hd Ho Hn.
  destruct (DiffStructs_flat_lookup n name ofs nfs k Hd Ho Hn)
    as (patch & mo & mn & Hp & Hmo & Hmn & Hbo & Hbn & Hdom & Hk).
  exists patch, mo, mn. split_and!; try done. rewrite Hk.
  destruct (mo !! k) as [a|] eqn:Ha, (mn !! k) as [b|] eqn:Hb.
  - pose proof (safeEqual_basic a b (Hbo a eq_refl) (Hbn b eq_refl)) as Heq.
    destruct (safeEqual a b).
    + assert (a = b) as -> by by apply Heq. split; [done|].
      intros [[= ->] (a & [= ->] & Hne)]. done.
    + split.
      * intros [= <-]. split; [done|]. exists a. split; [done|].
        intros ->. destruct Heq as [_ Heq]. specialize (Heq eq_refl). discriminate.
      * by intros [[= ->] _].
  - split; [done|]. by intros [? _].
  - split; [done|]. intros [_ (a & ? & _)]. done.
  - split; [done|]. by intros [? _].
Qed.

Lemma DiffStructs_flat_changes_witness :
  exists patch mo mn,
    DiffStructs 1 (VStruct "User" (user "John" 30 "john@old.com"))
                  (VStruct "User" (user "John" 31 "john@new.com")) = Ok (Some patch, ErrNil) /\
    ToMap (VStruct "User" (user "John" 30 "john@old.com")) = Some mo /\
    ToMap (VStruct "User" (user "John" 31 "john@new.com")) = Some mn /\
    (patch !! "age" = Some (VInt 31) <->
     mn !! "age" = Some (VInt 31) /\ exists a, mo !! "age" = Some a /\ a <> VInt 31).
Proof.
  apply (DiffStructs_flat_changes 0 "User" (user "John" 30 "john@old.com")
           (user "John" 31 "john@new.com") "age" (VInt 31)).
  - reflexivity.
  - apply user_flat.
  - apply user_flat.
Defined.

(** [DiffStructs] of a flat record with itself is the empty map, not nil,
    and so is [Diff]. *)
Theorem DiffStructs_identical_flat n name fs :
  flatFields fs ->
  DiffStructs (S n) (VStruct name fs) (VStruct name fs) = Ok (Some ∅, ErrNil) /\
  Diff (S (S n)) (VStruct name fs) (VStruct name fs) = Ok (VMap TAny (Some ∅), ErrNil).
Proof.
  intros Hf.
  assert (H : DiffStructs (S n) (VStruct name fs) (VStruct name fs) = Ok (Some ∅, ErrNil)).
  { destruct (DiffStructs_flat_lookup n name fs fs "" eq_refl Hf Hf)
      as (patch & _ & _ & Hp & _). rewrite Hp. do 3 f_equal.
    apply map_eq. intros k. rewrite lookup_empty.
    destruct (DiffStructs_flat_lookup n name fs fs k eq_refl Hf Hf)
      as (patch' & mo & mn & Hp' & Hmo & Hmn & Hbo & _ & _ & Hk).
    rewrite Hp in Hp'. injection Hp' as <-. rewrite Hk.
    rewrite Hmo in Hmn. injection Hmn as <-.
    destruct (mo !! k) as [a|] eqn:Ha; [|done].
    assert (safeEqual a a = true) as -> by (apply safeEqual_basic; auto). done. }
  split; [exact H|].
  change (Diff (S (S n)) (VStruct name fs) (VStruct name fs)) with
    (DiffStructs (S n) (VStruct name fs) (VStruct name fs)
       ≫= fun '(result, err) => Ok (VMap TAny result, err)).
  by rewrite H.
Qed.

Lemma DiffStructs_identical_flat_witness :
  DiffStructs 1 (VStruct "User" (user "John" 30 "john@example.com"))
                (VStruct "User" (user "John" 30 "john@example.com")) = Ok (Some ∅, ErrNil) /\
  Diff 2 (VStruct "User" (user "John" 30 "john@example.com"))
         (VStruct "User" (user "John" 30 "john@example.com")) =
    Ok (VMap TAny (Some ∅), ErrNil).
Proof.
  apply (DiffStructs_identical_flat 0 "User" (user "John" 30 "john@example.com")).
  apply user_flat.
Defined.

(** ** Disjoint maps, records of different types, and the keys of a patch *)

Lemma range_diffEntry_absent ve df old l res seen :
  (forall kv, kv ∈ l -> old !! kv.1 = None) ->
  range (Open.diffEntry ve df old) l (res, seen) =
    Ok (Next (foldl (fun result (kv : string * value) => <[kv.1 := id kv.2]> result) res l,
              list_to_set l.*1 ∪ seen)).
Proof.
  revert res seen. induction l as [|[k v] l IH]; intros res seen Habs.
  - simpl. do 3 f_equal. set_solver.
  - rewrite range_cons, diffEntry_absent by (apply (Habs (k, v)); by left).
    cbn [mbind result_bind foldl fst snd id].
    rewrite IH by (intros kv Hkv; apply Habs; by right). do 3 f_equal. set_solver.
Qed.

Lemma DiffMaps_disjoint_run n (o m : gmap string value) :
  o ##ₘ m ->
  DiffMaps n (Some o) (Some m) = Ok (Some (m ∪ ((fun _ => VNil) <$> o)), ErrNil).
Proof.
  intros Hdisj. unfold DiffMaps, Open.DiffMaps.
  rewrite range_diffEntry_absent.
  2:{ intros [k v] Hkv. apply elem_of_map_to_list in Hkv. cbn [fst].
      by eapply map_disjoint_Some_r. }
  cbn [mbind result_bind]. do 3 f_equal. apply map_eq. intros k.
  rewrite foldl_markDeleted, (foldl_insert_map_to_list id), map_fmap_id.
  rewrite lookup_union, lookup_fmap.
  destruct (m !! k) as [v|] eqn:Hm.
  - rewrite bool_decide_eq_false_2.
    + by destruct (o !! k).
    + intros [_ Hk]. apply Hk. apply elem_of_union_l, elem_of_list_to_set.
      apply list_elem_of_fmap. exists (k, v). split; [done|]. by apply elem_of_map_to_list.
  - destruct (o !! k) as [a|] eqn:Ho.
    + rewrite bool_decide_eq_true_2; [done|]. split.
      * apply list_elem_of_fmap. exists (k, a). split; [done|]. by apply elem_of_map_to_list.
      * rewrite elem_of_union, elem_of_list_to_set.
        intros [((k' & v') & -> & Hkv)%list_elem_of_fmap|H]; [|set_solver].
        apply elem_of_map_to_list in Hkv. simpl in *. congruence.
    + rewrite bool_decide_eq_false_2; [done|]. intros [Hk' _].
      apply list_elem_of_fmap in Hk' as ((k' & v') & -> & Hkv).
      apply elem_of_map_to_list in Hkv. simpl in *. congruence.
Qed.

(** For two maps without a common key no value is compared: the patch is
    [new] together with a deletion marker for every key of [old]. *)
Theorem DiffMaps_disjoint n (old new : gmap string value) :
  old ##ₘ new ->
  DiffMaps n (Some old) (Some new) = Ok (Some (new ∪ ((fun _ => VNil) <$> old)), ErrNil).
Proof. apply DiffMaps_disjoint_run. Qed.

Lemma DiffMaps_disjoint_witness :
  DiffMaps 0 (Some {[ "name" := VString "John" ]}) (Some {[ "city" := VString "NYC" ]}) =
    Ok (Some ({[ "city" := VString "NYC" ]} ∪
              ((fun _ => VNil) <$> ({[ "name" := VString "John" ]} : gmap string value))), ErrNil).
Proof.
  apply (DiffMaps_disjoint 0 {[ "name" := VString "John" ]} {[ "city" := VString "NYC" ]}).
  apply map_disjoint_singleton_l. vm_compute. reflexivity.
Defined.

(** Two records of different types are diffed as their [ToMap]s; when no
    external name is shared, every key of the old record is deleted and the
    new record is added whole. *)
Theorem DiffStructs_different_types n oname ofs nname nfs :
  oname <> nname ->
  DiffStructs n (VStruct oname ofs) (VStruct nname nfs) =
    DiffMaps n (ToMap (VStruct oname ofs)) (ToMap (VStruct nname nfs)) /\
  exists mo mn, ToMap (VStruct oname ofs) = Some mo /\ ToMap (VStruct nname nfs) = Some mn /\
    (mo ##ₘ mn ->
     DiffStructs n (VStruct oname ofs) (VStruct nname nfs) =
       Ok (Some (mn ∪ ((fun _ => VNil) <$> mo)), ErrNil)).
Proof.
  intros Hne. split; [by apply DiffStructs_other_type|].
  rewrite DiffStructs_other_type, !ToMap_struct by done.
  eexists _, _. split_and!; [done|done|]. apply DiffMaps_disjoint_run.
Qed.

Lemma DiffStructs_different_types_witness :
  DiffStructs 0 (VStruct "User" (user "John" 30 "")) (VStruct "Point" (pointSlots 1 2)) =
    DiffMaps 0 (ToMap (VStruct "User" (user "John" 30 ""))) (ToMap (VStruct "Point" (pointSlots 1 2))) /\
  exists mo mn, ToMap (VStruct "User" (user "John" 30 "")) = Some mo /\
    ToMap (VStruct "Point" (pointSlots 1 2)) = Some mn /\
    (mo ##ₘ mn ->
     DiffStructs 0 (VStruct "User" (user "John" 30 "")) (VStruct "Point" (pointSlots 1 2)) =
       Ok (Some (mn ∪ ((fun _ => VNil) <$> mo)), ErrNil)).
Proof.
  apply (DiffStructs_different_types 0 "User" (user "John" 30 "") "Point" (pointSlots 1 2)).
  discriminate.
Defined.

Lemma diffField_keys df oldVal newVal f res seen res' seen' k :
  Open.diffField df oldVal newVal f (res, seen) = Ok (Next (res', seen')) ->
  is_Some (res' !! k) ->
  is_Some (res !! k) \/ (included f = true /\ externalName f = k).
Proof.
  unfold Open.diffField, included, externalName. intros H Hk.
  assert (Hins : forall (r : gmap string value) v,
            is_Some (<[parseName (JsonTag f.1) (FName f.1) := v]> r !! k) ->
            is_Some (r !! k) \/ parseName (JsonTag f.1) (FName f.1) = k).
  { intros r v Hr. destruct (decide (parseName (JsonTag f.1) (FName f.1) = k)) as [?|Hne];
      [by right|left]. by rewrite lookup_insert_ne in Hr. }
  destruct (IsExported f.1); cbn [negb andb] in *; [|injection H as <- <-; by left].
  destruct (bool_decide (JsonTag f.1 = "-")); cbn [negb] in *; [injection H as <- <-; by left|].
  repeat match type of H with
  | (if ?c then _ else _) = _ => destruct c
  | match ?o with Some _ => _ | None => _ end = _ => destruct o
  | (_ ≫= _) = Ok _ => inv_bind H
  | (let '(_, _) := ?a in _) = _ => destruct a
  | match ?e with ErrNil => _ | Err _ => _ end = _ => destruct e
  | Ok (Return _) = Ok (Next _) => discriminate
  end;
  injection H as <- <-;
  repeat match type of Hk with
  | context [if ?c then _ else _] => destruct c
  | context [match ?d with VNil => _ | _ => _ end] => destruct d
  end;
  repeat match type of Hk with
  | is_Some (<[_ := _]> _ !! _) => apply Hins in Hk as [Hk|Hk]; [|by right; split]
  end;
  by left.
Qed.

Lemma deletedField_keys oldVal seen res f k :
  is_Some (Open.deletedField oldVal seen res f !! k) ->
  is_Some (res !! k) \/ (included f = true /\ externalName f = k).
Proof.
  unfold Open.deletedField, included, externalName. intros Hk.
  destruct (IsExported f.1); cbn [negb andb] in *; [|by left].
  destruct (bool_decide (JsonTag f.1 = "-")); cbn [negb] in *; [by left|].
  destruct (bool_decide _); [by left|]. destruct (negb _); [|by left].
  destruct (decide (parseName (JsonTag f.1) (FName f.1) = k)) as [?|Hne];
    [by right|left]. by rewrite lookup_insert_ne in Hk.
Qed.

Lemma foldl_deletedField_keys oldVal seen fs res k :
  is_Some (foldl (Open.deletedField oldVal seen) res fs !! k) ->
  is_Some (res !! k) \/ k ∈ List.map externalName (List.filter included fs).
Proof.
  revert res. induction fs as [|f fs IH]; intros res Hk; [by left|].
  cbn [foldl] in Hk. apply IH in Hk as [Hk|Hk].
  - apply deletedField_keys in Hk as [Hk|[Hi <-]]; [by left|right].
    apply included_name_elem; [by left|done].
  - right. destruct (included f) eqn:Hi.
    + rewrite included_cons_names by done. by right.
    + by rewrite excluded_cons_names.
Qed.

Lemma names_app (l l' : list (StructField * value)) :
  List.map externalName (List.filter included (l ++ l')) =
  List.map externalName (List.filter included l) ++
  List.map externalName (List.filter included l').
Proof. by rewrite List.filter_app, List.map_app. Qed.

(** Every key of a struct patch is the external name of an included slot
    of the old or of the new record, whatever their types: no key comes
    from an unexported or ["-"]-tagged slot alone. *)
Theorem DiffStructs_keys n oname ofs nname nfs patch err k :
  DiffStructs n (VStruct oname ofs) (VStruct nname nfs) = Ok (patch, err) ->
  is_Some (entries patch !! k) ->
  k ∈ List.map externalName (List.filter included ofs) \/
  k ∈ List.map externalName (List.filter included nfs).
Proof.
  intros H Hk. destruct (decide (oname = nname)) as [<-|Hne].
  - rewrite DiffStructs_same_type in H. unfold Open.diffSameTypeStructs in H.
    inv_bind H. destruct a as [[res seen]|r].
    + injection H as <- <-. cbn [entries default from_option id fieldsOf ValueOf under] in *.
      apply foldl_deletedField_keys in Hk as [Hk|Hk]; [right|by left].
      assert (Hinv : forall k, is_Some ((res, seen).1 !! k) ->
                k ∈ List.map externalName (List.filter included nfs)); [|by apply Hinv].
      refine (range_Next_ind _
                (fun done st => forall k, is_Some (st.1 !! k) ->
                   k ∈ List.map externalName (List.filter included done))
                _ _ (res, seen) _ _ Ha).
      * intros k' Hk'. cbn [fst] in Hk'. rewrite lookup_empty in Hk'. by destruct Hk'.
      * intros done f [res1 seen1] [res2 seen2] HI Hstep k' Hk'. cbn [fst] in *.
        rewrite names_app. apply elem_of_app.
        apply (diffField_keys _ _ _ _ _ _ _ _ k' Hstep) in Hk' as [Hk'|[Hi <-]].
        -- left. by apply HI.
        -- right. rewrite included_cons_names by done. by left.
    + apply range_Return in Ha as (x & s1 & _ & Hb).
      apply diffField_Return in Hb as (a & b & d & msg & Hdf).
      pose proof (engine_nilError n a b) as Hnil.
      change (Diff n a b = Ok (d, Err msg)) in Hdf. rewrite Hdf in Hnil. discriminate.
  - rewrite DiffStructs_other_type, !ToMap_struct in H by done.
    apply DiffMaps_patchSpec in H as (_ & p & -> & Hspec).
    cbn [entries default from_option id] in Hk. specialize (Hspec k).
    assert (Hin : forall fs, is_Some (foldl (toMapField toMapValue_at) ∅ fs !! k) ->
              k ∈ List.map externalName (List.filter included fs)).
    { intros fs [[? Hx]|(f & Hf & Hi & <- & _)]%foldl_toMapField_keys;
        [by rewrite lookup_empty in Hx|]. by apply included_name_elem. }
    destruct (foldl (toMapField toMapValue_at) ∅ nfs !! k) as [v|] eqn:Hn.
    + right. apply Hin. rewrite Hn. by eexists.
    + left. apply Hin. destruct (foldl (toMapField toMapValue_at) ∅ ofs !! k); [by eexists|].
      rewrite Hspec in Hk. by destruct Hk.
Qed.

Lemma DiffStructs_keys_witness :
  "age" ∈ List.map externalName (List.filter included (user "John" 30 "john@old.com")) \/
  "age" ∈ List.map externalName (List.filter included (user "John" 31 "john@new.com")).
Proof.
  apply (DiffStructs_keys 0 "User" (user "John" 30 "john@old.com")
           "User" (user "John" 31 "john@new.com")
           (Some {[ "age" := VInt 31; "email" := VString "john@new.com" ]}) ErrNil "age").
  - vm_compute. reflexivity.
  - vm_compute. by eexists.
Defined.

(** ** The struct diff, slot by slot *)

Lemma diffField_Next_spec df oldVal newVal f res seen res' seen' :
  included f = true ->
  Open.diffField df oldVal newVal f (res, seen) = Ok (Next (res', seen')) ->
  seen' = {[externalName f]} ∪ seen /\
  (forall k, k <> externalName f -> res' !! k = res !! k) /\
  (res !! externalName f = None ->
   slotSpec df (getFieldByName oldVal (externalName f)) (Field (isRO newVal) f)
     (res' !! externalName f)).
Proof.
  intros Hi H. unfold Open.diffField in H. fold (externalName f) in H.
  unfold included in Hi. apply andb_true_iff in Hi as [He Ht]. apply negb_true_iff in Ht.
  rewrite He, Ht in H. cbn [negb] in H. unfold slotSpec.
  set (name := externalName f) in *.
  assert (Hins : forall v, (forall k, k <> name -> <[name := v]> res !! k = res !! k) /\
                           <[name := v]> res !! name = Some v).
  { intros v. split; [intros k Hk; by rewrite lookup_insert_ne|apply lookup_insert_eq]. }
  destruct (isNilPointer (Field (isRO newVal) f)).
  - destruct (getFieldByName oldVal name) as [o|].
    + destruct (isNilPointer o); cbn [negb] in H; injection H as <- <-.
      * split_and!; done.
      * split_and!; [done|apply Hins|intros _; apply Hins].
    + injection H as <- <-. split_and!; done.
  - destruct (getFieldByName oldVal name) as [o|].
    2:{ injection H as <- <-. split_and!; [done|apply Hins|intros _; apply Hins]. }
    destruct (isNilPointer o).
    { injection H as <- <-. split_and!; [done|apply Hins|intros _; apply Hins]. }
    inv_bind H. apply lift_Ok in Ha. destruct a as [|].
    { injection H as <- <-. split_and!; [done|done|]. intros Hn. exists true. by rewrite Hn. }
    inv_bind H. apply lift_Ok in Ha0. inv_bind H. apply lift_Ok in Ha1.
    destruct (bool_decide (TypeOf o = Some TTime) && bool_decide (TypeOf _ = Some TTime)) eqn:Htime.
    { injection H as <- <-. split_and!; [done|apply Hins|].
      intros _. exists false. split; [done|]. exists a, a0. split_and!; [done|done|].
      apply Hins. }
    destruct ((isStruct a || isMap a) && (isStruct a0 || isMap a0)) eqn:Hc.
    2:{ injection H as <- <-. split_and!; [done|apply Hins|].
        intros _. exists false. split; [done|]. exists a, a0. split_and!; [done|done|].
        rewrite Hc. apply Hins. }
    inv_bind H. destruct a1 as [diff err]. destruct err; [|discriminate].
    assert (Hres : (res', seen') =
              (if nonEmptyMap diff then <[name := diff]> res else res, {[name]} ∪ seen)).
    { destruct (nonEmptyMap diff) eqn:Hne.
      - destruct diff; try discriminate. injection H as <- <-. f_equal.
        by rewrite insert_insert_eq.
      - destruct diff; injection H as <- <-; done. }
    injection Hres as -> ->. split_and!; [done| |].
    + intros k Hk. destruct (nonEmptyMap diff); [by apply Hins|done].
    + intros Hn. exists false. split; [done|]. exists a, a0. split_and!; [done|done|].
      rewrite Hc. exists diff. split; [done|].
      destruct (nonEmptyMap diff); [apply Hins|done].
Qed.

Lemma range_diffField_spec df oldVal newVal l res seen res' seen' :
  NoDup (slotNames l) ->
  (forall k, k ∈ slotNames l -> res !! k = None) ->
  range (Open.diffField df oldVal newVal) l (res, seen) = Ok (Next (res', seen')) ->
  seen' = list_to_set (slotNames l) ∪ seen /\
  (forall k, k ∉ slotNames l -> res' !! k = res !! k) /\
  (forall f, f ∈ l -> included f = true ->
     slotSpec df (getFieldByName oldVal (externalName f)) (Field (isRO newVal) f)
       (res' !! externalName f)).
Proof.
  unfold slotNames.
  revert res seen. induction l as [|f l IH]; intros res seen Hnd Hfresh Hr.
  - simpl in Hr. injection Hr as <- <-. split_and!; [set_solver|done|].
    intros f Hf. by apply elem_of_nil in Hf.
  - rewrite range_cons in Hr. inv_bind Hr. destruct a as [[res1 seen1]|]; [|discriminate].
    destruct (included f) eqn:Hi.
    + rewrite included_cons_names in Hnd, Hfresh |- * by done.
      apply NoDup_cons in Hnd as [Hfl Hnd].
      apply diffField_Next_spec in Ha as (-> & Hother & Hk); [|done].
      destruct (IH res1 ({[externalName f]} ∪ seen) Hnd) as (-> & Hout & Hin); [|done|].
      { intros k Hk'. rewrite Hother by set_solver. apply Hfresh. by right. }
      split_and!.
      * set_solver.
      * intros k Hk'. rewrite Hout by set_solver. apply Hother. set_solver.
      * intros g [->|Hg]%elem_of_cons Hgi.
        -- rewrite Hout by done. apply Hk. apply Hfresh. by left.
        -- by apply Hin.
    + rewrite excluded_cons_names in Hnd, Hfresh |- * by done.
      rewrite diffField_excluded in Ha by done. injection Ha as <- <-.
      destruct (IH res seen Hnd Hfresh Hr) as (-> & Hout & Hin).
      split_and!; [done|done|].
      intros g [->|Hg]%elem_of_cons Hgi; [congruence|by apply Hin].
Qed.

Lemma foldl_deletedField_lookup_seen oldVal (seen : gset string) l res k :
  k ∈ seen -> foldl (Open.deletedField oldVal seen) res l !! k = res !! k.
Proof.
  intros Hk. revert res. induction l as [|f l IH]; intros res; [done|].
  cbn [foldl]. rewrite IH. unfold Open.deletedField.
  destruct (negb (IsExported f.1)); [done|]. destruct (bool_decide (JsonTag f.1 = "-")); [done|].
  case_bool_decide as Hs; [done|]. destruct (negb _); [|done].
  apply lookup_insert_ne. intros <-. done.
Qed.

Lemma DiffStructs_slotSpec n name ofs nfs patch err f :
  NoDup (slotNames nfs) -> f ∈ nfs -> included f = true ->
  DiffStructs n (VStruct name ofs) (VStruct name nfs) = Ok (patch, err) ->
  slotSpec (Diff n) (getFieldByName (ValueOf (VStruct name ofs)) (externalName f))
    (Field false f) (entries patch !! externalName f).
Proof.
  intros Hnd Hf Hi H. rewrite DiffStructs_same_type in H.
  unfold Open.diffSameTypeStructs in H. inv_bind H. destruct a as [[res seen]|r].
  - injection H as <- <-. cbn [entries default from_option id fieldsOf ValueOf under] in *.
    apply range_diffField_spec in Ha as (-> & Hout & Hin); [|done|].
    2:{ intros k _. apply lookup_empty. }
    rewrite foldl_deletedField_lookup_seen.
    + by apply Hin.
    + apply elem_of_union_l, elem_of_list_to_set. by apply included_name_elem.
  - apply range_Return in Ha as (x & s1 & _ & Hb).
    apply diffField_Return in Hb as (a & b & d & msg & Hdf).
    pose proof (engine_nilError n a b) as Hnil.
    change (Diff n a b = Ok (d, Err msg)) in Hdf. rewrite Hdf in Hnil. discriminate.
Qed.

Lemma lookupField_at ro fs i f :
  NoDup (slotNames fs) -> fs !! i = Some f -> included f = true ->
  lookupField ro fs (externalName f) = Some (Field ro f).
Proof.
  unfold slotNames. revert i. induction fs as [|g fs IH]; intros i Hnd Hi Hinc; [done|].
  destruct i as [|i].
  - injection Hi as ->. rewrite lookupField_cons_included by done.
    by rewrite bool_decide_eq_true_2.
  - cbn in Hi. destruct (included g) eqn:Hg.
    + rewrite included_cons_names in Hnd by done. apply NoDup_cons in Hnd as [Hfresh Hnd].
      rewrite lookupField_cons_included by done.
      rewrite bool_decide_eq_false_2; [by eapply IH|].
      intros Heq. apply Hfresh. rewrite Heq. apply included_name_elem; [|done].
      by eapply list_elem_of_lookup_2.
    + rewrite excluded_cons_names in Hnd by done.
      rewrite lookupField_cons_excluded by done. by eapply IH.
Qed.

Lemma DiffStructs_slot_at n name ofs nfs patch err i d ov nv :
  ofs.*1 = nfs.*1 -> NoDup (slotNames nfs) ->
  ofs !! i = Some (d, ov) -> nfs !! i = Some (d, nv) -> included (d, nv) = true ->
  DiffStructs n (VStruct name ofs) (VStruct name nfs) = Ok (patch, err) ->
  slotSpec (Diff n) (Some (Field false (d, ov))) (Field false (d, nv))
    (entries patch !! externalName (d, nv)).
Proof.
  intros Hd Hnd Ho Hn Hi H.
  pose proof (DiffStructs_slotSpec n name ofs nfs patch err (d, nv) Hnd
                (list_elem_of_lookup_2 _ _ _ Hn) Hi H) as Hspec.
  unfold getFieldByName in Hspec. cbn [ValueOf isRO fieldsOf under] in Hspec.
  change (externalName (d, nv)) with (externalName (d, ov)) in Hspec at 1.
  rewrite (lookupField_at false ofs i (d, ov)) in Hspec; [done| |done|done].
  unfold slotNames. by rewrite (included_names_same_decls ofs nfs Hd).
Qed.

(** The struct diff of two records of one type, slot by slot: for an
    included slot with old value [ov] and new value [nv], when no two
    included slots share an external name, the patch's entry under the
    slot's name is what [slotSpec] says: a deletion marker when the new
    pointer is nil and the old one is not; the normalized new value when
    the old pointer is nil; nothing when [directValuesEqual] finds the
    values equal; the new timestamp for timestamps; the non-empty result of
    the nested [Diff] for records and maps; the normalized new value
    otherwise. *)
Theorem DiffStructs_slot n name ofs nfs patch err i d ov nv :
  ofs.*1 = nfs.*1 -> NoDup (slotNames nfs) ->
  ofs !! i = Some (d, ov) -> nfs !! i = Some (d, nv) -> included (d, nv) = true ->
  DiffStructs n (VStruct name ofs) (VStruct name nfs) = Ok (patch, err) ->
  slotSpec (Diff n) (Some (Field false (d, ov))) (Field false (d, nv))
    (entries patch !! externalName (d, nv)).
Proof. apply DiffStructs_slot_at. Qed.

Lemma DiffStructs_slot_witness :
  slotSpec (Diff 1) (Some (Field false (mkField "At" true "at" (TStruct "Point"),
                                         VStruct "Point" (pointSlots 1 0))))
    (Field false (mkField "At" true "at" (TStruct "Point"), VStruct "Point" (pointSlots 2 0)))
    (entries (Some {[ "at" := VMap TAny (Some {[ "x" := VInt 2 ]}) ]})
       !! externalName (mkField "At" true "at" (TStruct "Point"),
                        VStruct "Point" (pointSlots 2 0))).
Proof.
  apply (DiffStructs_slot 1 "Event" (event 5 None 1) (event 5 None 2)
           (Some {[ "at" := VMap TAny (Some {[ "x" := VInt 2 ]}) ]}) ErrNil 2%nat).
  - reflexivity.
  - vm_compute. repeat constructor; set_solver.
  - reflexivity.
  - reflexivity.
  - reflexivity.
  - vm_compute. reflexivity.
Defined.

(** Pointer slots.  A new nil pointer deletes the key when the old pointer
    was not nil and leaves it out when it was; a new non-nil pointer after
    an old nil one puts the normalized value it points to in the patch. *)
Theorem DiffStructs_pointer_slot n name ofs nfs patch err i d t (p q : option (N * value)) :
  ofs.*1 = nfs.*1 -> NoDup (slotNames nfs) ->
  ofs !! i = Some (d, VPtr t p) -> nfs !! i = Some (d, VPtr t q) ->
  included (d, VPtr t q) = true -> isAny (FType d) = false ->
  DiffStructs n (VStruct name ofs) (VStruct name nfs) = Ok (patch, err) ->
  match p, q with
  | None, None => entries patch !! externalName (d, VPtr t q) = None
  | Some _, None => entries patch !! externalName (d, VPtr t q) = Some VNil
  | None, Some (_, e) =>
      entries patch !! externalName (d, VPtr t q) = Some (toMapValue_at (isAny t) e)
  | Some _, Some _ => True
  end.
Proof.
  intros Hd Hnd Ho Hn Hi Hany H.
  pose proof (DiffStructs_slot_at n name ofs nfs patch err i d _ _ Hd Hnd Ho Hn Hi H) as Hs.
  unfold slotSpec, isNilPointer, Field, toMapValue in Hs.
  cbn [isIface under fst snd] in Hs. rewrite Hany in Hs.
  destruct p as [[a x]|], q as [[b y]|]; done.
Qed.

Lemma DiffStructs_pointer_slot_witness :
  entries (Some {[ "updated" := VNil ]})
    !! externalName (mkField "Updated" true "updated" (TPtr TTime), VPtr TTime None) =
  Some VNil.
Proof.
  apply (DiffStructs_pointer_slot 1 "Event" (event 5 (Some (1%N, VTime 7 0)) 1) (event 5 None 1)
           (Some {[ "updated" := VNil ]}) ErrNil 1%nat
           (mkField "Updated" true "updated" (TPtr TTime)) TTime (Some (1%N, VTime 7 0)) None).
  - reflexivity.
  - vm_compute. repeat constructor; set_solver.
  - reflexivity.
  - reflexivity.
  - reflexivity.
  - reflexivity.
  - vm_compute. reflexivity.
Defined.

(** Timestamp slots.  Two timestamps are compared by their instants: the
    same instant, in whatever zone, leaves the key out; another instant
    puts the new timestamp itself in the patch, not a nested map. *)
Theorem DiffStructs_time_slot n name ofs nfs patch err i d (a b zone zone' : Z) :
  ofs.*1 = nfs.*1 -> NoDup (slotNames nfs) ->
  ofs !! i = Some (d, VTime a zone) -> nfs !! i = Some (d, VTime b zone') ->
  included (d, VTime b zone') = true -> isAny (FType d) = false ->
  DiffStructs n (VStruct name ofs) (VStruct name nfs) = Ok (patch, err) ->
  entries patch !! externalName (d, VTime b zone') =
    if bool_decide (a = b) then None else Some (VTime b zone').
Proof.
  intros Hd Hnd Ho Hn Hi Hany H.
  pose proof (DiffStructs_slot_at n name ofs nfs patch err i d _ _ Hd Hnd Ho Hn Hi H) as Hs.
  unfold slotSpec, isNilPointer, Field, toMapValue, directValuesEqual, Interface, TypeOf in Hs.
  cbn [isIface under isRO fst snd orb negb IsExported] in Hs.
  unfold included in Hi. apply andb_true_iff in Hi as [He _]. cbn [fst] in He.
  rewrite Hany, He in Hs. cbn -[bool_decide] in Hs.
  destruct Hs as (eq & Heq & Hr).
  rewrite (bool_decide_eq_true_2 (Some TTime = Some TTime)) in Heq by done.
  cbn in Heq. injection Heq as <-.
  destruct (bool_decide (a = b)); [done|].
  destruct Hr as (oi & ni & _ & _ & Hr).
  rewrite (bool_decide_eq_true_2 (Some TTime = Some TTime)) in Hr by done. exact Hr.
Qed.

Lemma DiffStructs_time_slot_witness :
  entries (Some {[ "created" := VTime 6 0 ]})
    !! externalName (mkField "Created" true "created" TTime, VTime 6 0) =
  if bool_decide (5 = 6) then None else Some (VTime 6 0).
Proof.
  apply (DiffStructs_time_slot 1 "Event" (event 5 None 1) (event 6 None 1)
           (Some {[ "created" := VTime 6 0 ]}) ErrNil 0%nat
           (mkField "Created" true "created" TTime) 5 6 0 0).
  - reflexivity.
  - vm_compute. repeat constructor; set_solver.
  - reflexivity.
  - reflexivity.
  - reflexivity.
  - reflexivity.
  - vm_compute. reflexivity.
Defined.

(** ** The engine terminates *)

Lemma extends_decided {A} (r r' : result A) : decided r -> extends r r' -> r' = r.
Proof. intros Hd [H|H]; [by destruct Hd|done]. Qed.

Lemma DiffMaps_mono n m (old new : gomap) :
  (n <= m)%nat -> extends (DiffMaps n old new) (DiffMaps m old new).
Proof.
  intros Hnm. apply DiffMaps_extends; intros a b; by apply engine_mono.
Qed.

Lemma DiffStructs_mono n m (old new : value) :
  (n <= m)%nat -> extends (DiffStructs n old new) (DiffStructs m old new).
Proof.
  intros Hnm. apply diffStructValues_extends; intros a b; by apply engine_mono.
Qed.

(** The exploration depth is a device of the model only: every call of
    [valuesEqual], [Diff], [DiffStructs] and [DiffMaps] comes to an end, with
    a result or a panic, as soon as the depth exceeds the nesting of the two
    arguments, and that outcome is the same at every greater depth. *)
Theorem engine_terminates (a b : value) (old new : gomap) :
  exists (eq : result bool) (d : result (value * error)) (s m : result (gomap * error)),
    decided eq /\ decided d /\ decided s /\ decided m /\
    forall n,
      ((depth a < n)%nat -> (depth b < n)%nat ->
       valuesEqual n a b = eq /\ Diff n a b = d /\ DiffStructs n a b = s) /\
      ((depth (VMap TAny old) <= n)%nat -> (depth (VMap TAny new) <= n)%nat ->
       DiffMaps n old new = m).
Proof.
  set (n0 := S (Nat.max (depth a) (depth b))).
  set (n1 := Nat.max (depth (VMap TAny old)) (depth (VMap TAny new))).
  destruct (engine_total n0 a b) as [Hve Hdf]; [unfold n0; lia|unfold n0; lia|].
  pose proof (DiffStructs_total n0 a b) as Hds.
  pose proof (DiffMaps_total n1 old new) as Hdm.
  exists (valuesEqual n0 a b), (Diff n0 a b), (DiffStructs n0 a b), (DiffMaps n1 old new).
  split_and!; [done|done|apply Hds; unfold n0; lia|apply Hdm; unfold n1; lia|].
  intros n. split.
  - intros Ha Hb. assert (Hn : (n0 <= n)%nat) by (unfold n0; lia).
    destruct (engine_mono n0 n a b Hn) as [Hev Hed]. split_and!.
    + by apply extends_decided.
    + by apply extends_decided.
    + apply extends_decided; [apply Hds; unfold n0; lia|by apply DiffStructs_mono].
  - intros Ho Hn. apply extends_decided; [apply Hdm; unfold n1; lia|].
    apply DiffMaps_mono. unfold n1. lia.
Qed.

(** ** The earlier revision of diffmaps.go against the current one *)

Lemma range_ext_in {X S R} (body body' : X -> S -> result (flow S R)) l s :
  (forall x s1, x ∈ l -> body x s1 = body' x s1) ->
  range body l s = range body' l s.
Proof.
  revert s. induction l as [|x l IH]; intros s H; [done|].
  rewrite !range_cons, (H x s) by (by left).
  destruct (body' x s) as [[s'|r]| |]; cbn [mbind result_bind]; try done.
  apply IH. intros y s1 Hy. apply H. by right.
Qed.

Lemma range_each {X S R} (body : X -> S -> result (flow S R))
    (step : X -> S -> result S) l s :
  (forall x s1, x ∈ l -> body x s1 = step x s1 ≫= fun s2 => Ok (Next s2)) ->
  range body l s = each step l s ≫= fun s' => Ok (Next s').
Proof.
  revert s. induction l as [|x l IH]; intros s H; [done|].
  rewrite range_cons, (H x s) by (by left). cbn [each].
  destruct (step x s) as [s'| |]; cbn [mbind result_bind]; try done.
  apply IH. intros y s1 Hy. apply H. by right.
Qed.

Lemma goEq_plain a b :
  plain a = true -> plain b = true ->
  isMap a && isMap b = false -> isSlice a && isSlice b = false ->
  goEq a b = Returns (safeEqual a b).
Proof.
  intros Ha Hb Hm Hs.
  assert (H : goEq a b <> Panics); [|unfold safeEqual; by destruct (goEq a b)].
  apply plain_inv in Ha as [[x ->]|[[x ->]|[[x ->]|[[x ->]|[x ->]]]]];
    apply plain_inv in Hb as [[y ->]|[[y ->]|[[y ->]|[[y ->]|[y ->]]]]];
    try discriminate; cbn; eval_decides; done.
Qed.

Section LegacyFacts.

Variable ds : value -> value -> result gomap.
Variables veL ve : value -> value -> result bool.
Variable dfL : value -> value -> result gomap.
Variable df : value -> value -> result (value * error).

Hypothesis Hve : forall a b, plain a = true -> plain b = true -> veL a b = ve a b.
Hypothesis Hdf : forall a b, plain a = true -> plain b = true ->
  isMap a = true -> isMap b = true ->
  exists r : result (gomap * error), nilError r /\
    df a b = (r ≫= fun '(p, e) => Ok (VMap TAny p, e)) /\
    dfL a b = (r ≫= fun pe => Ok pe.1).

Lemma legacy_mapsEqual_plain (a b : gmap string value) :
  plainMap a = true -> plainMap b = true ->
  LegacyMaps.mapsEqual veL (Some a) (Some b) = Open.mapsEqual ve (Some a) (Some b).
Proof.
  intros Ha Hb. unfold LegacyMaps.mapsEqual, Open.mapsEqual.
  destruct (negb _); [done|]. f_equal. apply range_ext_in.
  intros [k v] [] Hkv. cbn [fst snd entries default from_option id].
  apply elem_of_map_to_list in Hkv.
  destruct (b !! k) as [vb|] eqn:Hk; [|done].
  rewrite Hve; [done| |].
  - exact (plain_entry a k v Ha Hkv).
  - exact (plain_entry b k vb Hb Hk).
Qed.

Lemma legacy_slicesEqual_plain (l l' : list value) :
  plain (VSlice TAny (Some l)) = true -> plain (VSlice TAny (Some l')) = true ->
  LegacyMaps.slicesEqual veL l l' = Open.slicesEqual ve l l'.
Proof.
  intros Ha Hb. unfold LegacyMaps.slicesEqual, Open.slicesEqual.
  destruct (negb _); [done|]. f_equal. apply range_ext_in.
  intros [x y] [] Hxy. cbn [fst snd].
  apply elem_of_zip_with in Hxy as (x' & y' & [= <- <-] & Hx & Hy).
  rewrite Hve; [done| |].
  - exact (plain_elem l x Ha Hx).
  - exact (plain_elem l' y Hb Hy).
Qed.

Lemma legacy_valuesEqual_plain a b :
  plain a = true -> plain b = true ->
  LegacyMaps.valuesEqual ds veL a b = Open.valuesEqual ve df a b.
Proof.
  intros Ha Hb. unfold LegacyMaps.valuesEqual, Open.valuesEqual.
  pose proof (plain_not_struct a Ha) as Hsa.
  destruct (isMap a && isMap b) eqn:Hm.
  - apply andb_true_iff in Hm as [Hma Hmb].
    destruct (plain_isMap a Ha Hma) as [ma ->]. destruct (plain_isMap b Hb Hmb) as [mb ->].
    cbn [asMap]. by apply legacy_mapsEqual_plain.
  - destruct (isSlice a && isSlice b) eqn:Hs.
    + apply andb_true_iff in Hs as [Hsa' Hsb'].
      destruct a as [| | | | | |[] [l|]| |]; try discriminate.
      destruct b as [| | | | | |[] [l'|]| |]; try discriminate.
      cbn [asSlice]. by apply legacy_slicesEqual_plain.
    + rewrite Hsa. cbn [andb]. rewrite goEq_plain by done.
      destruct a; try discriminate; destruct b; try discriminate; done.
Qed.

Lemma legacy_diffEntry_plain (o : gmap string value) k v st :
  plainMap o = true -> plain v = true ->
  Open.diffEntry ve df o (k, v) st =
    LegacyMaps.diffEntry veL dfL o (k, v) st ≫= fun s2 => Ok (Next s2).
Proof.
  intros Ho Hv. unfold Open.diffEntry, LegacyMaps.diffEntry. destruct st as [res seen].
  destruct (o !! k) as [ov|] eqn:Hk; [|done].
  assert (Hov : plain ov = true) by exact (plain_entry o k ov Ho Hk).
  rewrite Hve by done. destruct (ve ov v) as [[|]| |]; cbn [mbind result_bind]; try done.
  rewrite (plain_not_struct ov Hov), (plain_not_struct v Hv), !orb_false_r.
  destruct (isMap ov && isMap v) eqn:Hm; [|done].
  apply andb_true_iff in Hm as [Hmo Hmv].
  destruct (Hdf ov v Hov Hv Hmo Hmv) as (r & Hnil & -> & ->).
  destruct r as [[p e]| |]; cbn [mbind result_bind]; try done.
  cbn in Hnil. subst e. cbn [fst].
  unfold nonEmptyMap. cbn [isMap asMap andb]. by destruct (bool_decide _).
Qed.

Lemma legacy_DiffMaps_plain (o m : gmap string value) :
  plainMap o = true -> plainMap m = true ->
  LegacyMaps.DiffMaps veL dfL (Some o) (Some m) =
    Open.DiffMaps ve df (Some o) (Some m) ≫= fun pe => Ok pe.1.
Proof.
  intros Ho Hm. unfold LegacyMaps.DiffMaps, Open.DiffMaps.
  rewrite (range_each _ (LegacyMaps.diffEntry veL dfL o)).
  - destruct (each _ _ _) as [[res seen]| |]; done.
  - intros [k v] s1 Hkv. apply legacy_diffEntry_plain; [done|].
    apply elem_of_map_to_list in Hkv. exact (plain_entry m k v Hm Hkv).
Qed.

End LegacyFacts.

Lemma legacy_engine_plain ds n a b :
  plain a = true -> plain b = true ->
  (LegacyMaps.engine ds n).1 a b = valuesEqual n a b /\
  (isMap a = true -> isMap b = true ->
   exists r : result (gomap * error), nilError r /\
     Diff n a b = (r ≫= fun '(p, e) => Ok (VMap TAny p, e)) /\
     (LegacyMaps.engine ds n).2 a b = (r ≫= fun pe => Ok pe.1)).
Proof.
  revert a b. induction n as [|n IH]; intros a b Ha Hb.
  - split; [done|]. intros _ _. by exists OutOfFuel.
  - split.
    + cbn [LegacyMaps.engine fst]. unfold valuesEqual. cbn [engine fst].
      apply legacy_valuesEqual_plain; [|done|done].
      intros x y Hx Hy. by apply IH.
    + intros Hma Hmb.
      destruct (plain_isMap a Ha Hma) as [ma ->]. destruct (plain_isMap b Hb Hmb) as [mb ->].
      exists (DiffMaps n (Some ma) (Some mb)). split_and!.
      * apply DiffMaps_nilError, engine_nilError.
      * apply Diff_maps.
      * cbn [LegacyMaps.engine snd]. unfold Legacy.Diff.
        cbn [isStruct isMap andb asMap].
        apply (legacy_DiffMaps_plain _ (valuesEqual n) _ (Diff n)); try done.
        -- intros x y Hx Hy. by apply IH.
        -- intros x y Hx Hy Hmx Hmy. by apply IH.
Qed.

Lemma DiffMaps_plain_returns n (old new : gomap) :
  plainMap (entries old) = true -> plainMap (entries new) = true ->
  (depth (VMap TAny (Some (entries old))) <= n)%nat ->
  exists patch, DiffMaps n old new = Ok (patch, ErrNil).
Proof.
  intros Ho Hn Hd. destruct old as [o|], new as [m|]; try (by eexists).
  cbn [entries default from_option id] in *.
  destruct (DiffMaps_plain n o m Ho Hn Hd) as (patch & Hp & _). by eexists.
Qed.

(** On maps of plain values the earlier revision of [DiffMaps] computes
    what the current one computes, at every depth, whatever the
    [DiffStructs] of that revision does; with enough depth both return
    the same patch. *)
Theorem Legacy_DiffMaps_agrees ds n (old new : gomap) :
  plainMap (entries old) = true -> plainMap (entries new) = true ->
  LegacyMaps.DiffMaps (LegacyMaps.engine ds n).1 (LegacyMaps.engine ds n).2 old new =
    (DiffMaps n old new ≫= fun pe => Ok pe.1) /\
  ((depth (VMap TAny (Some (entries old))) <= n)%nat ->
   exists patch,
     LegacyMaps.DiffMaps (LegacyMaps.engine ds n).1 (LegacyMaps.engine ds n).2 old new =
       Ok patch /\
     DiffMaps n old new = Ok (patch, ErrNil)).
Proof.
  intros Ho Hn.
  assert (Heq : LegacyMaps.DiffMaps (LegacyMaps.engine ds n).1 (LegacyMaps.engine ds n).2
                  old new = (DiffMaps n old new ≫= fun pe => Ok pe.1)).
  { destruct old as [o|], new as [m|]; try reflexivity.
    cbn [entries default from_option id] in *.
    apply legacy_DiffMaps_plain; try done.
    - intros x y Hx Hy. by apply legacy_engine_plain.
    - intros x y Hx Hy Hmx Hmy. by apply legacy_engine_plain. }
  split; [exact Heq|]. intros Hd. rewrite Heq.
  destruct (DiffMaps_plain_returns n old new Ho Hn Hd) as (patch & ->).
  by exists patch.
Qed.

Lemma Legacy_DiffMaps_agrees_witness :
  LegacyMaps.DiffMaps (LegacyMaps.engine (fun _ _ => Panic) 1).1
                      (LegacyMaps.engine (fun _ _ => Panic) 1).2
                      (Some oldABC) (Some newABD) =
    (DiffMaps 1 (Some oldABC) (Some newABD) ≫= fun pe => Ok pe.1) /\
  ((depth (VMap TAny (Some (entries (Some oldABC)))) <= 1)%nat ->
   exists patch,
     LegacyMaps.DiffMaps (LegacyMaps.engine (fun _ _ => Panic) 1).1
                         (LegacyMaps.engine (fun _ _ => Panic) 1).2
                         (Some oldABC) (Some newABD) = Ok patch /\
     DiffMaps 1 (Some oldABC) (Some newABD) = Ok (patch, ErrNil)).
Proof.
  apply (Legacy_DiffMaps_agrees (fun _ _ => Panic) 1 (Some oldABC) (Some newABD)).
  - vm_compute. reflexivity.
  - vm_compute. reflexivity.
Defined.

(** What the later revision repaired: on two slices of one element type
    other than [any], equal or not, the earlier [valuesEqual] panics, and so
    does the earlier [DiffMaps] on maps that hold them under a common key;
    the current [DiffMaps] returns a patch with the new slice. *)
Theorem Legacy_DiffMaps_panics ds n k t (l l' : list value) :
  isAny t = false ->
  (LegacyMaps.engine ds (S n)).1 (VSlice t (Some l)) (VSlice t (Some l')) = Panic /\
  LegacyMaps.DiffMaps (LegacyMaps.engine ds (S n)).1 (LegacyMaps.engine ds (S n)).2
    (Some {[ k := VSlice t (Some l) ]}) (Some {[ k := VSlice t (Some l') ]}) = Panic /\
  DiffMaps (S n) (Some {[ k := VSlice t (Some l) ]}) (Some {[ k := VSlice t (Some l') ]}) =
    Ok (Some {[ k := VSlice t (Some l') ]}, ErrNil).
Proof.
  intros Ht.
  assert (HisS : isSlice (VSlice t (Some l)) = false) by (by destruct t).
  assert (HisM : forall x, isMap (VSlice t x) = false) by done.
  assert (Hgo : goEq (VSlice t (Some l)) (VSlice t (Some l')) = Panics).
  { cbn. by rewrite bool_decide_eq_true_2. }
  assert (HveL : (LegacyMaps.engine ds (S n)).1 (VSlice t (Some l)) (VSlice t (Some l')) = Panic).
  { cbn [LegacyMaps.engine fst]. unfold LegacyMaps.valuesEqual.
    rewrite HisS. cbn [isMap isStruct andb]. by rewrite Hgo. }
  assert (Hve : valuesEqual (S n) (VSlice t (Some l)) (VSlice t (Some l')) = Ok false).
  { unfold valuesEqual. cbn [engine fst]. unfold Open.valuesEqual.
    rewrite HisS. cbn [isMap isStruct andb]. unfold safeEqual. by rewrite Hgo. }
  split_and!; [exact HveL| |].
  - unfold LegacyMaps.DiffMaps. rewrite !map_to_list_singleton. cbn [each].
    unfold LegacyMaps.diffEntry. cbv beta iota zeta. rewrite lookup_singleton_eq. by rewrite HveL.
  - unfold DiffMaps, Open.DiffMaps. rewrite !map_to_list_singleton. cbn [range].
    unfold Open.diffEntry. cbv beta iota zeta. rewrite lookup_singleton_eq.
    change ((engine (S n)).1) with (valuesEqual (S n)). rewrite Hve.
    cbn [mbind result_bind isMap isStruct orb andb foldl].
    unfold Open.markDeleted. cbn [fst]. rewrite bool_decide_eq_true_2 by set_solver.
    by rewrite insert_empty.
Qed.

Lemma Legacy_DiffMaps_panics_witness :
  (LegacyMaps.engine (fun _ _ => Ok None) 1).1
     (VSlice TInt (Some [VInt 1])) (VSlice TInt (Some [VInt 1])) = Panic /\
  LegacyMaps.DiffMaps (LegacyMaps.engine (fun _ _ => Ok None) 1).1
                      (LegacyMaps.engine (fun _ _ => Ok None) 1).2
    (Some {[ "a" := VSlice TInt (Some [VInt 1]) ]})
    (Some {[ "a" := VSlice TInt (Some [VInt 1]) ]}) = Panic /\
  DiffMaps 1 (Some {[ "a" := VSlice TInt (Some [VInt 1]) ]})
             (Some {[ "a" := VSlice TInt (Some [VInt 1]) ]}) =
    Ok (Some {[ "a" := VSlice TInt (Some [VInt 1]) ]}, ErrNil).
Proof.
  apply (Legacy_DiffMaps_panics (fun _ _ => Ok None) 0 "a" TInt [VInt 1] [VInt 1]).
  reflexivity.
Defined.

(** ** What [valuesEqual] finds equal, and the shape of [Diff]'s result *)

Lemma valuesEqual_maps n (a b : gomap) :
  valuesEqual (S n) (VMap TAny a) (VMap TAny b) = Open.mapsEqual (valuesEqual n) a b.
Proof. reflexivity. Qed.

Lemma valuesEqual_slices n (l l' : option (list value)) :
  valuesEqual (S n) (VSlice TAny l) (VSlice TAny l') =
    Open.slicesEqual (valuesEqual n) (default [] l) (default [] l').
Proof. by destruct l, l'. Qed.

Lemma mapsEqual_true ve (a b : gomap) :
  Open.mapsEqual ve a b = Ok true ->
  len a = len b /\
  forall k va, entries a !! k = Some va ->
    exists vb, entries b !! k = Some vb /\ ve va vb = Ok true.
Proof.
  unfold Open.mapsEqual. intros H.
  destruct (decide (len a = len b)) as [Hlen|Hlen].
  2:{ rewrite bool_decide_eq_false_2 in H by done. discriminate. }
  rewrite bool_decide_eq_true_2 in H by done. cbn [negb] in H.
  split; [done|]. inv_bind H. destruct a0 as [[]|r].
  2:{ apply range_Return in Ha as (x & s1 & _ & Hb). cbn beta in Hb.
      destruct (entries b !! x.1); [|congruence].
      inv_bind Hb. destruct a0; congruence. }
  intros k va Hk. apply elem_of_map_to_list in Hk.
  revert k va Hk.
  refine (range_Next_ind _
            (fun done (_ : unit) => forall k va, (k, va) ∈ done ->
               exists vb, entries b !! k = Some vb /\ ve va vb = Ok true)
            _ _ () _ _ Ha).
  - intros k va Hk. by apply elem_of_nil in Hk.
  - intros done [k' v'] [] [] HI Hstep k va [Hin|Hin]%elem_of_app; [by apply HI|].
    apply list_elem_of_singleton in Hin. injection Hin as -> ->. cbn [fst snd] in Hstep.
    destruct (entries b !! k') as [vb|]; [|discriminate].
    inv_bind Hstep. destruct a0; [|discriminate]. by exists vb.
Qed.

Lemma slicesEqual_true ve (l l' : list value) :
  Open.slicesEqual ve l l' = Ok true ->
  length l = length l' /\
  forall i x y, l !! i = Some x -> l' !! i = Some y -> ve x y = Ok true.
Proof.
  unfold Open.slicesEqual. intros H.
  destruct (decide (length l = length l')) as [Hlen|Hlen].
  2:{ rewrite bool_decide_eq_false_2 in H by done. discriminate. }
  rewrite bool_decide_eq_true_2 in H by done. cbn [negb] in H.
  split; [done|]. inv_bind H. destruct a as [[]|r].
  2:{ apply range_Return in Ha as (x & s1 & _ & Hb). cbn beta in Hb.
      inv_bind Hb. destruct a; congruence. }
  assert (Hall : forall xy, xy ∈ zip l l' -> ve xy.1 xy.2 = Ok true).
  { refine (range_Next_ind _
              (fun done (_ : unit) => forall xy, xy ∈ done -> ve xy.1 xy.2 = Ok true)
              _ _ () _ _ Ha).
    - intros xy Hxy. by apply elem_of_nil in Hxy.
    - intros done xy [] [] HI Hstep xy' [Hin|Hin]%elem_of_app; [by apply HI|].
      apply list_elem_of_singleton in Hin. subst xy'.
      inv_bind Hstep. by destruct a. }
  intros i x y Hx Hy. apply (Hall (x, y)).
  apply list_elem_of_lookup. exists i. apply lookup_zip_with_Some. by exists x, y.
Qed.

(** Two [map[string]any] that [valuesEqual] finds equal have the same keys,
    and under every key values that [valuesEqual] finds equal; two [[]any]
    that it finds equal have the same length and, at every index, elements
    that it finds equal. *)
Theorem valuesEqual_composite_sound n (a b : gomap) (l l' : option (list value)) :
  valuesEqual (S n) (VMap TAny a) (VMap TAny b) = Ok true ->
  valuesEqual (S n) (VSlice TAny l) (VSlice TAny l') = Ok true ->
  (forall k, match entries a !! k, entries b !! k with
             | Some va, Some vb => valuesEqual n va vb = Ok true
             | None, None => True
             | _, _ => False
             end) /\
  length (default [] l) = length (default [] l') /\
  (forall i x y, default [] l !! i = Some x -> default [] l' !! i = Some y ->
     valuesEqual n x y = Ok true).
Proof.
  intros Hm Hs. rewrite valuesEqual_maps in Hm. rewrite valuesEqual_slices in Hs.
  apply mapsEqual_true in Hm as [Hlen Hm]. apply slicesEqual_true in Hs as [Hl Hs].
  split_and!; [|done|done].
  assert (Hdom : dom (entries a) = dom (entries b)).
  { apply set_subseteq_size_eq.
    - intros k [va Hk]%elem_of_dom. destruct (Hm k va Hk) as (vb & Hb & _).
      apply elem_of_dom. by eexists.
    - rewrite !size_dom. unfold len in Hlen. lia. }
  intros k. destruct (entries a !! k) as [va|] eqn:Ha.
  - destruct (Hm k va Ha) as (vb & -> & Hv). done.
  - destruct (entries b !! k) as [vb|] eqn:Hb; [|done].
    assert (k ∈ dom (entries a)) as [? ?]%elem_of_dom; [|congruence].
    rewrite Hdom. apply elem_of_dom. by eexists.
Qed.

Lemma valuesEqual_composite_sound_witness :
  (forall k, match entries (Some oldABC) !! k, entries (Some oldABC) !! k with
             | Some va, Some vb => valuesEqual 1 va vb = Ok true
             | None, None => True
             | _, _ => False
             end) /\
  length (default [] (Some [VInt 1; VNil])) = length (default [] (Some [VInt 1; VNil])) /\
  (forall i x y, default [] (Some [VInt 1; VNil]) !! i = Some x ->
     default [] (Some [VInt 1; VNil]) !! i = Some y -> valuesEqual 1 x y = Ok true).
Proof.
  apply (valuesEqual_composite_sound 1 (Some oldABC) (Some oldABC)
           (Some [VInt 1; VNil]) (Some [VInt 1; VNil])).
  - vm_compute. reflexivity.
  - vm_compute. reflexivity.
Defined.

(** Whenever one of the two values is a record or a non-nil
    [map[string]any], what [Diff] returns is a [map[string]any]: the new
    value itself is returned only when neither side is composite. *)
Theorem Diff_result_is_map n old new d e :
  composite old || composite new = true ->
  Diff n old new = Ok (d, e) ->
  exists p, d = VMap TAny p.
Proof.
  intros Hc H. destruct n as [|n]; [discriminate|].
  unfold Diff in H. cbn [engine snd] in H. unfold Open.Diff in H.
  assert (Hwrap : forall (r : result (gomap * error)),
            (r ≫= fun '(result, err) => Ok (VMap TAny result, err)) = Ok (d, e) ->
            exists p, d = VMap TAny p).
  { intros r Hr. inv_bind Hr. destruct a as [p e']. injection Hr as <- _. by eexists. }
  destruct old as [| | | | | | |[] [mo|]|on ofs]; destruct new as [| | | | | | |[] [mn|]|nn nfs];
    cbn [composite orb] in Hc; try discriminate;
    cbn [isStruct isMap andb orb asMap] in H; rewrite ?ToMap_struct in H;
    rewrite ?(bool_decide_eq_true_2 (is_Some (Some _))) in H by (by eexists);
    rewrite ?orb_true_r in H; cbn [orb] in H; exact (Hwrap _ H).
Qed.

Lemma Diff_result_is_map_witness :
  exists p, VMap TAny (Some ((fun _ => VNil) <$> newABD)) = VMap TAny p.
Proof.
  apply (Diff_result_is_map 1 (VMap TAny (Some newABD)) (VString "x")
           (VMap TAny (Some ((fun _ => VNil) <$> newABD))) ErrNil).
  - reflexivity.
  - vm_compute. reflexivity.
Defined.
